(** * gen_palette.py: the DOOM fire palette generator, embedded and verified

    The program of [tools/gen_palette.py] is embedded function by function.
    Python floats are IEEE 754 binary64 values, here the primitive floats of
    the Standard Library, specified by [SpecFloat]; Python integers are [Z].
    Exceptions are explicit: a computation returns [Ok v] or [Raise e].

    The one operation whose result bits are not fixed by IEEE 754 is the C
    library's [pow], behind Python's [**] on the arguments that are not
    special cases.  It is a variable of the development: [float_pow] puts
    CPython's dispatch of the special cases in front of it, and a theorem that
    needs more names the property of [pow] it uses. *)

From Stdlib Require Import ZArith List Bool String Ascii Lia Floats DecimalString.
From Stdlib Require Import Reals Lra.
From Stdlib.Strings Require Import Byte.
Import ListNotations.

Set Warnings "-inexact-float".

Local Open Scope Z_scope.

(** ** The Python runtime the program relies on *)

Module Py.

(** The exceptions the program can raise.  [ComplexResult] stands for a float
    power that leaves the floats (negative base, fractional exponent): Python
    returns a complex number, on which [round] then raises [TypeError]. *)
Inductive exn : Set :=
| IndexError
| UnboundLocalError
| ValueError
| ZeroDivisionError
| OverflowError
| ComplexResult.

Inductive result (A : Type) : Type :=
| Ok (a : A)
| Raise (e : exn).
Arguments Ok {A} a.
Arguments Raise {A} e.

Definition bind {A B : Type} (m : result A) (k : A -> result B) : result B :=
  match m with
  | Ok a => k a
  | Raise e => Raise e
  end.

Definition raises {A : Type} (m : result A) : bool :=
  match m with
  | Ok _ => false
  | Raise _ => true
  end.

(** [mapM f l]: the list of the results of [f], in order, or the first
    exception: a [for] loop that appends one item per iteration. *)
Fixpoint mapM {A B : Type} (f : A -> result B) (l : list A) : result (list B) :=
  match l with
  | [] => Ok []
  | a :: l' =>
      bind (f a) (fun b => bind (mapM f l') (fun bs => Ok (b :: bs)))
  end.

(** [range(n)] *)
Definition range (n : Z) : list Z := map Z.of_nat (seq 0 (Z.to_nat n)).

(** *** Floats *)

(** [min(a, b)] and [max(a, b)] of two floats: the first argument stays unless
    the second compares strictly below (above) it, so a NaN second argument
    never wins. *)
Definition min (a b : float) : float := if PrimFloat.ltb b a then b else a.
Definition max (a b : float) : float := if PrimFloat.ltb a b then b else a.

(** [x / y] on floats *)
Definition float_truediv (x y : float) : result float :=
  if PrimFloat.eqb y 0%float then Raise ZeroDivisionError else Ok (x / y)%float.

(** A Python integer as an (unnormalised) binary float with exponent 0. *)
Definition SF_of_Z (z : Z) : spec_float :=
  match z with
  | Z0 => S754_zero false
  | Zpos p => S754_finite false p 0
  | Zneg p => S754_finite true p 0
  end.

(** [a / b] on integers: the correctly rounded quotient, whatever the size of
    the operands ([SFdiv] rounds the exact quotient of the two mantissas). *)
Definition int_truediv (a b : Z) : result float :=
  if b =? 0 then Raise ZeroDivisionError
  else
    match SFdiv prec emax (SF_of_Z a) (SF_of_Z b) with
    | S754_infinity _ => Raise OverflowError
    | q => Ok (SF2Prim q)
    end.

(** [round(x)] of a float, one argument: the nearest integer, ties to even;
    [ValueError] on a NaN and [OverflowError] on an infinity. *)
Definition round_half_even (m : Z) (k : positive) : Z :=
  let q := Z.shiftr m (Zpos k) in
  let r := m - Z.shiftl q (Zpos k) in
  let half := Z.shiftl 1 (Zpos k - 1) in
  match r ?= half with
  | Lt => q
  | Gt => q + 1
  | Eq => if Z.even q then q else q + 1
  end.

Definition round (x : float) : result Z :=
  match Prim2SF x with
  | S754_nan => Raise ValueError
  | S754_infinity _ => Raise OverflowError
  | S754_zero _ => Ok 0
  | S754_finite s m e =>
      let n := match e with
               | Z0 => Zpos m
               | Zpos _ => Z.shiftl (Zpos m) e
               | Zneg k => round_half_even (Zpos m) k
               end in
      Ok (if s then - n else n)
  end.

(** [x == floor(x)] for a finite [x], and CPython's [DOUBLE_IS_ODD_INTEGER]. *)
Definition is_integer (x : float) : bool :=
  match Prim2SF x with
  | S754_zero _ => true
  | S754_finite _ m e =>
      match e with
      | Zneg k => Z.land (Zpos m) (Z.ones (Zpos k)) =? 0
      | _ => true
      end
  | _ => false
  end.

Definition is_odd_integer (x : float) : bool :=
  match Prim2SF x with
  | S754_finite _ m e =>
      match e with
      | Z0 => Z.odd (Zpos m)
      | Zpos _ => false
      | Zneg k =>
          (Z.land (Zpos m) (Z.ones (Zpos k)) =? 0) && Z.odd (Z.shiftr (Zpos m) (Zpos k))
      end
  | _ => false
  end.

Definition copysign (x y : float) : float :=
  if get_sign y then (- abs x)%float else abs x.

(** *** Strings: [int(s)], [float(s)] and the format specifications

    A string is a sequence of Unicode code points below 256.  The white
    space that [int] and [float] strip is the ASCII white space, 9 to 13 and
    32 (the separators 28 to 31 are not part of it), and the two other white
    space characters below 256, 133 and 160; the digits are the ASCII
    ones. *)

Definition is_space (c : ascii) : bool :=
  let n := nat_of_ascii c in
  ((9 <=? n) && (n <=? 13) || (n =? 32) || (n =? 133) || (n =? 160))%nat.

Definition is_digit (c : ascii) : bool :=
  let n := nat_of_ascii c in ((48 <=? n) && (n <=? 57))%nat.

Definition digit_val (c : ascii) : Z := Z.of_nat (nat_of_ascii c) - 48.

Definition lower (c : ascii) : ascii :=
  let n := nat_of_ascii c in
  if ((65 <=? n) && (n <=? 90))%nat then ascii_of_nat (n + 32) else c.

Fixpoint lstrip (s : list ascii) : list ascii :=
  match s with
  | c :: s' => if is_space c then lstrip s' else s
  | [] => []
  end.

Definition strip (s : list ascii) : list ascii := rev (lstrip (rev (lstrip s))).

(** [digit (["_"] digit)*], after its first digit: the value read so far, the
    number of digits read, and what is left. *)
Fixpoint digitpart_rest (s : list ascii) (acc n : Z) : Z * Z * list ascii :=
  match s with
  | c :: s' =>
      if is_digit c then digitpart_rest s' (10 * acc + digit_val c) (n + 1)
      else if Ascii.eqb c "_" then
        match s' with
        | d :: s'' =>
            if is_digit d then digitpart_rest s'' (10 * acc + digit_val d) (n + 1)
            else (acc, n, s)
        | [] => (acc, n, s)
        end
      else (acc, n, s)
  | [] => (acc, n, [])
  end.

Definition digitpart (s : list ascii) (acc : Z) : option (Z * Z * list ascii) :=
  match s with
  | c :: s' =>
      if is_digit c then Some (digitpart_rest s' (10 * acc + digit_val c) 1) else None
  | [] => None
  end.

Definition sign_of (s : list ascii) : bool * list ascii :=
  match s with
  | c :: s' =>
      if Ascii.eqb c "-" then (true, s')
      else if Ascii.eqb c "+" then (false, s')
      else (false, s)
  | [] => (false, [])
  end.

(** The default of [sys.int_max_str_digits] (Python 3.11 and later). *)
Definition int_max_str_digits : Z := 4300.

(** [int(s)], base 10, as [argparse] calls it for [type=int]: a string of
    more than [int_max_str_digits] digits, leading zeros counted, is
    refused. *)
Definition int_of_string (s : string) : result Z :=
  let '(neg, body) := sign_of (strip (list_ascii_of_string s)) in
  match digitpart body 0 with
  | Some (v, n, []) =>
      if int_max_str_digits <? n then Raise ValueError
      else Ok (if neg then - v else v)
  | _ => Raise ValueError
  end.

(** The float nearest to [m * 10 ^ k]. *)
Definition float_of_decimal (neg : bool) (m k : Z) : float :=
  let sf :=
    if m =? 0 then S754_zero false
    else match k with
         | Zneg p => SFdiv prec emax (SF_of_Z m) (SF_of_Z (10 ^ Zpos p))
         | _ => binary_normalize prec emax (m * 10 ^ k) 0 false
         end in
  SF2Prim (if neg then SFopp sf else sf).

(** [number ::= [digitpart] "." digitpart | digitpart ["."]]: the digits as
    one integer, and the number of them after the point. *)
Definition number (s : list ascii) : option (Z * Z * list ascii) :=
  match digitpart s 0 with
  | Some (v, _, rest) =>
      match rest with
      | c :: rest' =>
          if Ascii.eqb c "." then
            match digitpart rest' v with
            | Some (v', nfrac, rest'') => Some (v', nfrac, rest'')
            | None => Some (v, 0, rest')
            end
          else Some (v, 0, rest)
      | [] => Some (v, 0, [])
      end
  | None =>
      match s with
      | c :: rest' => if Ascii.eqb c "." then digitpart rest' 0 else None
      | [] => None
      end
  end.

(** [exponent ::= ("e" | "E") [sign] digitpart], when there is one. *)
Definition exponent (s : list ascii) : option (Z * list ascii) :=
  match s with
  | c :: s' =>
      if Ascii.eqb (lower c) "e" then
        let '(neg, body) := sign_of s' in
        match digitpart body 0 with
        | Some (v, _, rest) => Some (if neg then - v else v, rest)
        | None => None
        end
      else Some (0, s)
  | [] => Some (0, [])
  end.

(** [float(s)] *)
Definition float_of_string (s : string) : result float :=
  let '(neg, body) := sign_of (strip (list_ascii_of_string s)) in
  let word := string_of_list_ascii (map lower body) in
  if (String.eqb word "inf" || String.eqb word "infinity")%bool
  then Ok (if neg then neg_infinity else infinity)
  else if String.eqb word "nan" then Ok nan
  else
    match number body with
    | Some (m, nfrac, rest) =>
        match exponent rest with
        | Some (e, []) => Ok (float_of_decimal neg m (e - nfrac))
        | _ => Raise ValueError
        end
    | None => Raise ValueError
    end.

(** [str(n)], and the format specifications [02d] and [02X] of an integer:
    at least two characters, zeros after the sign. *)
Definition str (n : Z) : string := NilZero.string_of_int (Z.to_int n).

Definition hex_digit (d : Z) : ascii :=
  ascii_of_nat (Z.to_nat (if d <? 10 then 48 + d else 55 + d)).

Fixpoint hex_digits (fuel : nat) (n : Z) (acc : string) : string :=
  match fuel with
  | O => acc
  | S fuel' =>
      let acc' := String (hex_digit (n mod 16)) acc in
      if n <? 16 then acc' else hex_digits fuel' (n / 16) acc'
  end.

Definition hex (n : Z) : string := hex_digits (S (Z.to_nat (Z.log2 n))) n "".

Fixpoint zeros (n : nat) : string :=
  match n with
  | O => EmptyString
  | S n' => String "0" (zeros n')
  end.

Definition zfill (w : nat) (s : string) : string :=
  (zeros (w - String.length s) ++ s)%string.

Definition format_02d (n : Z) : string :=
  if n <? 0 then ("-" ++ zfill 1 (str (- n)))%string else zfill 2 (str n).

Definition format_02X (n : Z) : string :=
  if n <? 0 then ("-" ++ zfill 1 (hex (- n)))%string else zfill 2 (hex n).

(** *** Dynamically typed values: what [--gamma] may hold *)

Inductive value : Type :=
| Str (s : string)
| Float (x : float).

(** [v == s] for a string literal [s] *)
Definition eq_str (v : value) (s : string) : bool :=
  match v with
  | Str s' => String.eqb s' s
  | Float _ => false
  end.

(** [float(v)] *)
Definition float_of (v : value) : result float :=
  match v with
  | Str s => float_of_string s
  | Float x => Ok x
  end.

Section Pow.

(** The C library's [pow], used only where CPython hands over to it. *)
Variable libm_pow : float -> float -> float.

(** [iv ** iw] on floats, after CPython's [float_pow]: the special cases are
    sorted out first; the platform's [pow] gets finite arguments with
    [iw] nonzero and [iv] positive and different from 1, and an infinite
    result of it is an [OverflowError]. *)
Definition float_pow (iv iw : float) : result float :=
  if PrimFloat.eqb iw 0%float then Ok 1%float
  else if is_nan iv then Ok iv
  else if is_nan iw then Ok (if PrimFloat.eqb iv 1%float then 1%float else iw)
  else if is_infinity iw then
    let av := abs iv in
    if PrimFloat.eqb av 1%float then Ok 1%float
    else if Bool.eqb (PrimFloat.ltb 0%float iw) (PrimFloat.ltb 1%float av)
         then Ok (abs iw)
         else Ok 0%float
  else if is_infinity iv then
    let odd := is_odd_integer iw in
    if PrimFloat.ltb 0%float iw
    then Ok (if odd then iv else abs iv)
    else Ok (if odd then copysign 0%float iv else 0%float)
  else if PrimFloat.eqb iv 0%float then
    if PrimFloat.ltb iw 0%float then Raise ZeroDivisionError
    else Ok (if is_odd_integer iw then iv else 0%float)
  else if PrimFloat.ltb iv 0%float && negb (is_integer iw) then Raise ComplexResult
  else
    let negate := PrimFloat.ltb iv 0%float && is_odd_integer iw in
    let av := if PrimFloat.ltb iv 0%float then (- iv)%float else iv in
    if PrimFloat.eqb av 1%float then Ok (if negate then (-1)%float else 1%float)
    else
      let ix := libm_pow av iw in
      if is_infinity ix then Raise OverflowError
      else Ok (if negate then (- ix)%float else ix).

End Pow.

End Py.

Import Py.

(** ** A reference [pow]

    [x ** y] for positive finite [x] and finite nonzero [y], from square roots
    and products: [y = m * 2 ^ e], and the power is the product of the
    [x ^ (2 ^ (e + j))] over the bits [j] set in [m].  For a base below 1 and
    a positive exponent the result is kept within [0, 1], the range of the
    exact power.  It stands for the platform's [pow] where an instance is
    needed. *)

Module Libm.

Definition pow2k (x : float) (k : Z) : float :=
  match k with
  | Z0 => x
  | Zpos p => Pos.iter (fun z => z * z)%float x p
  | Zneg p => Pos.iter PrimFloat.sqrt x p
  end.

Fixpoint pow_bits (x : float) (m : positive) (k : Z) : float :=
  match m with
  | xH => pow2k x k
  | xO m' => pow_bits x m' (k + 1)
  | xI m' => (pow2k x k * pow_bits x m' (k + 1))%float
  end.

Definition pow (x y : float) : float :=
  match Prim2SF y with
  | S754_finite sy m e =>
      let p := pow_bits x m e in
      if sy then (1 / p)%float
      else if PrimFloat.ltb x 1%float then Py.min 1%float (Py.max 0%float p)
      else p
  | _ => nan
  end.

End Libm.

Declare Scope py_scope.
Delimit Scope py_scope with py.
Notation "x <- m ;; k" := (bind m (fun x => k))
  (at level 61, m at next level, right associativity) : py_scope.
Notation "' pat <- m ;; k" := (bind m (fun x => match x with pat => k end))
  (at level 61, pat pattern, m at next level, right associativity) : py_scope.

Local Open Scope py_scope.
Local Open Scope float_scope.

(** ** The program *)

Section GenPalette.

Variable libm_pow : float -> float -> float.

Local Notation "x ** y" := (float_pow libm_pow x y) (at level 30, right associativity).

(** A colour is a tuple [(r, g, b)] of floats, a stop a tuple
    [(pos, (r, g, b))], a palette entry a tuple of three integers. *)
Definition color : Type := float * float * float.
Definition stop : Type := float * color.
Definition entry : Type := Z * Z * Z.

Definition lerp (a b t : float) : float := a + (b - a) * t.

Definition srgb_to_linear (c : float) : result float :=
  if c <=? 0.04045 then Ok (c / 12.92)
  else ((c + 0.055) / 1.055) ** 2.4.

Definition linear_to_srgb (c : float) : result float :=
  let c := max 0.0 (min 1.0 c) in
  if c <=? 0.0031308 then Ok (12.92 * c)
  else p <- c ** (1.0 / 2.4) ;; Ok (1.055 * p - 0.055).

Definition apply_gamma (rgb : color) (gamma : value) : result color :=
  let '(r, g, b) := rgb in
  if eq_str gamma "srgb" then Ok (r, g, b)
  else
    gpow <- float_of gamma ;;
    r' <- (e <- float_truediv 1.0 gpow ;; r ** e) ;;
    g' <- (e <- float_truediv 1.0 gpow ;; g ** e) ;;
    b' <- (e <- float_truediv 1.0 gpow ;; b ** e) ;;
    Ok (r', g', b').

Definition to_dac (v : float) : result Z :=
  n <- round (v * 63.0) ;; Ok (Z.max 0 (Z.min 63 n)).

(** [tuple(f(x) for x in c)] *)
Definition tuple_map (f : float -> result float) (c : color) : result color :=
  let '(r, g, b) := c in
  r' <- f r ;; g' <- f g ;; b' <- f b ;; Ok (r', g', b').

(** The body of the [if p0 <= t <= p1:] branch, after [u] is computed. *)
Definition blend (c0 c1 : color) (u : float) (gamma_mode : value) : result color :=
  if eq_str gamma_mode "srgb" then
    c0_lin <- tuple_map srgb_to_linear c0 ;;
    c1_lin <- tuple_map srgb_to_linear c1 ;;
    let '(r0, g0, b0) := c0_lin in
    let '(r1, g1, b1) := c1_lin in
    let cl := (lerp r0 r1 u, lerp g0 g1 u, lerp b0 b1 u) in
    tuple_map linear_to_srgb cl
  else
    let '(r0, g0, b0) := c0 in
    let '(r1, g1, b1) := c1 in
    Ok (lerp r0 r1 u, lerp g0 g1 u, lerp b0 b1 u).

(** The [for i in range(len(stops) - 1)] loop with its [break]: the colour
    assigned to [c] by the first adjacent pair with [p0 <= t <= p1], or
    [None] when the loop ends with [c] unassigned. *)
Fixpoint scan (stops : list stop) (t : float) (gamma_mode : value)
  : result (option color) :=
  match stops with
  | (p0, c0) :: (((p1, c1) :: _) as rest) =>
      if (p0 <=? t) && (t <=? p1) then
        u <- float_truediv (t - p0) (p1 - p0) ;;
        c <- blend c0 c1 u gamma_mode ;;
        Ok (Some c)
      else scan rest t gamma_mode
  | _ => Ok None
  end.

Definition interpolate_stops (stops : list stop) (t : float) (gamma_mode : value)
  : result color :=
  match stops with
  | [] => Raise IndexError
  | first :: _ =>
      let final := last stops first in
      c <- (if t <=? fst first then Ok (Some (snd first))
            else if fst final <=? t then Ok (Some (snd final))
            else scan stops t gamma_mode) ;;
      match c with
      | None => Raise UnboundLocalError
      | Some c =>
          if negb (eq_str gamma_mode "srgb") then apply_gamma c gamma_mode
          else Ok c
      end
  end.

(** Key DOOM-like stops (positions normalized 0..1), sRGB 0..1 *)
Definition stops : list stop :=
  [ (0.00, (0.00, 0.00, 0.00));   (* black *)
    (0.15, (0.20, 0.00, 0.00));   (* deep red *)
    (0.35, (0.80, 0.00, 0.00));   (* red *)
    (0.55, (1.00, 0.35, 0.00));   (* orange *)
    (0.75, (1.00, 0.75, 0.10));   (* yellowish *)
    (1.00, (1.00, 1.00, 1.00)) ]. (* white-hot *)

(** One iteration of the loop of [build_fire_palette]. *)
Definition sample (size : Z) (gamma_mode : value) (i : Z) : result entry :=
  t <- (if (1 <? size)%Z then int_truediv i (size - 1) else Ok 0.0) ;;
  ' (r, g, b) <- interpolate_stops stops t gamma_mode ;;
  r' <- to_dac r ;; g' <- to_dac g ;; b' <- to_dac b ;;
  Ok (r', g', b').

Definition build_fire_palette (size : Z) (gamma_mode : value) : result (list entry) :=
  mapM (sample size gamma_mode) (range size).

End GenPalette.

(** ** The writers and the command line *)

Local Open Scope string_scope.

Definition nl : string := String (ascii_of_nat 10) EmptyString.

(** [print(s, file=fp)] adds a line to the text written so far. *)
Definition print (s : string) : string := s ++ nl.

Fixpoint enumerate {A : Type} (i : Z) (l : list A) : list (Z * A) :=
  match l with
  | [] => []
  | a :: l' => (i, a) :: enumerate (i + 1) l'
  end.

Definition write_fasm (pal : list entry) (label : string) : string :=
  print (label ++ ":")
  ++ String.concat ""
       (map (fun '(i, (r, g, b)) =>
               print ("  ; index " ++ format_02d i)
               ++ print ("  db " ++ str r ++ "," ++ str g ++ "," ++ str b))
            (enumerate 0 pal)).

Definition hex_line (e : entry) : string :=
  let '(r, g, b) := e in
  "0x" ++ format_02X r ++ " 0x" ++ format_02X g ++ " 0x" ++ format_02X b.

Definition write_hex (pal : list entry) : string :=
  String.concat "" (map (fun e => print (hex_line e)) pal).

(** An item of [bytearray.extend]: an integer in [range(256)]. *)
Definition byte_of_int (n : Z) : result byte :=
  if (0 <=? n)%Z && (n <? 256)%Z then
    match Byte.of_N (Z.to_N n) with
    | Some b => Ok b
    | None => Raise ValueError
    end
  else Raise ValueError.

(** [b.extend([r, g, bch])] for one entry *)
Definition entry_bytes (e : entry) : result (list byte) :=
  let '(r, g, bch) := e in mapM byte_of_int [r; g; bch].

Definition write_raw (pal : list entry) : result (list byte) :=
  chunks <- mapM entry_bytes pal ;;
  Ok (List.concat chunks).

(** What [parse_args] returns: the five options, [size] converted by
    [int]. *)
Record namespace : Type := {
  ns_size : Z;
  ns_gamma : string;
  ns_format : string;
  ns_label : string;
  ns_outfile : string
}.

Definition defaults : namespace :=
  {| ns_size := 37; ns_gamma := "srgb"; ns_format := "fasm";
     ns_label := "FirePalette"; ns_outfile := "" |}.

(** The command lines the model covers: a sequence of pairs [--name value]
    where [--name] is one of the five options, written in full, and [value]
    is a string of ASCII characters (none of them NUL, which no argument
    of a command line holds) that does not start with ["-"].  On such
    a command line [argparse] takes each [--name] as that option and the
    string after it as its one argument.  Every other command line is left
    out, and [pairs_of] is [None] on it: an abbreviated option, the form
    [--name=value], a value that starts with ["-"], [-h] and [--help], an
    unknown or a missing argument, a character beyond ASCII. *)
Definition option_names : list string :=
  ["--size"; "--gamma"; "--format"; "--label"; "--outfile"].

Definition is_ascii (c : ascii) : bool :=
  let n := nat_of_ascii c in ((0 <? n) && (n <? 128))%nat.

Definition plain_value (s : string) : bool :=
  forallb is_ascii (list_ascii_of_string s) && negb (String.prefix "-" s).

Fixpoint pairs_of (argv : list string) : option (list (string * string)) :=
  match argv with
  | [] => Some []
  | name :: value :: rest =>
      if existsb (String.eqb name) option_names && plain_value value then
        match pairs_of rest with
        | Some ps => Some ((name, value) :: ps)
        | None => None
        end
      else None
  | _ => None
  end.

(** The [choices] of [--format] *)
Definition formats : list string := ["fasm"; "hex"; "raw"].

(** One option and its argument, as [parse_args] takes them: [--size] goes
    through [int] and [--format] through its [choices], the others are
    stored as they are.  [None] is [argparse]'s error: usage and a message
    on the standard error, exit status 2. *)
Definition store (ns : namespace) (name value : string) : option namespace :=
  if String.eqb name "--size" then
    match int_of_string value with
    | Ok n =>
        Some {| ns_size := n; ns_gamma := ns_gamma ns; ns_format := ns_format ns;
                ns_label := ns_label ns; ns_outfile := ns_outfile ns |}
    | Raise _ => None
    end
  else if String.eqb name "--gamma" then
    Some {| ns_size := ns_size ns; ns_gamma := value; ns_format := ns_format ns;
            ns_label := ns_label ns; ns_outfile := ns_outfile ns |}
  else if String.eqb name "--format" then
    if existsb (String.eqb value) formats then
      Some {| ns_size := ns_size ns; ns_gamma := ns_gamma ns; ns_format := value;
              ns_label := ns_label ns; ns_outfile := ns_outfile ns |}
    else None
  else if String.eqb name "--label" then
    Some {| ns_size := ns_size ns; ns_gamma := ns_gamma ns; ns_format := ns_format ns;
            ns_label := value; ns_outfile := ns_outfile ns |}
  else
    Some {| ns_size := ns_size ns; ns_gamma := ns_gamma ns; ns_format := ns_format ns;
            ns_label := ns_label ns; ns_outfile := value |}.

(** The options in the order of the command line: a later one replaces an
    earlier one, and the first error ends the run. *)
Fixpoint parse_pairs (ps : list (string * string)) (ns : namespace)
  : option namespace :=
  match ps with
  | [] => Some ns
  | (name, value) :: rest =>
      match store ns name value with
      | Some ns' => parse_pairs rest ns'
      | None => None
      end
  end.

Inductive content : Type :=
| Text (s : string)
| Bytes (b : list byte).

(** How a run ends: [argparse] refuses the command line (usage and an error
    message on the standard error, exit status 2); an exception reaches the
    top level (a traceback, exit status 1); or the output is written, to the
    standard output ([None]) or to a file, and the status is 0.  The file
    system is not part of the model: a destination that cannot be created
    or written is not told apart from one that can. *)
Inductive outcome : Type :=
| Usage
| Traceback (e : exn)
| Written (dest : option string) (c : content).

Definition exit_status (o : outcome) : Z :=
  match o with
  | Usage => 2
  | Traceback _ => 1
  | Written _ _ => 0
  end.

Section Main.

Variable libm_pow : float -> float -> float.

(** [main] after [parse_args]: the builder, then the writer of the format,
    for a namespace of ASCII strings (the text written is then encodable
    whatever the encoding of the destination is). *)
Definition run (a : namespace) : outcome :=
  match build_fire_palette libm_pow (ns_size a) (Str (ns_gamma a)) with
  | Raise e => Traceback e
  | Ok pal =>
      let dest :=
        if String.eqb (ns_outfile a) "" then None else Some (ns_outfile a) in
      if String.eqb (ns_format a) "fasm"
      then Written dest (Text (write_fasm pal (ns_label a)))
      else if String.eqb (ns_format a) "hex"
      then Written dest (Text (write_hex pal))
      else
        match write_raw pal with
        | Ok b => Written dest (Bytes b)
        | Raise e => Traceback e
        end
  end.

(** [main] on the arguments of the command line, [sys.argv[1:]]; [None] on
    a command line that the model does not cover. *)
Definition main (argv : list string) : option outcome :=
  match pairs_of argv with
  | None => None
  | Some ps =>
      Some match parse_pairs ps defaults with
           | None => Usage
           | Some a => run a
           end
  end.

End Main.

Local Close Scope string_scope.

(** ** Definitions the statements use *)

(** Reading raw output back: consecutive triplets of bytes. *)
Fixpoint read_triplets (bs : list byte) : list entry :=
  match bs with
  | r :: g :: b :: rest =>
      (Z.of_N (Byte.to_N r), Z.of_N (Byte.to_N g), Z.of_N (Byte.to_N b))
        :: read_triplets rest
  | _ => []
  end.

(** The flat sequence R0,G0,B0,R1,G1,B1,... of a palette. *)
Definition flat (pal : list entry) : list Z :=
  flat_map (fun '(r, g, b) => [r; g; b]) pal.

(** A channel value of the DAC, and an entry made of three of them. *)
Definition dac (n : Z) : Prop := (0 <= n <= 63)%Z.
Definition dac_entry (e : entry) : Prop :=
  let '(r, g, b) := e in dac r /\ dac g /\ dac b.


(** [quantize c]: the three [to_dac] calls of the builder's loop. *)
Definition quantize (c : color) : result entry :=
  let '(r, g, b) := c in
  (r' <- to_dac r ;; g' <- to_dac g ;; b' <- to_dac b ;; Ok (r', g', b'))%py.

(** The 37 entries of the default palette under the reference [pow]. *)
Definition reference_palette_37 : list entry :=
  Eval vm_compute in
    match build_fire_palette Libm.pow 37 (Str "srgb") with
    | Ok pal => pal
    | Raise _ => []
    end.

(** ** Properties *)

(** *** Quantization and the shape of a palette *)

Lemma bind_Ok {A B : Type} (m : result A) (k : A -> result B) (b : B) :
  bind m k = Ok b -> exists a, m = Ok a /\ k a = Ok b.
Proof.
  destruct m as [a | e]; simpl; intros H; [exists a; auto | discriminate].
Qed.

Lemma mapM_Ok {A B : Type} (f : A -> result B) (l : list A) (bs : list B) :
  mapM f l = Ok bs -> Forall2 (fun a b => f a = Ok b) l bs.
Proof.
  revert bs; induction l as [| a l IH]; simpl; intros bs H.
  - injection H as <-. constructor.
  - apply bind_Ok in H as (b & Hb & H).
    apply bind_Ok in H as (bs' & Hbs & H).
    injection H as <-. constructor; auto.
Qed.

Lemma mapM_total {A B : Type} (f : A -> result B) (g : A -> B) (l : list A) :
  (forall a, In a l -> f a = Ok (g a)) -> mapM f l = Ok (map g l).
Proof.
  induction l as [| a l IH]; simpl; intros H; [reflexivity |].
  rewrite (H a (or_introl eq_refl)); simpl.
  rewrite IH by auto. reflexivity.
Qed.

Lemma range_length (n : Z) : List.length (range n) = Z.to_nat n.
Proof. unfold range. now rewrite length_map, length_seq. Qed.

Lemma range_nonpos (n : Z) : (n <= 0)%Z -> range n = [].
Proof.
  intros H. unfold range. replace (Z.to_nat n) with O by lia. reflexivity.
Qed.

Lemma to_dac_range (v : float) (n : Z) : to_dac v = Ok n -> dac n.
Proof.
  unfold to_dac. intros H. apply bind_Ok in H as (k & _ & H).
  injection H as <-. unfold dac. lia.
Qed.

Lemma quantize_range (c : color) (e : entry) : quantize c = Ok e -> dac_entry e.
Proof.
  destruct c as [[r g] b]. unfold quantize. intros H.
  apply bind_Ok in H as (r' & Hr & H).
  apply bind_Ok in H as (g' & Hg & H).
  apply bind_Ok in H as (b' & Hb & H).
  injection H as <-. simpl. repeat split; eapply to_dac_range; eassumption.
Qed.

Section Shape.

Variable libm_pow : float -> float -> float.

Lemma sample_quantize (size : Z) (gamma_mode : value) (i : Z) :
  sample libm_pow size gamma_mode i
  = (t <- (if (1 <? size)%Z then int_truediv i (size - 1) else Ok 0%float) ;;
     c <- interpolate_stops libm_pow stops t gamma_mode ;;
     quantize c)%py.
Proof.
  unfold sample. destruct (if (1 <? size)%Z then _ else _) as [t | e];
    [| reflexivity].
  cbn [bind].
  destruct (interpolate_stops libm_pow stops t gamma_mode) as [[[r g] b] | e];
    reflexivity.
Qed.

Lemma sample_range (size : Z) (gamma_mode : value) (i : Z) (e : entry) :
  sample libm_pow size gamma_mode i = Ok e -> dac_entry e.
Proof.
  rewrite sample_quantize. intros H.
  apply bind_Ok in H as (t & _ & H).
  apply bind_Ok in H as (c & _ & H).
  eauto using quantize_range.
Qed.

(** Whatever palette the builder returns has [size] entries (none for a
    negative [size]), all within the DAC range. *)
Lemma build_shape (size : Z) (gamma_mode : value) (pal : list entry) :
  build_fire_palette libm_pow size gamma_mode = Ok pal ->
  List.length pal = Z.to_nat size /\ Forall dac_entry pal.
Proof.
  unfold build_fire_palette. intros H. apply mapM_Ok in H. split.
  - rewrite <- (Forall2_length H). apply range_length.
  - induction H; constructor; eauto using sample_range.
Qed.

End Shape.

(** What the builder needs of the platform's [pow]: a power of a base in
    (0, 1) with a positive finite exponent lies in [0, 1], as the exact power
    does. *)
Definition pow_in_unit (pow : float -> float -> float) : Prop :=
  forall x y : float,
    (0 <? x)%float = true -> (x <? 1)%float = true ->
    (0 <? y)%float = true -> (y <? infinity)%float = true ->
    (0 <=? pow x y)%float = true /\ (pow x y <=? 1)%float = true.

(** *** The concrete scenarios and the writers *)

(** C8: [build(2, "srgb")] is [[(0,0,0), (63,63,63)]]: the two samples are
    taken at [t = 0] and [t = 1], which are the first and the last stop
    position, so the colours quantized are the two endpoint colours
    themselves, black and white. *)
Theorem C8_build_2_srgb (libm_pow : float -> float -> float) :
  build_fire_palette libm_pow 2 (Str "srgb") = Ok [(0, 0, 0); (63, 63, 63)]%Z
  /\ int_truediv 0 (2 - 1) = Ok 0%float
  /\ int_truediv 1 (2 - 1) = Ok 1%float
  /\ interpolate_stops libm_pow stops 0 (Str "srgb") = Ok (0, 0, 0)%float
  /\ interpolate_stops libm_pow stops 1 (Str "srgb") = Ok (1, 1, 1)%float
  /\ quantize (0, 0, 0)%float = Ok (0, 0, 0)%Z
  /\ quantize (1, 1, 1)%float = Ok (63, 63, 63)%Z.
Proof. repeat split; vm_compute; reflexivity. Qed.

Lemma build_nonpositive
  (libm_pow : float -> float -> float) (size : Z) (gamma_mode : value) :
  (size <= 0)%Z -> build_fire_palette libm_pow size gamma_mode = Ok [].
Proof.
  intros H. unfold build_fire_palette. rewrite (range_nonpos size H). reflexivity.
Qed.

(** C10: for a size of 0 or below the loop body never runs: the builder
    returns the empty palette and raises nothing, whatever the gamma mode
    holds. *)
Theorem C10_nonpositive_size_empty
  (libm_pow : float -> float -> float) (size : Z) (gamma_mode : value) :
  (size <= 0)%Z -> build_fire_palette libm_pow size gamma_mode = Ok [].
Proof. apply build_nonpositive. Qed.

Lemma C10_nonpositive_size_empty_witness :
  (-3 <= 0)%Z /\ build_fire_palette Libm.pow (-3) (Str "not a gamma") = Ok [].
Proof.
  split; [lia | apply (C10_nonpositive_size_empty Libm.pow (-3)); lia].
Defined.




Lemma byte_of_int_dac (n : Z) :
  dac n -> exists b, byte_of_int n = Ok b /\ Z.of_N (Byte.to_N b) = n.
Proof.
  intros [H0 H63].
  assert (H : forallb (fun k => match byte_of_int k with
                                | Ok b => (Z.of_N (Byte.to_N b) =? k)%Z
                                | Raise _ => false
                                end) (range 64) = true)
    by (vm_compute; reflexivity).
  rewrite forallb_forall in H.
  specialize (H n). destruct (byte_of_int n) as [b | e].
  - exists b. split; [reflexivity |]. apply Z.eqb_eq, H.
    unfold range. apply in_map_iff.
    exists (Z.to_nat n). split; [lia | apply in_seq; lia].
  - discriminate H. unfold range. apply in_map_iff.
    exists (Z.to_nat n). split; [lia | apply in_seq; lia].
Qed.

Lemma write_raw_cons (r g b : Z) (pal : list entry) :
  write_raw ((r, g, b) :: pal)
  = (br <- byte_of_int r ;; bg <- byte_of_int g ;; bb <- byte_of_int b ;;
     bs <- write_raw pal ;; Ok (br :: bg :: bb :: bs))%py.
Proof.
  unfold write_raw.
  change (mapM entry_bytes ((r, g, b) :: pal))
    with (c <- entry_bytes (r, g, b) ;; cs <- mapM entry_bytes pal ;; Ok (c :: cs))%py.
  destruct (mapM entry_bytes pal) as [cs | e]; unfold entry_bytes; cbn [mapM];
    destruct (byte_of_int r), (byte_of_int g), (byte_of_int b); reflexivity.
Qed.

Lemma write_raw_dac (pal : list entry) :
  Forall dac_entry pal ->
  exists bs, write_raw pal = Ok bs
             /\ map (fun b => Z.of_N (Byte.to_N b)) bs = flat pal
             /\ List.length bs = (3 * List.length pal)%nat
             /\ read_triplets bs = pal.
Proof.
  induction 1 as [| [[r g] b] pal (Hr & Hg & Hb) Hpal IH].
  - exists []. repeat split.
  - destruct IH as (bs & Hbs & Hflat & Hlen & Hread).
    destruct (byte_of_int_dac r Hr) as (br & Ebr & Vr).
    destruct (byte_of_int_dac g Hg) as (bg & Ebg & Vg).
    destruct (byte_of_int_dac b Hb) as (bb & Ebb & Vb).
    exists (br :: bg :: bb :: bs).
    rewrite write_raw_cons, Ebr, Ebg, Ebb, Hbs.
    cbn [bind map read_triplets List.length].
    rewrite Vr, Vg, Vb, Hflat, Hlen, Hread.
    repeat split. lia.
Qed.

(** C6: the raw writer turns any palette the builder returns (so that of
    [build(37, "srgb")]) into the flat byte sequence R0,G0,B0,R1,G1,B1,...,
    three bytes per entry and nothing else, and reading the bytes back three
    at a time gives the palette again. *)
Theorem C6_raw_round_trip
  (libm_pow : float -> float -> float) (size : Z) (gamma_mode : value)
  (pal : list entry) :
  build_fire_palette libm_pow size gamma_mode = Ok pal ->
  exists bs : list byte,
    write_raw pal = Ok bs
    /\ map (fun b => Z.of_N (Byte.to_N b)) bs = flat pal
    /\ List.length bs = (3 * Z.to_nat size)%nat
    /\ read_triplets bs = pal.
Proof.
  intros H. apply build_shape in H as (Hlen & Hdac).
  destruct (write_raw_dac pal Hdac) as (bs & H1 & H2 & H3 & H4).
  exists bs. rewrite <- Hlen. auto.
Qed.

Lemma C6_raw_round_trip_witness :
  build_fire_palette Libm.pow 37 (Str "srgb") = Ok reference_palette_37
  /\ exists bs : list byte,
       write_raw reference_palette_37 = Ok bs
       /\ List.length bs = 111%nat
       /\ read_triplets bs = reference_palette_37.
Proof.
  assert (H : build_fire_palette Libm.pow 37 (Str "srgb") = Ok reference_palette_37)
    by (vm_compute; reflexivity).
  split; [exact H |].
  destruct (C6_raw_round_trip Libm.pow 37 (Str "srgb") _ H) as (bs & H1 & _ & H3 & H4).
  exists bs. split; [exact H1 |]. split; [exact H3 | exact H4].
Defined.

(** *** The order of the floats *)

Lemma SFcompare_antisym (x y : spec_float) :
  SFcompare y x = option_map CompOpp (SFcompare x y).
Proof.
  destruct x as [sx | sx | | sx mx ex], y as [sy | sy | | sy my ey];
    try reflexivity;
    try (destruct sx; reflexivity);
    try (destruct sy; reflexivity);
    try (destruct sx, sy; reflexivity).
  cbn [SFcompare option_map].
  rewrite (Z.compare_antisym ex ey).
  assert (Hm : Pos.compare_cont Eq my mx = CompOpp (Pos.compare_cont Eq mx my))
    by (rewrite Pos.compare_cont_antisym; reflexivity).
  rewrite Hm.
  destruct sx, sy; cbn [CompOpp]; try reflexivity;
    destruct (ex ?= ey)%Z; cbn [CompOpp]; reflexivity.
Qed.

Lemma ltb_leb (x y : float) : (x <? y)%float = true -> (x <=? y)%float = true.
Proof.
  rewrite ltb_spec, leb_spec. unfold SFltb, SFleb.
  destruct (SFcompare _ _) as [[| |] |]; congruence.
Qed.

Lemma eqb_leb (x y : float) : (x =? y)%float = true -> (x <=? y)%float = true.
Proof.
  rewrite eqb_spec, leb_spec. unfold SFeqb, SFleb.
  destruct (SFcompare _ _) as [[| |] |]; congruence.
Qed.

(** Two floats that compare at all compare one way or the other. *)
Lemma leb_total (x y : float) :
  SFcompare (Prim2SF x) (Prim2SF y) <> None ->
  (x <=? y)%float = true \/ (y <=? x)%float = true.
Proof.
  rewrite !leb_spec. unfold SFleb.
  rewrite (SFcompare_antisym (Prim2SF y) (Prim2SF x)).
  destruct (SFcompare (Prim2SF y) (Prim2SF x)) as [[| |] |]; cbn; auto;
    congruence.
Qed.

Lemma leb_false_ltb (x y : float) :
  SFcompare (Prim2SF x) (Prim2SF y) <> None ->
  (x <=? y)%float = false -> (y <? x)%float = true.
Proof.
  rewrite leb_spec, ltb_spec. unfold SFleb, SFltb.
  rewrite (SFcompare_antisym (Prim2SF x) (Prim2SF y)).
  destruct (SFcompare (Prim2SF x) (Prim2SF y)) as [[| |] |]; cbn; congruence.
Qed.

Definition not_nan (x : float) : Prop := Prim2SF x <> S754_nan.

Lemma SFcompare_None (x y : spec_float) :
  SFcompare x y = None -> x = S754_nan \/ y = S754_nan.
Proof.
  destruct x as [sx | sx | | sx mx ex], y as [sy | sy | | sy my ey];
    cbn; auto; try discriminate; destruct sx; discriminate.
Qed.

Lemma comparable (x y : float) :
  not_nan x -> not_nan y -> SFcompare (Prim2SF x) (Prim2SF y) <> None.
Proof. intros Hx Hy H. apply SFcompare_None in H as [H | H]; auto. Qed.

Lemma ltb_not_nan_l (x y : float) : (x <? y)%float = true -> not_nan x.
Proof.
  rewrite ltb_spec. unfold SFltb, not_nan. intros H E. rewrite E in H. discriminate.
Qed.

Lemma ltb_not_nan_r (x y : float) : (x <? y)%float = true -> not_nan y.
Proof.
  rewrite ltb_spec. unfold SFltb, not_nan. intros H E. rewrite E in H.
  destruct (Prim2SF x); discriminate.
Qed.

Lemma leb_not_nan_l (x y : float) : (x <=? y)%float = true -> not_nan x.
Proof.
  rewrite leb_spec. unfold SFleb, not_nan. intros H E. rewrite E in H. discriminate.
Qed.

Lemma leb_not_nan_r (x y : float) : (x <=? y)%float = true -> not_nan y.
Proof.
  rewrite leb_spec. unfold SFleb, not_nan. intros H E. rewrite E in H.
  destruct (Prim2SF x); discriminate.
Qed.

Lemma ltb_0_eqb (g : float) : (0 <? g)%float = true -> (g =? 0)%float = false.
Proof.
  rewrite ltb_spec, eqb_spec. unfold SFltb, SFeqb.
  rewrite (SFcompare_antisym (Prim2SF 0) (Prim2SF g)).
  destruct (SFcompare (Prim2SF 0) (Prim2SF g)) as [[| |] |]; cbn; congruence.
Qed.

Lemma ltb_leb_false (x y : float) : (x <? y)%float = true -> (y <=? x)%float = false.
Proof.
  rewrite ltb_spec, leb_spec. unfold SFltb, SFleb.
  rewrite (SFcompare_antisym (Prim2SF x) (Prim2SF y)).
  destruct (SFcompare (Prim2SF x) (Prim2SF y)) as [[| |] |]; cbn; congruence.
Qed.

(** *** The boundary rule of [interpolate_stops] *)

(** The power adjustment of the numeric mode: [c ** (1 / g)] on each channel. *)
Definition power_adjust (pow : float -> float -> float) (c : color) (g : float)
  : result color :=
  tuple_map (fun x => float_pow pow x (1 / g)%float) c.

Lemma apply_gamma_srgb (pow : float -> float -> float) (c : color) :
  apply_gamma pow c (Str "srgb") = Ok c.
Proof. destruct c as [[r g] b]. reflexivity. Qed.

Lemma apply_gamma_numeric
  (pow : float -> float -> float) (c : color) (gamma_mode : value) (g : float) :
  eq_str gamma_mode "srgb" = false ->
  float_of gamma_mode = Ok g ->
  (0 <? g)%float = true ->
  apply_gamma pow c gamma_mode = power_adjust pow c g.
Proof.
  intros Hmode Hg Hpos. destruct c as [[r gr] b].
  unfold apply_gamma, power_adjust, tuple_map, float_truediv.
  rewrite Hmode, Hg. cbn [bind]. rewrite (ltb_0_eqb g Hpos). reflexivity.
Qed.

(** C3: a parameter at or below the first stop position, or at or above the
    last one, gets the colour of that stop.  In the symbolic sRGB mode the
    colour is returned as it is; in a numeric mode [g > 0], given as a float
    or as a string that [float] reads, each channel [c] of it still becomes
    [c ** (1 / g)]. *)
Theorem C3_boundary_asymmetry
  (libm_pow : float -> float -> float) (first : stop) (rest : list stop)
  (t g : float) (gamma_mode : value) :
  (t <=? fst first)%float = true
  \/ (fst (last (first :: rest) first) <=? t)%float = true ->
  eq_str gamma_mode "srgb" = false ->
  float_of gamma_mode = Ok g ->
  (0 <? g)%float = true ->
  let c := if (t <=? fst first)%float then snd first
           else snd (last (first :: rest) first) in
  interpolate_stops libm_pow (first :: rest) t (Str "srgb") = Ok c
  /\ interpolate_stops libm_pow (first :: rest) t gamma_mode
     = power_adjust libm_pow c g.
Proof.
  intros Ht Hmode Hg Hpos c. subst c. unfold interpolate_stops.
  destruct (t <=? fst first)%float eqn:E1.
  - cbn [bind]. rewrite Hmode. cbn [negb eq_str String.eqb Ascii.eqb Bool.eqb].
    split; [reflexivity |]. now apply apply_gamma_numeric.
  - destruct Ht as [Ht | Ht]; [discriminate |]. rewrite Ht.
    cbn [bind]. rewrite Hmode. cbn [negb eq_str String.eqb Ascii.eqb Bool.eqb].
    split; [reflexivity |]. now apply apply_gamma_numeric.
Qed.

Lemma C3_boundary_asymmetry_witness :
  interpolate_stops Libm.pow stops 1.5 (Str "srgb") = Ok (1, 1, 1)%float
  /\ interpolate_stops Libm.pow stops 1.5 (Str "2.2")
     = power_adjust Libm.pow (1, 1, 1)%float 2.2
  /\ interpolate_stops Libm.pow stops 0 (Str "srgb") = Ok (0, 0, 0)%float
  /\ interpolate_stops Libm.pow stops 0 (Float 2.2)
     = power_adjust Libm.pow (0, 0, 0)%float 2.2.
Proof.
  pose proof (C3_boundary_asymmetry Libm.pow
                (0, (0, 0, 0))%float (tl stops) 1.5 2.2 (Str "2.2")
                (or_intror eq_refl) eq_refl eq_refl eq_refl) as [H1 H2].
  pose proof (C3_boundary_asymmetry Libm.pow
                (0, (0, 0, 0))%float (tl stops) 0 2.2 (Float 2.2)
                (or_introl eq_refl) eq_refl eq_refl eq_refl) as [H3 H4].
  split; [exact H1 |]. split; [exact H2 |]. split; [exact H3 | exact H4].
Defined.

(** *** The scan always finds a segment *)

(** [c] is never used unassigned. *)
Definition never_unbound {A : Type} (m : result A) : Prop :=
  m <> Raise UnboundLocalError.

Lemma never_unbound_bind {A B : Type} (m : result A) (k : A -> result B) :
  never_unbound m -> (forall a, never_unbound (k a)) -> never_unbound (bind m k).
Proof.
  unfold never_unbound. destruct m as [a | e]; cbn; intros Hm Hk; auto.
  intros E. apply Hm. now injection E as ->.
Qed.

Lemma never_unbound_raise {A B : Type} (e : exn) :
  never_unbound (@Raise A e) -> never_unbound (@Raise B e).
Proof. unfold never_unbound. intros H E. apply H. now injection E as ->. Qed.

Ltac split_leaves :=
  repeat match goal with
         | |- context [if ?b then _ else _] => destruct b
         | |- context [match ?x with _ => _ end] => destruct x
         end.

Lemma never_unbound_float_pow (pow : float -> float -> float) (x y : float) :
  never_unbound (float_pow pow x y).
Proof. unfold never_unbound, float_pow. split_leaves; discriminate. Qed.

Lemma never_unbound_float_truediv (x y : float) :
  never_unbound (float_truediv x y).
Proof. unfold never_unbound, float_truediv. split_leaves; discriminate. Qed.

Lemma never_unbound_float_of (v : value) : never_unbound (float_of v).
Proof.
  unfold never_unbound. destruct v as [s | x]; [| discriminate].
  unfold float_of, float_of_string. split_leaves; discriminate.
Qed.

Lemma never_unbound_tuple_map (f : float -> result float) (c : color) :
  (forall x, never_unbound (f x)) -> never_unbound (tuple_map f c).
Proof.
  intros Hf. destruct c as [[r g] b]. unfold tuple_map.
  repeat (apply never_unbound_bind; [apply Hf | intros ?]). discriminate.
Qed.

Section Scan.

Variable libm_pow : float -> float -> float.

Lemma never_unbound_srgb_to_linear (c : float) :
  never_unbound (srgb_to_linear libm_pow c).
Proof.
  unfold srgb_to_linear. destruct (c <=? 0.04045)%float; [discriminate |].
  apply never_unbound_float_pow.
Qed.

Lemma never_unbound_linear_to_srgb (c : float) :
  never_unbound (linear_to_srgb libm_pow c).
Proof.
  unfold linear_to_srgb.
  destruct (_ <=? 0.0031308)%float; [discriminate |].
  apply never_unbound_bind; [apply never_unbound_float_pow | discriminate].
Qed.

Lemma never_unbound_blend (c0 c1 : color) (u : float) (gamma_mode : value) :
  never_unbound (blend libm_pow c0 c1 u gamma_mode).
Proof.
  unfold blend. destruct (eq_str gamma_mode "srgb").
  - apply never_unbound_bind;
      [apply never_unbound_tuple_map, never_unbound_srgb_to_linear |].
    intros [[r0 g0] b0]. apply never_unbound_bind;
      [apply never_unbound_tuple_map, never_unbound_srgb_to_linear |].
    intros [[r1 g1] b1].
    apply never_unbound_tuple_map, never_unbound_linear_to_srgb.
  - destruct c0 as [[r0 g0] b0], c1 as [[r1 g1] b1]. discriminate.
Qed.

Lemma never_unbound_apply_gamma (c : color) (gamma : value) :
  never_unbound (apply_gamma libm_pow c gamma).
Proof.
  destruct c as [[r g] b]. unfold apply_gamma.
  destruct (eq_str gamma "srgb"); [discriminate |].
  apply never_unbound_bind; [apply never_unbound_float_of | intros gpow].
  repeat (apply never_unbound_bind;
          [apply never_unbound_bind;
           [apply never_unbound_float_truediv
           | intros ?; apply never_unbound_float_pow]
          | intros ?]).
  discriminate.
Qed.

(** The body of a matching segment assigns [c] or raises on the way. *)
Lemma segment_assigns (c0 c1 : color) (num den : float) (gamma_mode : value) :
  (u <- float_truediv num den ;;
   c <- blend libm_pow c0 c1 u gamma_mode ;; Ok (Some c))%py <> Ok None.
Proof.
  destruct (float_truediv num den) as [u | e]; cbn [bind]; [| discriminate].
  destruct (blend libm_pow c0 c1 u gamma_mode); cbn [bind]; discriminate.
Qed.

Lemma never_unbound_segment (c0 c1 : color) (num den : float) (gamma_mode : value) :
  never_unbound (u <- float_truediv num den ;;
                 c <- blend libm_pow c0 c1 u gamma_mode ;; Ok (Some c))%py.
Proof.
  apply never_unbound_bind; [apply never_unbound_float_truediv | intros u].
  apply never_unbound_bind; [apply never_unbound_blend | discriminate].
Qed.

Lemma never_unbound_scan (l : list stop) (t : float) (gamma_mode : value) :
  never_unbound (scan libm_pow l t gamma_mode).
Proof.
  induction l as [| [p0 c0] l IH]; [discriminate |].
  destruct l as [| [p1 c1] l]; [discriminate |].
  cbn [scan]. destruct ((p0 <=? t)%float && (t <=? p1)%float); [| exact IH].
  apply never_unbound_segment.
Qed.

(** [interpolate_stops] on the stop list of the builder. *)
Lemma interpolate_stops_fixed (t : float) (gamma_mode : value) :
  interpolate_stops libm_pow stops t gamma_mode
  = (c <- (if (t <=? 0)%float then Ok (Some (0, 0, 0)%float)
           else if (1 <=? t)%float then Ok (Some (1, 1, 1)%float)
           else scan libm_pow stops t gamma_mode) ;;
     match c with
     | None => Raise UnboundLocalError
     | Some c =>
         if negb (eq_str gamma_mode "srgb") then apply_gamma libm_pow c gamma_mode
         else Ok c
     end)%py.
Proof. reflexivity. Qed.

(** The adjacent pairs of stops, the segments of the scan. *)
Definition segments : list (stop * stop) := combine stops (tl stops).

(** For a parameter strictly inside (0, 1) the scan stops at a segment that
    holds it. *)
Lemma scan_finds (t : float) (gamma_mode : value) :
  (0 <? t)%float = true -> (t <? 1)%float = true ->
  exists (pre : list stop) (p0 : float) (c0 : color) (p1 : float) (c1 : color)
         (post : list stop),
    stops = pre ++ (p0, c0) :: (p1, c1) :: post
    /\ In ((p0, c0), (p1, c1)) segments
    /\ (p0 <=? t)%float = true /\ (t <=? p1)%float = true
    /\ scan libm_pow stops t gamma_mode
       = (u <- float_truediv (t - p0) (p1 - p0) ;;
          c <- blend libm_pow c0 c1 u gamma_mode ;; Ok (Some c))%py.
Proof.
  intros H0 H1.
  pose proof (ltb_leb _ _ H0) as L0. pose proof (ltb_leb _ _ H1) as L1.
  pose proof (ltb_not_nan_r _ _ H0) as Ht.
  assert (T : forall p : float, not_nan p ->
                (t <=? p)%float = false -> (p <=? t)%float = true).
  { intros p Hp E. apply ltb_leb, leb_false_ltb; [now apply comparable | exact E]. }
  assert (N15 : not_nan 0.15) by (vm_compute; discriminate).
  assert (N35 : not_nan 0.35) by (vm_compute; discriminate).
  assert (N55 : not_nan 0.55) by (vm_compute; discriminate).
  assert (N75 : not_nan 0.75) by (vm_compute; discriminate).
  unfold segments, stops. cbn [scan tl combine]. rewrite L0. cbn [andb].
  destruct (t <=? 0.15)%float eqn:E1.
  { exists []. do 5 eexists. cbn [app]. repeat split; eauto. left. reflexivity. }
  rewrite (T _ N15 E1). cbn [andb].
  destruct (t <=? 0.35)%float eqn:E2.
  { exists [(0, (0, 0, 0))%float]. do 5 eexists. cbn [app].
    repeat split; eauto. right. left. reflexivity. }
  rewrite (T _ N35 E2). cbn [andb].
  destruct (t <=? 0.55)%float eqn:E3.
  { eexists [_; _]. do 5 eexists. cbn [app]. repeat split; eauto.
    do 2 right. left. reflexivity. }
  rewrite (T _ N55 E3). cbn [andb].
  destruct (t <=? 0.75)%float eqn:E4.
  { eexists [_; _; _]. do 5 eexists. cbn [app]. repeat split; eauto.
    do 3 right. left. reflexivity. }
  rewrite (T _ N75 E4). cbn [andb]. rewrite L1.
  eexists [_; _; _; _]. do 5 eexists. cbn [app]. repeat split; eauto.
  do 4 right. left. reflexivity.
Qed.

(** C9: for a parameter strictly between the first stop position, 0, and the
    last one, 1, the ascending scan over the stop list meets an adjacent pair
    [(p0, p1)] with [p0 <= t <= p1]: the loop does not end with [c]
    unassigned, and [interpolate_stops] never fails on an unbound [c]. *)
Theorem C9_scan_assigns (t : float) (gamma_mode : value) :
  (0 <? t)%float = true -> (t <? 1)%float = true ->
  (exists (pre : list stop) (p0 : float) (c0 : color) (p1 : float) (c1 : color)
          (post : list stop),
      stops = pre ++ (p0, c0) :: (p1, c1) :: post
      /\ (p0 <=? t)%float = true /\ (t <=? p1)%float = true)
  /\ scan libm_pow stops t gamma_mode <> Ok None
  /\ interpolate_stops libm_pow stops t gamma_mode <> Raise UnboundLocalError.
Proof.
  intros H0 H1.
  destruct (scan_finds t gamma_mode H0 H1)
    as (pre & p0 & c0 & p1 & c1 & post & Hs & _ & Hp0 & Hp1 & Hscan).
  split; [exists pre, p0, c0, p1, c1, post; auto |].
  split; [rewrite Hscan; apply segment_assigns |].
  change (never_unbound (interpolate_stops libm_pow stops t gamma_mode)).
  rewrite interpolate_stops_fixed.
  rewrite (ltb_leb_false _ _ H0), (ltb_leb_false _ _ H1), Hscan.
  pose proof (never_unbound_float_truediv (t - p0) (p1 - p0)) as Hu.
  destruct (float_truediv (t - p0) (p1 - p0)) as [u | e]; cbn [bind];
    [| exact (never_unbound_raise e Hu)].
  pose proof (never_unbound_blend c0 c1 u gamma_mode) as Hc.
  destruct (blend libm_pow c0 c1 u gamma_mode) as [c | e]; cbn [bind];
    [| exact (never_unbound_raise e Hc)].
  destruct (negb _); [apply never_unbound_apply_gamma | discriminate].
Qed.

End Scan.

Lemma C9_scan_assigns_witness :
  (0 <? 0.5)%float = true /\ (0.5 <? 1)%float = true
  /\ scan Libm.pow stops 0.5 (Str "srgb") <> Ok None
  /\ interpolate_stops Libm.pow stops 0.5 (Str "srgb") <> Raise UnboundLocalError.
Proof.
  split; [reflexivity |]. split; [reflexivity |].
  exact (proj2 (C9_scan_assigns Libm.pow 0.5 (Str "srgb") eq_refl eq_refl)).
Defined.

(** *** Parameters that are exactly a stop position *)

(** The adjacent pairs of stops that end at an interior stop. *)
Definition segments_to_interior_stops : list (stop * stop) :=
  removelast (combine stops (tl stops)).

(** What [interpolate_stops] does at the position of the stop [cur] that
    ends the segment [(prev, cur)]: the scan stops at this segment with
    [u = 1]; in the (numeric) mode [gamma_mode] the blend is the colour of
    [cur] and the result is [apply_gamma] of it; in the sRGB mode the result
    is the sRGB blend at [u = 1]. *)
Definition exact_stop_rule
  (pow : float -> float -> float) (gamma_mode : value) (seg : stop * stop) : Prop :=
  let '(prev, cur) := seg in
  scan pow stops (fst cur) gamma_mode
  = (c <- blend pow (snd prev) (snd cur) 1 gamma_mode ;; Ok (Some c))%py
  /\ blend pow (snd prev) (snd cur) 1 gamma_mode = Ok (snd cur)
  /\ interpolate_stops pow stops (fst cur) gamma_mode
     = apply_gamma pow (snd cur) gamma_mode
  /\ interpolate_stops pow stops (fst cur) (Str "srgb")
     = blend pow (snd prev) (snd cur) 1 (Str "srgb").

Section ExactStops.

Variable libm_pow : float -> float -> float.

Lemma scan_at_interior_stops (gamma_mode : value) :
  Forall (fun '(prev, cur) =>
            scan libm_pow stops (fst cur) gamma_mode
            = (c <- blend libm_pow (snd prev) (snd cur) 1 gamma_mode ;;
               Ok (Some c))%py)
         segments_to_interior_stops.
Proof.
  unfold segments_to_interior_stops. cbn [stops tl combine removelast].
  repeat (apply Forall_cons; [vm_compute; reflexivity |]). apply Forall_nil.
Qed.

Lemma interpolate_at_segment_end
  (p : float) (c0 c1 : color) (gamma_mode : value) :
  (p <=? 0)%float = false -> (1 <=? p)%float = false ->
  scan libm_pow stops p gamma_mode
  = (c <- blend libm_pow c0 c1 1 gamma_mode ;; Ok (Some c))%py ->
  interpolate_stops libm_pow stops p gamma_mode
  = (c <- blend libm_pow c0 c1 1 gamma_mode ;;
     if negb (eq_str gamma_mode "srgb") then apply_gamma libm_pow c gamma_mode
     else Ok c)%py.
Proof.
  intros H0 H1 Hscan. rewrite interpolate_stops_fixed, H0, H1, Hscan.
  destruct (blend libm_pow c0 c1 1 gamma_mode); reflexivity.
Qed.

(** At the position of an interior stop the scan takes the segment that
    ends at this stop, with the local fraction [u = 1].  In a numeric mode
    the component-wise blend at [u = 1] is the stop colour exactly, and
    [interpolate_stops] returns that colour after the power adjustment of
    [apply_gamma]; in the sRGB mode it returns the blend at [u = 1] of the
    two linearised colours, converted back. *)
Lemma exact_stop_rule_holds (gamma_mode : value) :
  eq_str gamma_mode "srgb" = false ->
  Forall (exact_stop_rule libm_pow gamma_mode) segments_to_interior_stops.
Proof.
  intros Hmode. unfold exact_stop_rule.
  assert (Hblend : forall c0 c1 : color,
             blend libm_pow c0 c1 1 gamma_mode
             = (let '(r0, g0, b0) := c0 in
                let '(r1, g1, b1) := c1 in
                Ok (lerp r0 r1 1, lerp g0 g1 1, lerp b0 b1 1))).
  { intros c0 c1. unfold blend. now rewrite Hmode. }
  pose proof (scan_at_interior_stops gamma_mode) as Hscan.
  pose proof (scan_at_interior_stops (Str "srgb")) as Hsrgb.
  unfold segments_to_interior_stops in *. cbn [stops tl combine removelast] in *.
  repeat match goal with
         | H : Forall _ (_ :: _) |- _ => inversion_clear H
         | H : Forall _ [] |- _ => clear H
         end.
  repeat (apply Forall_cons; [| try apply Forall_nil]).
  all: (split; [assumption |]).
  all: (split; [rewrite Hblend; vm_compute; reflexivity |]).
  all: split.
  all: match goal with
       | H : scan libm_pow stops ?p ?gm = _
         |- interpolate_stops libm_pow stops ?p ?gm = _ =>
           rewrite (interpolate_at_segment_end p _ _ gm eq_refl eq_refl H)
       end.
  all: try (rewrite Hblend, Hmode; reflexivity).
  all: match goal with
       | |- bind ?m _ = _ => destruct m; reflexivity
       end.
Qed.

End ExactStops.

(** *** The first sample *)

Lemma range_positive (n : Z) : (1 <= n)%Z -> exists l, range n = 0%Z :: l.
Proof.
  intros H. unfold range. destruct (Z.to_nat n) as [| k] eqn:E; [lia |].
  cbn [seq map]. eauto.
Qed.

Lemma int_truediv_0 (k : Z) : (0 < k)%Z -> int_truediv 0 k = Ok 0%float.
Proof. destruct k; try lia. reflexivity. Qed.

(** The first sample is taken at [t = 0], whatever the size. *)
Lemma sample_0 (pow : float -> float -> float) (size : Z) (gamma_mode : value) :
  sample pow size gamma_mode 0
  = (c <- interpolate_stops pow stops 0 gamma_mode ;; quantize c)%py.
Proof.
  rewrite sample_quantize. destruct (1 <? size)%Z eqn:E; [| reflexivity].
  rewrite int_truediv_0 by (apply Z.ltb_lt in E; lia). reflexivity.
Qed.

Lemma build_bad_gamma
  (pow : float -> float -> float) (size : Z) (gamma : string) (e : exn) :
  (1 <= size)%Z -> gamma <> "srgb"%string -> float_of_string gamma = Raise e ->
  build_fire_palette pow size (Str gamma) = Raise e.
Proof.
  intros Hsize Hgamma Hfloat. unfold build_fire_palette.
  destruct (range_positive size Hsize) as (l & ->). cbn [mapM].
  rewrite sample_0, interpolate_stops_fixed.
  change ((0 <=? 0)%float) with true. cbn [bind eq_str].
  apply String.eqb_neq in Hgamma. rewrite Hgamma. cbn [negb].
  unfold apply_gamma. cbn [eq_str float_of]. rewrite Hgamma, Hfloat. reflexivity.
Qed.

Local Close Scope float_scope.
Local Close Scope py_scope.
Local Open Scope Z_scope.

(** ** Binary floating-point rounding, from [SpecFloat] to the reals

    What the builder needs of the IEEE 754 operations: each of them returns
    the exact result rounded to nearest, ties to even, so that the order of
    two exact results is the order of the floats computed.  The operations
    are those of [SpecFloat], which specify the primitive floats; a finite
    float [m * 2^e] has the real value [F2R m e]. *)

Module IEEE.

Definition bpow (e : Z) : R := powerRZ 2 e.

Definition F2R (m e : Z) : R := (IZR m * bpow e)%R.

Lemma bpow_pos (e : Z) : (0 < bpow e)%R.
Proof. apply powerRZ_lt. lra. Qed.

Lemma bpow_add (a b : Z) : bpow (a + b) = (bpow a * bpow b)%R.
Proof. apply powerRZ_add. lra. Qed.

Lemma bpow_0 : bpow 0 = 1%R.
Proof. reflexivity. Qed.

Lemma bpow_1 : bpow 1 = 2%R.
Proof. unfold bpow, powerRZ. simpl. lra. Qed.

Lemma bpow_Z (k : Z) : 0 <= k -> bpow k = IZR (2 ^ k).
Proof.
  intros H. unfold bpow.
  rewrite <- (Z2Nat.id k H), <- pow_powerRZ, <- pow_IZR. reflexivity.
Qed.

Lemma bpow_ge_1 (k : Z) : 0 <= k -> (1 <= bpow k)%R.
Proof.
  intros H. rewrite (bpow_Z k H). apply IZR_le.
  pose proof (Z.pow_pos_nonneg 2 k ltac:(lia) H). lia.
Qed.

Lemma bpow_le (a b : Z) : a <= b -> (bpow a <= bpow b)%R.
Proof.
  intros H. replace b with (a + (b - a)) by lia. rewrite bpow_add.
  pose proof (bpow_pos a). pose proof (bpow_ge_1 (b - a) ltac:(lia)). nra.
Qed.

Lemma bpow_lt (a b : Z) : a < b -> (bpow a < bpow b)%R.
Proof.
  intros H. replace b with (a + 1 + (b - a - 1)) by lia. rewrite !bpow_add, bpow_1.
  pose proof (bpow_pos a). pose proof (bpow_ge_1 (b - a - 1) ltac:(lia)). nra.
Qed.

Lemma bpow_lt_inv (a b : Z) : (bpow a < bpow b)%R -> a < b.
Proof.
  intros H. destruct (Z_lt_le_dec a b) as [L | L]; [exact L |].
  apply bpow_le in L. lra.
Qed.

Lemma F2R_shift (m e k : Z) : 0 <= k -> F2R (m * 2 ^ k) e = F2R m (e + k).
Proof.
  intros H. unfold F2R. rewrite mult_IZR, bpow_add, <- (bpow_Z k H). ring.
Qed.

Lemma F2R_le (m n e : Z) : m <= n -> (F2R m e <= F2R n e)%R.
Proof.
  intros H. unfold F2R. apply IZR_le in H. pose proof (bpow_pos e). nra.
Qed.

Lemma F2R_lt (m n e : Z) : m < n -> (F2R m e < F2R n e)%R.
Proof.
  intros H. unfold F2R. apply IZR_lt in H. pose proof (bpow_pos e). nra.
Qed.

Lemma F2R_lt_inv (m n e : Z) : (F2R m e < F2R n e)%R -> m < n.
Proof.
  intros H. destruct (Z_lt_le_dec m n) as [L | L]; [exact L |].
  apply (F2R_le n m e) in L. lra.
Qed.

Lemma F2R_le_inv (m n e : Z) : (F2R m e <= F2R n e)%R -> m <= n.
Proof.
  intros H. destruct (Z_le_gt_dec m n) as [L | L]; [exact L |].
  apply Z.gt_lt, (F2R_lt n m e) in L. lra.
Qed.

(** *** The number of binary digits *)

Lemma digits2_pos_size (p : positive) : digits2_pos p = Pos.size p.
Proof. induction p; cbn; congruence. Qed.

Lemma Zdigits2_bounds (m : Z) :
  0 < m -> 2 ^ (Zdigits2 m - 1) <= m < 2 ^ Zdigits2 m.
Proof.
  destruct m as [| p |]; try lia. intros _. cbn [Zdigits2].
  rewrite digits2_pos_size.
  pose proof (Pos.size_gt p) as Hgt. pose proof (Pos.size_le p) as Hle.
  assert (E : Z.pos (2 ^ Pos.size p) = 2 ^ Z.pos (Pos.size p))
    by (rewrite Pos2Z.inj_pow; reflexivity).
  split.
  - assert (2 * 2 ^ (Z.pos (Pos.size p) - 1) = 2 ^ Z.pos (Pos.size p)).
    { rewrite <- Z.pow_succ_r by lia. f_equal. lia. }
    lia.
  - lia.
Qed.

Lemma Zdigits2_nonneg (m : Z) : 0 <= Zdigits2 m.
Proof. destruct m; cbn; lia. Qed.

Lemma Zdigits2_unique (m d : Z) :
  2 ^ (d - 1) <= m < 2 ^ d -> 0 < m -> Zdigits2 m = d.
Proof.
  intros [H1 H2] Hm. pose proof (Zdigits2_bounds m Hm) as [B1 B2].
  pose proof (Zdigits2_nonneg m).
  assert (0 < d).
  { destruct (Z_lt_le_dec 0 d); [assumption |].
    assert (2 ^ d <= 2 ^ 0) by (destruct d; [lia | lia | cbn; lia]). cbn in *. lia. }
  destruct (Z.lt_trichotomy (Zdigits2 m) d) as [L | [L | L]]; [| exact L |].
  - assert (2 ^ Zdigits2 m <= 2 ^ (d - 1)) by (apply Z.pow_le_mono_r; lia). lia.
  - assert (2 ^ d <= 2 ^ (Zdigits2 m - 1)) by (apply Z.pow_le_mono_r; lia). lia.
Qed.

Lemma Zdigits2_le (m d : Z) : 0 <= d -> 0 <= m < 2 ^ d -> Zdigits2 m <= d.
Proof.
  intros Hd [H0 H]. destruct (Z.eq_dec m 0) as [-> | N]; [cbn; lia |].
  pose proof (Zdigits2_bounds m ltac:(lia)) as [B1 B2].
  destruct (Z_le_gt_dec (Zdigits2 m) d) as [L | L]; [exact L |].
  assert (2 ^ d <= 2 ^ (Zdigits2 m - 1)) by (apply Z.pow_le_mono_r; lia). lia.
Qed.

Lemma Zdigits2_ge (m d : Z) : 2 ^ (d - 1) <= m -> 0 < d -> d <= Zdigits2 m.
Proof.
  intros H Hd.
  assert (0 < m) by (pose proof (Z.pow_pos_nonneg 2 (d - 1)); lia).
  pose proof (Zdigits2_bounds m ltac:(lia)) as [B1 B2].
  destruct (Z_le_gt_dec d (Zdigits2 m)) as [L | L]; [exact L |].
  assert (2 ^ Zdigits2 m <= 2 ^ (d - 1))
    by (apply Z.pow_le_mono_r; pose proof (Zdigits2_nonneg m); lia).
  lia.
Qed.

(** *** Locations and the right shift *)

Abbreviation fexp := (SpecFloat.fexp prec emax).
Abbreviation emin := (-1074).

Lemma fexp_spec (e : Z) : fexp e = Z.max (e - 53) emin.
Proof. reflexivity. Qed.

(** [inbetween m e l x]: [x] lies in the cell [m * 2^e, (m+1) * 2^e), at the
    place [l] says: on its lower end, or inside, below, at or above its
    middle. *)
Definition inbetween (m e : Z) (l : location) (x : R) : Prop :=
  match l with
  | loc_Exact => x = F2R m e
  | loc_Inexact c =>
      (F2R m e < x < F2R (m + 1) e)%R
      /\ match c with
         | Lt => (2 * x < F2R (2 * m + 1) e)%R
         | Eq => (2 * x = F2R (2 * m + 1) e)%R
         | Gt => (F2R (2 * m + 1) e < 2 * x)%R
         end
  end.

Lemma F2R_double (m e : Z) : F2R (2 * m) e = F2R m (e + 1).
Proof. unfold F2R. rewrite mult_IZR, bpow_add, bpow_1. ring. Qed.

Lemma F2R_add (m n e : Z) : F2R (m + n) e = (F2R m e + F2R n e)%R.
Proof. unfold F2R. rewrite plus_IZR. ring. Qed.

Lemma F2R_1 (e : Z) : F2R 1 e = bpow e.
Proof. unfold F2R. ring. Qed.

Lemma F2R_0 (e : Z) : F2R 0 e = 0%R.
Proof. unfold F2R. ring. Qed.

Lemma shr_1_correct (mrs : shr_record) (e : Z) (x : R) :
  0 <= shr_m mrs ->
  inbetween (shr_m mrs) e (loc_of_shr_record mrs) x ->
  inbetween (shr_m (shr_1 mrs)) (e + 1) (loc_of_shr_record (shr_1 mrs)) x
  /\ shr_m (shr_1 mrs) = shr_m mrs / 2.
Proof.
  destruct mrs as [m r s]. cbn [shr_m]. intros Hm H.
  assert (Hq : m = 2 * (m / 2) + m mod 2) by (apply Z.div_mod; lia).
  assert (Hr : m mod 2 = 0 \/ m mod 2 = 1)
    by (pose proof (Z.mod_pos_bound m 2); lia).
  set (q := m / 2) in *.
  assert (Hs : shr_m (shr_1 (Build_shr_record m r s)) = q
               /\ shr_r (shr_1 (Build_shr_record m r s)) = Z.odd m
               /\ shr_s (shr_1 (Build_shr_record m r s)) = (r || s)%bool).
  { destruct m as [| [p | p |] |]; try lia; cbn [shr_1 shr_m shr_r shr_s];
      repeat split; subst q; try reflexivity.
    - rewrite Pos2Z.inj_xI. apply (Z.div_unique _ 2 _ 1); lia.
    - rewrite Pos2Z.inj_xO. apply (Z.div_unique _ 2 _ 0); lia. }
  destruct Hs as (Sm & Sr & Ss).
  split; [| exact Sm].
  destruct (shr_1 (Build_shr_record m r s)) as [m' r' s'].
  cbn [shr_m shr_r shr_s] in *. subst m' r' s'.
  pose proof (bpow_pos e) as Be.
  assert (Hodd : Z.odd m = negb (m mod 2 =? 0)).
  { rewrite Zmod_odd. destruct (Z.odd m); reflexivity. }
  assert (E1 : F2R q (e + 1) = (2 * F2R q e)%R)
    by (rewrite <- F2R_double; unfold F2R; rewrite mult_IZR; ring).
  assert (E2 : F2R (q + 1) (e + 1) = (2 * F2R q e + 2 * bpow e)%R)
    by (rewrite <- F2R_double, Z.mul_add_distr_l, F2R_add, F2R_double, E1;
        unfold F2R; simpl; ring).
  assert (E3 : F2R (2 * q + 1) (e + 1) = (4 * F2R q e + 2 * bpow e)%R)
    by (rewrite F2R_add, <- F2R_double, F2R_1, Z.mul_assoc; unfold F2R;
        rewrite bpow_add, bpow_1, mult_IZR; simpl; ring).
  destruct Hr as [R0 | R1].
  - (* even *)
    assert (Em : m = 2 * q) by lia.
    rewrite Hodd, R0. cbn [Z.eqb negb].
    assert (F0 : F2R m e = (2 * F2R q e)%R)
      by (rewrite Em; unfold F2R; rewrite mult_IZR; ring).
    assert (F1 : F2R (m + 1) e = (2 * F2R q e + bpow e)%R)
      by (rewrite F2R_add, F0, F2R_1; ring).
    destruct r, s; cbn [loc_of_shr_record orb inbetween] in *;
      rewrite ?E1, ?E2, ?E3; rewrite ?F0, ?F1 in H; lra.
  - (* odd *)
    assert (Em : m = 2 * q + 1) by lia.
    rewrite Hodd, R1. cbn [Z.eqb negb].
    assert (F0 : F2R m e = (2 * F2R q e + bpow e)%R)
      by (rewrite Em, F2R_add, F2R_1; unfold F2R; rewrite mult_IZR; ring).
    assert (F1 : F2R (m + 1) e = (2 * F2R q e + 2 * bpow e)%R)
      by (rewrite F2R_add, F0, F2R_1; ring).
    destruct r, s; cbn [loc_of_shr_record orb inbetween] in *;
      rewrite ?E1, ?E2, ?E3; rewrite ?F0, ?F1 in H; lra.
Qed.

Lemma iter_pos_nat {A : Type} (f : A -> A) (p : positive) (x : A) :
  SpecFloat.iter_pos f p x = Nat.iter (Pos.to_nat p) f x.
Proof.
  revert x. induction p as [p IH | p IH |]; intros x; cbn [SpecFloat.iter_pos].
  - rewrite !IH, Pos2Nat.inj_xI.
    replace (S (2 * Pos.to_nat p)) with (S (Pos.to_nat p + Pos.to_nat p)) by lia.
    rewrite Nat.iter_succ, Nat.iter_add, !Nat.iter_swap. reflexivity.
  - rewrite !IH, Pos2Nat.inj_xO.
    replace (2 * Pos.to_nat p)%nat with (Pos.to_nat p + Pos.to_nat p)%nat by lia.
    now rewrite Nat.iter_add.
  - reflexivity.
Qed.

Lemma shr_nat_correct (n : nat) (mrs : shr_record) (e : Z) (x : R) :
  0 <= shr_m mrs ->
  inbetween (shr_m mrs) e (loc_of_shr_record mrs) x ->
  inbetween (shr_m (Nat.iter n shr_1 mrs)) (e + Z.of_nat n)
    (loc_of_shr_record (Nat.iter n shr_1 mrs)) x
  /\ shr_m (Nat.iter n shr_1 mrs) = shr_m mrs / 2 ^ Z.of_nat n.
Proof.
  intros Hm H. induction n as [| n [IH1 IH2]].
  - change (Nat.iter 0 shr_1 mrs) with mrs.
    rewrite Z.add_0_r, Z.pow_0_r, Z.div_1_r. auto.
  - rewrite !Nat.iter_succ.
    assert (H0 : 0 <= shr_m (Nat.iter n shr_1 mrs))
      by (rewrite IH2; apply Z.div_pos; lia).
    destruct (shr_1_correct _ _ x H0 IH1) as [S1 S2].
    rewrite Nat2Z.inj_succ. unfold Z.succ. rewrite Z.add_assoc.
    split; [exact S1 |].
    rewrite S2, IH2, Z.pow_add_r, Z.pow_1_r by lia.
    rewrite Z.div_div by lia. reflexivity.
Qed.

Lemma shr_correct (mrs : shr_record) (e n : Z) (x : R) :
  0 <= shr_m mrs ->
  inbetween (shr_m mrs) e (loc_of_shr_record mrs) x ->
  inbetween (shr_m (fst (shr mrs e n))) (snd (shr mrs e n))
    (loc_of_shr_record (fst (shr mrs e n))) x
  /\ snd (shr mrs e n) = e + Z.max 0 n
  /\ shr_m (fst (shr mrs e n)) = shr_m mrs / 2 ^ Z.max 0 n.
Proof.
  intros Hm H. destruct n as [| p | p]; cbn [shr fst snd].
  - rewrite Z.add_0_r, Z.div_1_r. auto.
  - rewrite iter_pos_nat.
    destruct (shr_nat_correct (Pos.to_nat p) mrs e x Hm H) as [S1 S2].
    rewrite positive_nat_Z in *. replace (Z.max 0 (Z.pos p)) with (Z.pos p) by lia.
    auto.
  - replace (Z.max 0 (Z.neg p)) with 0 by lia.
    rewrite Z.add_0_r, Z.div_1_r. auto.
Qed.

Lemma loc_of_record_of_loc (m : Z) (l : location) :
  loc_of_shr_record (shr_record_of_loc m l) = l
  /\ shr_m (shr_record_of_loc m l) = m.
Proof. destruct l as [| [| |]]; auto. Qed.

(** *** Canonical cells and rounding to nearest even *)

(** A cell at the exponent the format gives to the numbers in it. *)
Definition canonical_cell (m e : Z) : Prop :=
  emin <= e /\ 0 <= m < 2 ^ 53 /\ (e = emin \/ 2 ^ 52 <= m).

Lemma shr_fexp_canonical (m e : Z) (l : location) (x : R) :
  0 <= m -> e <= fexp (Zdigits2 m + e) ->
  inbetween m e l x ->
  canonical_cell (shr_m (fst (shr_fexp prec emax m e l)))
                 (snd (shr_fexp prec emax m e l))
  /\ inbetween (shr_m (fst (shr_fexp prec emax m e l)))
               (snd (shr_fexp prec emax m e l))
               (loc_of_shr_record (fst (shr_fexp prec emax m e l))) x.
Proof.
  intros Hm HP H. unfold shr_fexp. rewrite fexp_spec in *.
  destruct (loc_of_record_of_loc m l) as [Ll Lm].
  set (d := Zdigits2 m) in *.
  set (n := Z.max (d + e - 53) emin - e).
  destruct (shr_correct (shr_record_of_loc m l) e n x) as (S1 & S2 & S3).
  { rewrite Lm. exact Hm. }
  { rewrite Ll, Lm. exact H. }
  split; [| exact S1].
  assert (Hd : 0 <= d) by apply Zdigits2_nonneg.
  assert (Hn : 0 <= n) by (subst n; lia).
  rewrite S2, S3, Lm. replace (Z.max 0 n) with n by lia.
  assert (Dn : e + n = Z.max (d + e - 53) emin) by (subst n; lia).
  assert (P2n : 0 < 2 ^ n) by (apply Z.pow_pos_nonneg; lia).
  unfold canonical_cell. split; [lia |]. split; [split |].
  - apply Z.div_pos; lia.
  - apply Z.div_lt_upper_bound; [lia |].
    rewrite <- Z.pow_add_r by lia.
    destruct (Z.eq_dec m 0) as [-> | N].
    + apply Z.pow_pos_nonneg; lia.
    + pose proof (Zdigits2_bounds m ltac:(lia)) as [_ B]. fold d in B.
      assert (2 ^ d <= 2 ^ (n + 53)) by (apply Z.pow_le_mono_r; lia).
      lia.
  - destruct (Z.eq_dec (e + n) emin) as [E | E]; [left; exact E | right].
    assert (N : m <> 0).
    { intros ->. subst d. cbn [Zdigits2] in *. lia. }
    pose proof (Zdigits2_bounds m ltac:(lia)) as [B _]. fold d in B.
    assert (En : n = d - 53) by lia.
    apply Z.div_le_lower_bound; [lia |].
    rewrite <- Z.pow_add_r by lia. replace (n + 52) with (d - 1) by lia. exact B.
Qed.

Lemma rne_range (m : Z) (l : location) :
  m <= round_nearest_even m l <= m + 1.
Proof.
  destruct l as [| [| |]]; cbn [round_nearest_even]; try lia.
  destruct (Z.even m); lia.
Qed.

(** The second half of [binary_round_aux]: the rounded mantissa is put in
    canonical form and checked against the largest exponent. *)
Definition pack (s : bool) (m e : Z) : spec_float :=
  let '(mrs, e') := shr_fexp prec emax m e loc_Exact in
  match shr_m mrs with
  | Z0 => S754_zero s
  | Zpos p => if e' <=? emax - prec then S754_finite s p e' else S754_infinity s
  | Zneg _ => S754_nan
  end.

Lemma binary_round_aux_pack (s : bool) (m e : Z) (l : location) :
  binary_round_aux prec emax s m e l
  = pack s (round_nearest_even (shr_m (fst (shr_fexp prec emax m e l)))
              (loc_of_shr_record (fst (shr_fexp prec emax m e l))))
         (snd (shr_fexp prec emax m e l)).
Proof.
  unfold binary_round_aux, pack.
  destruct (shr_fexp prec emax m e l) as [mrs e']. reflexivity.
Qed.

(** [encodes s v r]: the float [r] is the magnitude [v] with the sign [s],
    an infinity standing for every magnitude from [2 ^ 1024] on. *)
Definition encodes (s : bool) (v : R) (r : spec_float) : Prop :=
  (v = 0%R /\ r = S754_zero s)
  \/ ((0 < v < bpow 1024)%R
      /\ exists (m : positive) (e : Z),
           r = S754_finite s m e /\ valid_binary r = true
           /\ v = F2R (Z.pos m) e)
  \/ ((bpow 1024 <= v)%R /\ r = S754_infinity s).

Lemma F2R_pow2 (k e : Z) : 0 <= k -> F2R (2 ^ k) e = bpow (e + k).
Proof.
  intros H. rewrite <- (Z.mul_1_l (2 ^ k)), F2R_shift, F2R_1 by exact H. reflexivity.
Qed.

Lemma shr_fexp_noshift (m e : Z) :
  fexp (Zdigits2 m + e) <= e ->
  shr_fexp prec emax m e loc_Exact = (Build_shr_record m false false, e).
Proof.
  intros H. unfold shr_fexp. cbn [shr_record_of_loc].
  destruct (fexp (Zdigits2 m + e) - e) eqn:E; try reflexivity. lia.
Qed.

Lemma valid_finite (s : bool) (p : positive) (e : Z) :
  fexp (Zdigits2 (Z.pos p) + e) = e -> e <= 971 ->
  valid_binary (S754_finite s p e) = true.
Proof.
  intros H1 H2. cbn [SpecFloat.valid_binary].
  unfold SpecFloat.bounded, SpecFloat.canonical_mantissa.
  cbn [Zdigits2] in H1. rewrite H1, Z.eqb_refl. cbn [andb].
  apply Z.leb_le. exact H2.
Qed.

Lemma pack_spec (s : bool) (m1 e1 m2 : Z) :
  canonical_cell m1 e1 -> m1 <= m2 <= m1 + 1 ->
  encodes s (F2R m2 e1) (pack s m2 e1).
Proof.
  intros (He & Hm & Hn) H2. unfold encodes, pack.
  destruct (Z.eq_dec m2 0) as [-> | N0].
  { left. rewrite shr_fexp_noshift by (rewrite fexp_spec; cbn [Zdigits2]; lia).
    cbn [shr_m]. split; [apply F2R_0 | reflexivity]. }
  right.
  assert (Pm2 : 0 < m2) by lia.
  pose proof (bpow_pos e1) as Be.
  assert (V0 : (0 < F2R m2 e1)%R)
    by (rewrite <- (F2R_0 e1); apply F2R_lt; exact Pm2).
  destruct (Z.eq_dec m2 (2 ^ 53)) as [-> | N53].
  - (* the mantissa has overflowed: one more shift *)
    assert (Es : shr_fexp prec emax (2 ^ 53) e1 loc_Exact
                 = (Build_shr_record (2 ^ 52) false false, e1 + 1)).
    { unfold shr_fexp. rewrite fexp_spec.
      replace (Z.max (Zdigits2 (2 ^ 53) + e1 - 53) emin - e1) with 1
        by (change (Zdigits2 (2 ^ 53)) with 54; lia).
      reflexivity. }
    rewrite Es. cbn [shr_m].
    assert (Ev : F2R (2 ^ 53) e1 = F2R (2 ^ 52) (e1 + 1))
      by (rewrite <- F2R_double; reflexivity).
    change (2 ^ 52) with (Z.pos (2 ^ 52)) in *.
    change (emax - prec) with 971.
    destruct (e1 + 1 <=? 971) eqn:L; [left | right].
    + apply Z.leb_le in L. split.
      * split; [exact V0 |]. rewrite F2R_pow2 by lia.
        apply bpow_lt. lia.
      * exists (2 ^ 52)%positive, (e1 + 1). split; [reflexivity |].
        split; [| exact Ev].
        apply valid_finite; [| exact L].
        rewrite fexp_spec. change (Zdigits2 (Z.pos (2 ^ 52))) with 53. lia.
    + apply Z.leb_gt in L. split; [| reflexivity].
      rewrite F2R_pow2 by lia. apply bpow_le. lia.
  - (* no shift *)
    assert (Hlt : m2 < 2 ^ 53) by lia.
    assert (Hd : Zdigits2 m2 <= 53) by (apply Zdigits2_le; lia).
    rewrite shr_fexp_noshift by (rewrite fexp_spec; lia).
    cbn [shr_m]. destruct m2 as [| p |]; try lia.
    change (emax - prec) with 971.
    assert (Hc : fexp (Zdigits2 (Z.pos p) + e1) = e1).
    { rewrite fexp_spec. destruct Hn as [-> | Hn]; [lia |].
      assert (53 <= Zdigits2 (Z.pos p)) by (apply Zdigits2_ge; lia). lia. }
    destruct (e1 <=? 971) eqn:L; [left | right].
    + apply Z.leb_le in L. split.
      * split; [exact V0 |].
        apply Rlt_le_trans with (F2R (2 ^ 53) e1); [apply F2R_lt; exact Hlt |].
        rewrite F2R_pow2 by lia. apply bpow_le. lia.
      * exists p, e1. split; [reflexivity |]. split; [| reflexivity].
        apply valid_finite; assumption.
    + apply Z.leb_gt in L. split; [| reflexivity].
      destruct Hn as [-> | Hn]; [lia |].
      apply Rle_trans with (F2R (2 ^ 52) e1); [| apply F2R_le; lia].
      rewrite F2R_pow2 by lia. apply bpow_le. lia.
Qed.

(** [RN x v]: [v] is [x >= 0] rounded to nearest, ties to even, with no bound
    on the exponent from above. *)
Definition RN (x v : R) : Prop :=
  exists (m e : Z) (l : location),
    canonical_cell m e /\ inbetween m e l x
    /\ v = F2R (round_nearest_even m l) e.

Lemma inbetween_bounds (m e : Z) (l : location) (x : R) :
  inbetween m e l x -> (F2R m e <= x < F2R (m + 1) e)%R.
Proof.
  destruct l as [| c]; cbn [inbetween].
  - intros ->. split; [lra |]. apply F2R_lt. lia.
  - intros [H _]. lra.
Qed.

Theorem binary_round_aux_correct (s : bool) (m e : Z) (l : location) (x : R) :
  0 <= m -> e <= fexp (Zdigits2 m + e) -> inbetween m e l x ->
  exists v : R, RN x v /\ encodes s v (binary_round_aux prec emax s m e l).
Proof.
  intros Hm HP H.
  destruct (shr_fexp_canonical m e l x Hm HP H) as [Hc Hi].
  rewrite binary_round_aux_pack.
  set (m1 := shr_m (fst (shr_fexp prec emax m e l))) in *.
  set (e1 := snd (shr_fexp prec emax m e l)) in *.
  set (l1 := loc_of_shr_record (fst (shr_fexp prec emax m e l))) in *.
  exists (F2R (round_nearest_even m1 l1) e1). split.
  - exists m1, e1, l1. auto.
  - apply (pack_spec s m1 e1); [exact Hc | apply rne_range].
Qed.

Lemma rne_mono_loc (m : Z) (l l' : location) (e : Z) (x y : R) :
  inbetween m e l x -> inbetween m e l' y -> (x <= y)%R ->
  round_nearest_even m l <= round_nearest_even m l'.
Proof.
  intros Hx Hy Hxy.
  assert (Hmid : F2R (2 * m + 1) e = (2 * F2R m e + bpow e)%R)
    by (rewrite F2R_add, F2R_1; unfold F2R; rewrite mult_IZR; ring).
  assert (Hup : F2R (m + 1) e = (F2R m e + bpow e)%R)
    by (rewrite F2R_add, F2R_1; ring).
  pose proof (bpow_pos e).
  destruct l as [| [| |]], l' as [| [| |]];
    cbn [inbetween round_nearest_even] in *;
    rewrite ?Hmid, ?Hup in *;
    try (destruct (Z.even m)); try lia; exfalso; lra.
Qed.

Theorem RN_mono (x y v w : R) : RN x v -> RN y w -> (x <= y)%R -> (v <= w)%R.
Proof.
  intros (m & e & l & (He & Hm & Hn) & Hx & ->)
         (m' & e' & l' & (He' & Hm' & Hn') & Hy & ->) Hxy.
  pose proof (inbetween_bounds _ _ _ _ Hx) as [Lx Ux].
  pose proof (inbetween_bounds _ _ _ _ Hy) as [Ly Uy].
  pose proof (rne_range m l) as Rm. pose proof (rne_range m' l') as Rm'.
  destruct (Z.lt_trichotomy e e') as [L | [<- | L]].
  - (* the exponent of [y] is larger *)
    assert (2 ^ 52 <= m') by lia.
    apply Rle_trans with (F2R (2 ^ 53) e); [apply F2R_le; lia |].
    apply Rle_trans with (F2R (2 ^ 52) e'); [| apply F2R_le; lia].
    rewrite !F2R_pow2 by lia. apply bpow_le. lia.
  - (* the same exponent *)
    assert (m <= m').
    { apply Z.lt_succ_r, (F2R_lt_inv _ _ e). unfold Z.succ. lra. }
    destruct (Z.eq_dec m m') as [<- | N].
    + apply F2R_le. exact (rne_mono_loc m l l' e x y Hx Hy Hxy).
    + apply F2R_le. lia.
  - (* impossible: the exponent of [x] is larger *)
    exfalso. assert (2 ^ 52 <= m) by lia.
    assert ((F2R (2 ^ 53) e' <= F2R (2 ^ 52) e)%R)
      by (rewrite !F2R_pow2 by lia; apply bpow_le; lia).
    assert ((F2R (2 ^ 52) e <= F2R m e)%R) by (apply F2R_le; lia).
    assert ((F2R (m' + 1) e' <= F2R (2 ^ 53) e')%R) by (apply F2R_le; lia).
    lra.
Qed.

(** *** The value and the order of the floats *)

Definition SF2R (f : spec_float) : R :=
  match f with
  | S754_finite s m e => F2R (cond_Zopp s (Z.pos m)) e
  | _ => 0%R
  end.

Definition is_finite_SF (f : spec_float) : bool :=
  match f with
  | S754_zero _ | S754_finite _ _ _ => true
  | _ => false
  end.

Lemma valid_canonical (s : bool) (m : positive) (e : Z) :
  valid_binary (S754_finite s m e) = true ->
  canonical_cell (Z.pos m) e /\ e <= 971.
Proof.
  cbn [SpecFloat.valid_binary].
  unfold SpecFloat.bounded, SpecFloat.canonical_mantissa.
  intros H. apply andb_true_iff in H as [Hc Hb].
  apply Z.eqb_eq in Hc. apply Z.leb_le in Hb.
  change (emax - prec) with 971 in Hb. rewrite fexp_spec in Hc.
  change (Z.pos (digits2_pos m)) with (Zdigits2 (Z.pos m)) in Hc.
  pose proof (Zdigits2_bounds (Z.pos m) ltac:(lia)) as [B1 B2].
  set (d := Zdigits2 (Z.pos m)) in *.
  assert (Hd : 0 < d).
  { destruct (Z_lt_le_dec 0 d); [assumption |]. exfalso.
    assert (2 ^ d <= 2 ^ 0) by (apply Z.pow_le_mono_r; lia). cbn in *. lia. }
  split; [| exact Hb]. unfold canonical_cell. split; [lia |]. split; [split; [lia |] |].
  - assert (2 ^ d <= 2 ^ 53) by (apply Z.pow_le_mono_r; lia). lia.
  - destruct (Z.eq_dec e emin) as [E | E]; [left; exact E | right].
    assert (d = 53) by lia. subst d. replace 52 with (Zdigits2 (Z.pos m) - 1) by lia.
    exact B1.
Qed.

(** The comparison of two canonical positive mantissa-exponent pairs is the
    comparison of their values. *)
Lemma canonical_compare (m m' : positive) (e e' : Z) :
  canonical_cell (Z.pos m) e -> canonical_cell (Z.pos m') e' ->
  match (match e ?= e' with
         | Lt => Lt
         | Gt => Gt
         | Eq => Pos.compare_cont Eq m m'
         end) with
  | Lt => (F2R (Z.pos m) e < F2R (Z.pos m') e')%R
  | Eq => F2R (Z.pos m) e = F2R (Z.pos m') e'
  | Gt => (F2R (Z.pos m') e' < F2R (Z.pos m) e)%R
  end.
Proof.
  intros (He & Hm & Hn) (He' & Hm' & Hn').
  destruct (Z.compare_spec e e') as [<- | L | L].
  - change (Pos.compare_cont Eq m m') with (Z.pos m ?= Z.pos m').
    destruct (Z.compare_spec (Z.pos m) (Z.pos m')) as [E | E | E].
    + now rewrite E.
    + now apply F2R_lt.
    + now apply F2R_lt.
  - assert (2 ^ 52 <= Z.pos m') by lia.
    apply Rlt_le_trans with (F2R (2 ^ 53) e); [apply F2R_lt; lia |].
    apply Rle_trans with (F2R (2 ^ 52) e'); [| apply F2R_le; lia].
    rewrite !F2R_pow2 by lia. apply bpow_le. lia.
  - assert (2 ^ 52 <= Z.pos m) by lia.
    apply Rlt_le_trans with (F2R (2 ^ 53) e'); [apply F2R_lt; lia |].
    apply Rle_trans with (F2R (2 ^ 52) e); [| apply F2R_le; lia].
    rewrite !F2R_pow2 by lia. apply bpow_le. lia.
Qed.

Lemma F2R_opp (m e : Z) : F2R (- m) e = (- F2R m e)%R.
Proof. unfold F2R. rewrite opp_IZR. ring. Qed.

Lemma F2R_pos (m : positive) (e : Z) : (0 < F2R (Z.pos m) e)%R.
Proof. rewrite <- (F2R_0 e). apply F2R_lt. lia. Qed.

(** On valid finite floats and zeros, [SFleb] and [SFltb] are the order of
    the values. *)
Lemma SFcompare_SF2R (x y : spec_float) :
  valid_binary x = true -> valid_binary y = true ->
  is_finite_SF x = true -> is_finite_SF y = true ->
  match SFcompare x y with
  | Some Lt => (SF2R x < SF2R y)%R
  | Some Eq => SF2R x = SF2R y
  | Some Gt => (SF2R y < SF2R x)%R
  | None => False
  end.
Proof.
  intros Vx Vy Fx Fy.
  destruct x as [sx | sx | | sx mx ex], y as [sy | sy | | sy my ey];
    try discriminate; cbn [SFcompare SF2R].
  - reflexivity.
  - pose proof (F2R_pos my ey). destruct sy; cbn [cond_Zopp];
      rewrite ?F2R_opp; lra.
  - pose proof (F2R_pos mx ex). destruct sx; cbn [cond_Zopp];
      rewrite ?F2R_opp; lra.
  - apply valid_canonical in Vx as [Cx _]. apply valid_canonical in Vy as [Cy _].
    pose proof (F2R_pos mx ex). pose proof (F2R_pos my ey).
    pose proof (canonical_compare mx my ex ey Cx Cy) as C.
    destruct sx, sy; cbn [cond_Zopp]; rewrite ?F2R_opp; try lra.
    + destruct (ex ?= ey); [destruct (Pos.compare_cont Eq mx my) | |];
        cbn [CompOpp]; lra.
    + destruct (ex ?= ey); [destruct (Pos.compare_cont Eq mx my) | |]; lra.
Qed.

Lemma SFleb_SF2R (x y : spec_float) :
  valid_binary x = true -> valid_binary y = true ->
  is_finite_SF x = true -> is_finite_SF y = true ->
  SFleb x y = true <-> (SF2R x <= SF2R y)%R.
Proof.
  intros Vx Vy Fx Fy. pose proof (SFcompare_SF2R x y Vx Vy Fx Fy) as C.
  unfold SFleb. destruct (SFcompare x y) as [[| |] |]; try tauto;
    split; intros H; try reflexivity; try discriminate; lra.
Qed.

Lemma SFltb_SF2R (x y : spec_float) :
  valid_binary x = true -> valid_binary y = true ->
  is_finite_SF x = true -> is_finite_SF y = true ->
  SFltb x y = true <-> (SF2R x < SF2R y)%R.
Proof.
  intros Vx Vy Fx Fy. pose proof (SFcompare_SF2R x y Vx Vy Fx Fy) as C.
  unfold SFltb. destruct (SFcompare x y) as [[| |] |]; try tauto;
    split; intros H; try reflexivity; try discriminate; lra.
Qed.

(** *** Rounding a signed exact result *)

(** [rounds z r]: the float [r] is the real [z] rounded to nearest even, its
    sign kept, an infinity standing for an overflow. *)
Definition rounds (z : R) (r : spec_float) : Prop :=
  exists (s : bool) (v : R),
    RN (Rabs z) v /\ encodes s v r
    /\ ((0 < z)%R -> s = false) /\ ((z < 0)%R -> s = true).

Lemma RN_nonneg (x v : R) : RN x v -> (0 <= x)%R /\ (0 <= v)%R.
Proof.
  intros (m & e & l & (He & Hm & Hn) & Hx & ->).
  apply inbetween_bounds in Hx as [Lx _].
  pose proof (rne_range m l).
  assert ((0 <= F2R m e)%R) by (rewrite <- (F2R_0 e); apply F2R_le; lia).
  split; [lra |]. rewrite <- (F2R_0 e). apply F2R_le. lia.
Qed.

Lemma RN_0 (v : R) : RN 0 v -> v = 0%R.
Proof.
  intros (m & e & l & (He & Hm & Hn) & Hx & ->).
  pose proof (inbetween_bounds _ _ _ _ Hx) as [Lx Ux].
  assert (m = 0).
  { assert (m < 1); [| lia]. apply (F2R_lt_inv _ _ e).
    apply Rle_lt_trans with 0%R; [exact Lx |]. rewrite F2R_1. apply bpow_pos. }
  subst m. destruct l as [| c]; cbn [round_nearest_even].
  - apply F2R_0.
  - cbn [inbetween] in Hx. rewrite F2R_0 in Hx. lra.
Qed.

Lemma RN_exact (m : positive) (e : Z) :
  canonical_cell (Z.pos m) e -> RN (F2R (Z.pos m) e) (F2R (Z.pos m) e).
Proof. intros H. exists (Z.pos m), e, loc_Exact. repeat split; apply H. Qed.

Lemma RN_0_0 : RN 0 0.
Proof.
  exists 0, emin, loc_Exact. unfold canonical_cell. cbn [inbetween round_nearest_even].
  rewrite F2R_0. repeat split; lia.
Qed.

Lemma rounds_zero (s : bool) : rounds 0 (S754_zero s).
Proof.
  exists s, 0%R. rewrite Rabs_R0. split; [exact RN_0_0 |].
  split; [left; auto |]. split; intros H; lra.
Qed.

(** A valid float is the rounding of its own value. *)
Lemma rounds_self (f : spec_float) :
  valid_binary f = true -> is_finite_SF f = true -> rounds (SF2R f) f.
Proof.
  intros V F. destruct f as [s | s | | s m e]; try discriminate.
  - apply rounds_zero.
  - destruct (valid_canonical s m e V) as [C Hb].
    pose proof (F2R_pos m e) as Hp.
    exists s, (F2R (Z.pos m) e). cbn [SF2R].
    assert (A : Rabs (F2R (cond_Zopp s (Z.pos m)) e) = F2R (Z.pos m) e).
    { destruct s; cbn [cond_Zopp]; rewrite ?F2R_opp.
      - rewrite Rabs_Ropp. apply Rabs_pos_eq. lra.
      - apply Rabs_pos_eq. lra. }
    rewrite A. split; [apply RN_exact; exact C |]. split.
    + right. left. split.
      * split; [exact Hp |]. destruct C as (_ & Hm & _).
        apply Rlt_le_trans with (F2R (2 ^ 53) e); [apply F2R_lt; lia |].
        rewrite F2R_pow2 by lia. apply bpow_le. lia.
      * exists m, e. auto.
    + destruct s; cbn [cond_Zopp]; rewrite ?F2R_opp; split; intros H;
        try reflexivity; lra.
Qed.

Lemma encodes_not_nan (s : bool) (v : R) (r : spec_float) :
  encodes s v r -> r <> S754_nan.
Proof.
  intros [[_ ->] | [[_ (m & e & -> & _)] | [_ ->]]]; discriminate.
Qed.

Lemma encodes_valid (s : bool) (v : R) (r : spec_float) :
  encodes s v r -> valid_binary r = true.
Proof.
  intros [[_ ->] | [[_ (m & e & _ & V & _)] | [_ ->]]]; auto.
Qed.

Lemma rounds_valid (z : R) (r : spec_float) : rounds z r -> valid_binary r = true.
Proof. intros (s & v & _ & E & _). exact (encodes_valid s v r E). Qed.

Lemma rounds_not_nan (z : R) (r : spec_float) : rounds z r -> r <> S754_nan.
Proof. intros (s & v & _ & E & _). exact (encodes_not_nan s v r E). Qed.

(** When the result is finite, it is within the cell of the exact value. *)
Lemma encodes_SF2R (s : bool) (v : R) (r : spec_float) :
  encodes s v r -> is_finite_SF r = true ->
  SF2R r = (if s then - v else v)%R.
Proof.
  intros [[-> ->] | [[_ (m & e & -> & _ & ->)] | [_ ->]]] F; try discriminate.
  - cbn [SF2R]. destruct s; lra.
  - cbn [SF2R]. destruct s; cbn [cond_Zopp]; rewrite ?F2R_opp; reflexivity.
Qed.

(** Rounding is monotone: the order of two exact results is the order of
    the floats they round to. *)
Theorem rounds_leb (z z' : R) (r r' : spec_float) :
  rounds z r -> rounds z' r' -> (z <= z')%R -> SFleb r r' = true.
Proof.
  intros (s & v & Hv & E & Sp & Sn) (s' & v' & Hv' & E' & Sp' & Sn') Hz.
  pose proof (RN_nonneg _ _ Hv) as [_ V0].
  pose proof (RN_nonneg _ _ Hv') as [_ V0'].
  pose proof (encodes_valid _ _ _ E) as Vr.
  pose proof (encodes_valid _ _ _ E') as Vr'.
  assert (Z0 : z = 0%R -> v = 0%R)
    by (intros ->; rewrite Rabs_R0 in Hv; now apply RN_0).
  assert (Z0' : z' = 0%R -> v' = 0%R)
    by (intros ->; rewrite Rabs_R0 in Hv'; now apply RN_0).
  assert (Mono : (0 <= z)%R -> (v <= v')%R).
  { intros P. apply (RN_mono (Rabs z) (Rabs z')); try assumption.
    rewrite !Rabs_pos_eq by lra. exact Hz. }
  assert (Mono' : (z' <= 0)%R -> (v' <= v)%R).
  { intros P. apply (RN_mono (Rabs z') (Rabs z)); try assumption.
    rewrite <- (Rabs_Ropp z), <- (Rabs_Ropp z'), !Rabs_pos_eq by lra. lra. }
  pose proof (bpow_pos 1024) as B.
  destruct E as [[Ev ->] | [[Ev (m & e & -> & V & Em)] | [Ev ->]]];
    destruct E' as [[Ev' ->] | [[Ev' (m' & e' & -> & V' & Em')] | [Ev' ->]]].
  - reflexivity.
  - (* zero, finite *)
    unfold SFleb. cbn [SFcompare]. destruct s'; [| reflexivity].
    exfalso. destruct (Rtotal_order z' 0) as [L | [L | L]].
    + specialize (Mono' ltac:(lra)). lra.
    + specialize (Z0' L). lra.
    + specialize (Sp' L). discriminate.
  - (* zero, infinity *)
    unfold SFleb. cbn [SFcompare]. destruct s'; [| reflexivity].
    exfalso. destruct (Rtotal_order z' 0) as [L | [L | L]].
    + specialize (Mono' ltac:(lra)). lra.
    + specialize (Z0' L). lra.
    + specialize (Sp' L). discriminate.
  - (* finite, zero *)
    unfold SFleb. cbn [SFcompare]. destruct s; [reflexivity |].
    exfalso. destruct (Rtotal_order z 0) as [L | [L | L]].
    + specialize (Sn L). discriminate.
    + specialize (Z0 L). lra.
    + specialize (Mono ltac:(lra)). lra.
  - (* finite, finite *)
    apply SFleb_SF2R; try assumption; try reflexivity.
    cbn [SF2R]. rewrite <- Em, <- Em' || idtac.
    destruct (Rtotal_order z 0) as [L | [L | L]].
    + rewrite (Sn L). cbn [cond_Zopp]. rewrite F2R_opp, <- Em.
      destruct (Rtotal_order z' 0) as [L' | [L' | L']].
      * rewrite (Sn' L'). cbn [cond_Zopp]. rewrite F2R_opp, <- Em'.
        specialize (Mono' ltac:(lra)). lra.
      * specialize (Z0' L'). lra.
      * rewrite (Sp' L'). cbn [cond_Zopp]. rewrite <- Em'. lra.
    + specialize (Z0 L). lra.
    + rewrite (Sp L), (Sp' ltac:(lra)). cbn [cond_Zopp]. rewrite <- Em, <- Em'.
      apply Mono. lra.
  - (* finite, infinity *)
    unfold SFleb. cbn [SFcompare]. destruct s'; [| reflexivity].
    exfalso. destruct (Rtotal_order z' 0) as [L | [L | L]].
    + destruct (Rtotal_order z 0) as [K | [K | K]].
      * specialize (Mono' ltac:(lra)). lra.
      * specialize (Z0 K). lra.
      * lra.
    + specialize (Z0' L). lra.
    + specialize (Sp' L). discriminate.
  - (* infinity, zero *)
    unfold SFleb. cbn [SFcompare]. destruct s; [reflexivity |].
    exfalso. destruct (Rtotal_order z 0) as [L | [L | L]].
    + specialize (Sn L). discriminate.
    + specialize (Z0 L). lra.
    + specialize (Mono ltac:(lra)). lra.
  - (* infinity, finite *)
    unfold SFleb. cbn [SFcompare]. destruct s; [reflexivity |].
    exfalso. destruct (Rtotal_order z 0) as [L | [L | L]].
    + specialize (Sn L). discriminate.
    + specialize (Z0 L). lra.
    + specialize (Mono ltac:(lra)). lra.
  - (* infinity, infinity *)
    unfold SFleb. cbn [SFcompare]. destruct s, s'; try reflexivity.
    exfalso. destruct (Rtotal_order z 0) as [L | [L | L]].
    + specialize (Sn L). discriminate.
    + specialize (Z0 L). lra.
    + destruct (Rtotal_order z' 0) as [L' | [L' | L']]; try lra;
        specialize (Sp' L'); discriminate.
Qed.

(** *** The operations *)

Lemma iter_xO_pow2 (m d : positive) :
  Z.pos (Pos.iter xO m d) = Z.pos m * 2 ^ Z.pos d.
Proof.
  induction d as [| d IH] using Pos.peano_ind.
  - cbn [Pos.iter]. rewrite Pos2Z.inj_xO. lia.
  - rewrite Pos.iter_succ, Pos2Z.inj_xO, IH, Pos2Z.inj_succ, Z.pow_succ_r by lia.
    ring.
Qed.

Lemma shl_align_correct (m : positive) (e e0 : Z) :
  F2R (Z.pos (fst (shl_align m e e0))) (snd (shl_align m e e0)) = F2R (Z.pos m) e
  /\ (e0 <= e -> snd (shl_align m e e0) = e0
               /\ Z.pos (fst (shl_align m e e0)) = Z.pos m * 2 ^ (e - e0))
  /\ (e <= e0 -> shl_align m e e0 = (m, e)).
Proof.
  unfold shl_align. destruct (e0 - e) as [| d | d] eqn:E; cbn [fst snd].
  - split; [reflexivity |]. split; intros H; [| reflexivity].
    replace (e - e0) with 0 by lia. split; lia.
  - split; [reflexivity |]. split; intros H; [lia | reflexivity].
  - assert (Ed : e - e0 = Z.pos d) by lia.
    rewrite iter_xO_pow2. split; [| split; intros H; [| lia]].
    + rewrite F2R_shift by lia. f_equal. lia.
    + rewrite Ed. auto.
Qed.

Lemma Zdigits2_shift (m k : Z) :
  0 < m -> 0 <= k -> Zdigits2 (m * 2 ^ k) = Zdigits2 m + k.
Proof.
  intros Hm Hk. pose proof (Zdigits2_bounds m Hm) as [B1 B2].
  assert (0 < 2 ^ k) by (apply Z.pow_pos_nonneg; lia).
  assert (0 < Zdigits2 m).
  { destruct m; try lia. cbn. lia. }
  apply Zdigits2_unique; [| nia].
  replace (Zdigits2 m + k - 1) with (Zdigits2 m - 1 + k) by lia.
  rewrite !Z.pow_add_r by lia. nia.
Qed.

Theorem binary_round_correct (s : bool) (m : positive) (e : Z) :
  exists v : R,
    RN (F2R (Z.pos m) e) v /\ encodes s v (binary_round prec emax s m e).
Proof.
  unfold binary_round.
  change (Z.pos (digits2_pos m)) with (Zdigits2 (Z.pos m)).
  set (e0 := fexp (Zdigits2 (Z.pos m) + e)).
  destruct (shl_align_correct m e e0) as (Hv & Hle & Hge).
  destruct (shl_align m e e0) as [mz ez] eqn:Es. cbn [fst snd] in *.
  apply binary_round_aux_correct; [lia | | cbn [inbetween]; now rewrite Hv].
  destruct (Z_le_gt_dec e0 e) as [L | L].
  - destruct (Hle L) as [-> Em]. rewrite Em, Zdigits2_shift by lia.
    replace (Zdigits2 (Z.pos m) + (e - e0) + e0) with (Zdigits2 (Z.pos m) + e) by lia.
    subst e0. lia.
  - injection (Hge ltac:(lia)) as -> ->. subst e0. lia.
Qed.

Lemma rounds_of_magnitude (s : bool) (z x v : R) (r : spec_float) :
  RN x v -> encodes s v r ->
  z = (if s then - x else x)%R -> rounds z r.
Proof.
  intros Hv E ->. pose proof (RN_nonneg _ _ Hv) as [X0 _].
  exists s, v. replace (Rabs (if s then (- x)%R else x)) with x.
  - split; [exact Hv |]. split; [exact E |].
    destruct s; split; intros H; try reflexivity; lra.
  - destruct s; [rewrite Rabs_Ropp |]; rewrite Rabs_pos_eq; lra.
Qed.

Lemma binary_normalize_correct (m e : Z) :
  rounds (F2R m e) (binary_normalize prec emax m e false).
Proof.
  destruct m as [| p | p]; cbn [binary_normalize].
  - rewrite F2R_0. apply rounds_zero.
  - destruct (binary_round_correct false p e) as (v & Hv & E).
    exact (rounds_of_magnitude false _ _ v _ Hv E eq_refl).
  - destruct (binary_round_correct true p e) as (v & Hv & E).
    apply (rounds_of_magnitude true _ _ v _ Hv E).
    change (Z.neg p) with (- Z.pos p). apply F2R_opp.
Qed.

Lemma SF2R_align (s : bool) (m : positive) (e e0 : Z) :
  e0 <= e ->
  F2R (cond_Zopp s (Z.pos (fst (shl_align m e e0)))) e0
  = SF2R (S754_finite s m e).
Proof.
  intros H. destruct (shl_align_correct m e e0) as (Hv & Hle & _).
  destruct (Hle H) as [He _]. rewrite He in Hv. cbn [SF2R].
  destruct s; cbn [cond_Zopp]; rewrite ?F2R_opp, Hv; reflexivity.
Qed.

Theorem SFadd_rounds (x y : spec_float) :
  valid_binary x = true -> valid_binary y = true ->
  is_finite_SF x = true -> is_finite_SF y = true ->
  rounds (SF2R x + SF2R y) (SFadd prec emax x y).
Proof.
  intros Vx Vy Fx Fy.
  destruct x as [sx | sx | | sx mx ex], y as [sy | sy | | sy my ey];
    try discriminate; cbn [SFadd].
  - cbn [SF2R]. rewrite Rplus_0_l. destruct sx, sy; apply rounds_zero.
  - rewrite Rplus_0_l. now apply rounds_self.
  - rewrite Rplus_0_r. now apply rounds_self.
  - rewrite <- (SF2R_align sx mx ex (Z.min ex ey)) by lia.
    rewrite <- (SF2R_align sy my ey (Z.min ex ey)) by lia.
    rewrite <- F2R_add. apply binary_normalize_correct.
Qed.

Theorem SFsub_rounds (x y : spec_float) :
  valid_binary x = true -> valid_binary y = true ->
  is_finite_SF x = true -> is_finite_SF y = true ->
  rounds (SF2R x - SF2R y) (SFsub prec emax x y).
Proof.
  intros Vx Vy Fx Fy.
  destruct x as [sx | sx | | sx mx ex], y as [sy | sy | | sy my ey];
    try discriminate; cbn [SFsub].
  - cbn [SF2R]. rewrite Rminus_0_r. destruct sx, sy; apply rounds_zero.
  - replace (SF2R (S754_zero sx) - SF2R (S754_finite sy my ey))%R
      with (SF2R (S754_finite (negb sy) my ey)).
    + apply rounds_self; [exact Vy | reflexivity].
    + cbn [SF2R]. destruct sy; cbn [negb cond_Zopp]; rewrite ?F2R_opp; lra.
  - change (SF2R (S754_zero sy)) with 0%R. rewrite Rminus_0_r.
    now apply rounds_self.
  - rewrite <- (SF2R_align sx mx ex (Z.min ex ey)) by lia.
    rewrite <- (SF2R_align sy my ey (Z.min ex ey)) by lia.
    unfold Rminus. rewrite <- F2R_opp, <- F2R_add. apply binary_normalize_correct.
Qed.

Lemma F2R_mul (m n e f : Z) : (F2R m e * F2R n f)%R = F2R (m * n) (e + f).
Proof. unfold F2R. rewrite mult_IZR, bpow_add. ring. Qed.

Lemma Zdigits2_mul (m n : Z) :
  0 < m -> 0 < n -> Zdigits2 m + Zdigits2 n - 1 <= Zdigits2 (m * n).
Proof.
  intros Hm Hn.
  pose proof (Zdigits2_bounds m Hm) as [B1 _].
  pose proof (Zdigits2_bounds n Hn) as [B2 _].
  assert (0 < Zdigits2 m) by (destruct m; try lia; cbn; lia).
  assert (0 < Zdigits2 n) by (destruct n; try lia; cbn; lia).
  apply Zdigits2_ge; [| lia].
  replace (Zdigits2 m + Zdigits2 n - 1 - 1)
    with ((Zdigits2 m - 1) + (Zdigits2 n - 1)) by lia.
  rewrite Z.pow_add_r by lia.
  assert (0 < 2 ^ (Zdigits2 m - 1)) by (apply Z.pow_pos_nonneg; lia).
  assert (0 < 2 ^ (Zdigits2 n - 1)) by (apply Z.pow_pos_nonneg; lia).
  nia.
Qed.

Lemma canonical_digits (m : positive) (e : Z) :
  canonical_cell (Z.pos m) e ->
  1 <= Zdigits2 (Z.pos m) <= 53 /\ (e = emin \/ Zdigits2 (Z.pos m) = 53).
Proof.
  intros (He & Hm & Hn).
  assert (1 <= Zdigits2 (Z.pos m)) by (cbn; lia).
  assert (Zdigits2 (Z.pos m) <= 53) by (apply Zdigits2_le; lia).
  split; [lia |]. destruct Hn as [-> | Hn]; [left; reflexivity | right].
  assert (53 <= Zdigits2 (Z.pos m)) by (apply Zdigits2_ge; lia). lia.
Qed.

Theorem SFmul_rounds (x y : spec_float) :
  valid_binary x = true -> valid_binary y = true ->
  is_finite_SF x = true -> is_finite_SF y = true ->
  rounds (SF2R x * SF2R y) (SFmul prec emax x y).
Proof.
  intros Vx Vy Fx Fy.
  destruct x as [sx | sx | | sx mx ex], y as [sy | sy | | sy my ey];
    try discriminate; cbn [SFmul].
  - cbn [SF2R]. rewrite Rmult_0_l. apply rounds_zero.
  - change (SF2R (S754_zero sx)) with 0%R. rewrite Rmult_0_l. apply rounds_zero.
  - change (SF2R (S754_zero sy)) with 0%R. rewrite Rmult_0_r. apply rounds_zero.
  - destruct (valid_canonical _ _ _ Vx) as [Cx Bx].
    destruct (valid_canonical _ _ _ Vy) as [Cy By].
    destruct (canonical_digits _ _ Cx) as [Dx Nx].
    destruct (canonical_digits _ _ Cy) as [Dy Ny].
    pose proof (Zdigits2_mul (Z.pos mx) (Z.pos my) ltac:(lia) ltac:(lia)) as Dm.
    destruct Cx as (Ex & _ & _), Cy as (Ey & _ & _).
    destruct (binary_round_aux_correct (xorb sx sy) (Z.pos (mx * my)) (ex + ey)
                loc_Exact (F2R (Z.pos (mx * my)) (ex + ey))) as (v & Hv & E).
    + lia.
    + rewrite fexp_spec, Pos2Z.inj_mul. lia.
    + reflexivity.
    + apply (rounds_of_magnitude (xorb sx sy) _ _ v _ Hv E).
      cbn [SF2R]. rewrite F2R_mul, Pos2Z.inj_mul.
      destruct sx, sy; cbn [xorb cond_Zopp];
        rewrite ?Z.mul_opp_l, ?Z.mul_opp_r, ?Z.opp_involutive, ?F2R_opp;
        reflexivity.
Qed.

(** The division of two positive mantissas, with any exponents: what
    [SFdiv_core_binary] hands to the rounding. *)
Lemma new_location_correct (d r : Z) :
  0 < d -> 0 <= r < d ->
  match new_location d r with
  | loc_Exact => r = 0
  | loc_Inexact c => 0 < r /\ (2 * r ?= d) = c
  end.
Proof.
  intros Hd Hr. unfold new_location, new_location_even, new_location_odd.
  destruct (Z.even d) eqn:Ev.
  - destruct (Z.eqb_spec r 0) as [E | N]; [exact E |]. split; [lia | reflexivity].
  - destruct (Z.eqb_spec r 0) as [E | N]; [exact E |]. split; [lia |].
    assert (Od : Z.odd d = true) by (rewrite <- Z.negb_even, Ev; reflexivity).
    apply Z.odd_spec in Od as [k Hk].
    destruct (Z.compare_spec (2 * r + 1) d) as [C | C | C];
      [apply Z.compare_lt_iff | apply Z.compare_lt_iff | apply Z.compare_gt_iff];
      lia.
Qed.

Lemma SFdiv_core_correct (m1 e1 m2 e2 : Z) :
  0 < m1 -> 0 < m2 ->
  let '(q, e, l) := SFdiv_core_binary prec emax m1 e1 m2 e2 in
  0 <= q /\ e <= fexp (Zdigits2 q + e)
  /\ inbetween q e l (F2R m1 e1 / F2R m2 e2).
Proof.
  intros H1 H2. unfold SFdiv_core_binary.
  set (d1 := Zdigits2 m1). set (d2 := Zdigits2 m2).
  set (e := Z.min (fexp (d1 + e1 - (d2 + e2))) (e1 - e2)).
  set (s := e1 - e2 - e).
  assert (Hs : 0 <= s) by (subst s e; lia).
  set (m := match s with
            | Z.pos _ => Z.shiftl m1 s
            | 0 => m1
            | Z.neg _ => 0
            end).
  assert (Em : m = m1 * 2 ^ s).
  { subst m. destruct s; [lia | | lia]. apply Z.shiftl_mul_pow2. lia. }
  clearbody m.
  pose proof (Z_div_mod m m2 ltac:(lia)) as Hdiv.
  destruct (Z.div_eucl m m2) as [q r]. destruct Hdiv as [Eq Hr].
  assert (P2 : 0 < 2 ^ s) by (apply Z.pow_pos_nonneg; lia).
  assert (Hq : 0 <= q) by nia.
  split; [exact Hq |]. split.
  - (* enough digits *)
    assert (Dm : Zdigits2 m = d1 + s) by (rewrite Em; apply Zdigits2_shift; lia).
    assert (D : d1 + s - d2 <= Zdigits2 q).
    { pose proof (Zdigits2_nonneg q).
      destruct (Z_le_gt_dec (d1 + s - d2) 0) as [L | L]; [lia |].
      apply Zdigits2_ge; [| lia].
      pose proof (Zdigits2_bounds m ltac:(nia)) as [Bm _].
      pose proof (Zdigits2_bounds m2 H2) as [_ B2]. fold d2 in B2.
      rewrite Dm in Bm.
      assert (0 < d2) by (subst d2; destruct m2; try lia; cbn; lia).
      assert (E2 : 2 ^ (d1 + s - 1) = 2 ^ (d1 + s - d2 - 1) * 2 ^ d2).
      { rewrite <- Z.pow_add_r by lia. f_equal. lia. }
      assert (0 < 2 ^ (d1 + s - d2 - 1)) by (apply Z.pow_pos_nonneg; lia).
      destruct (Z_le_gt_dec (2 ^ (d1 + s - d2 - 1)) q) as [G | G]; [exact G |].
      exfalso. nia. }
    subst s e. rewrite !fexp_spec in *. lia.
  - (* the location *)
    set (X := (F2R m1 e1 / F2R m2 e2)%R).
    pose proof (bpow_pos e) as Be. pose proof (bpow_pos e2) as Be2.
    assert (Y0 : (0 < IZR m2)%R) by (apply IZR_lt; exact H2).
    assert (EX : (X * IZR m2 = IZR m * bpow e)%R).
    { subst X. unfold F2R. rewrite Em, mult_IZR, <- (bpow_Z s Hs).
      replace e1 with (s + e + e2) by (subst s; lia).
      rewrite !bpow_add. field. split; lra. }
    rewrite Eq, plus_IZR, mult_IZR in EX.
    pose proof (new_location_correct m2 r H2 Hr) as Hl.
    assert (R0 : (0 <= IZR r)%R) by (apply IZR_le; lia).
    assert (R1 : (IZR r < IZR m2)%R) by (apply IZR_lt; lia).
    destruct (new_location m2 r) as [| c]; cbn [inbetween].
    + subst r. unfold F2R. simpl (IZR 0) in EX. nra.
    + destruct Hl as [Hr0 Hc].
      assert (R2 : (0 < IZR r)%R) by (apply IZR_lt; exact Hr0).
      unfold F2R. rewrite !plus_IZR, mult_IZR. simpl (IZR 1). simpl (IZR 2).
      split; [split; nra |].
      destruct (Z.compare_spec (2 * r) m2) as [C | C | C]; subst c.
      * apply (f_equal IZR) in C. rewrite mult_IZR in C. simpl (IZR 2) in C. nra.
      * apply IZR_lt in C. rewrite mult_IZR in C. simpl (IZR 2) in C. nra.
      * apply IZR_lt in C. rewrite mult_IZR in C. simpl (IZR 2) in C. nra.
Qed.

Theorem SFdiv_rounds (x : spec_float) (sy : bool) (my : positive) (ey : Z) :
  is_finite_SF x = true ->
  rounds (SF2R x / SF2R (S754_finite sy my ey))
         (SFdiv prec emax x (S754_finite sy my ey)).
Proof.
  intros Fx. destruct x as [sx | sx | | sx mx ex]; try discriminate; cbn [SFdiv].
  - change (SF2R (S754_zero sx)) with 0%R. unfold Rdiv. rewrite Rmult_0_l.
    apply rounds_zero.
  - pose proof (SFdiv_core_correct (Z.pos mx) ex (Z.pos my) ey
                  ltac:(lia) ltac:(lia)) as H.
    destruct (SFdiv_core_binary prec emax (Z.pos mx) ex (Z.pos my) ey)
      as [[q e] l].
    destruct H as (Hq & HP & Hi).
    destruct (binary_round_aux_correct (xorb sx sy) q e l _ Hq HP Hi)
      as (v & Hv & E).
    apply (rounds_of_magnitude (xorb sx sy) _ _ v _ Hv E).
    cbn [SF2R]. pose proof (F2R_pos my ey). pose proof (F2R_pos mx ex).
    destruct sx, sy; cbn [xorb cond_Zopp]; rewrite ?F2R_opp; field; lra.
Qed.

(** Two valid floats of the same value and sign are the same float. *)
Lemma canonical_unique (m m' : positive) (e e' : Z) :
  canonical_cell (Z.pos m) e -> canonical_cell (Z.pos m') e' ->
  F2R (Z.pos m) e = F2R (Z.pos m') e' -> m = m' /\ e = e'.
Proof.
  intros C C' E. pose proof (canonical_compare m m' e e' C C') as H.
  destruct (Z.compare_spec e e') as [<- | L | L]; try lra.
  change (Pos.compare_cont Eq m m') with (Pos.compare m m') in H.
  destruct (Pos.compare_spec m m') as [K | K | K]; try lra. auto.
Qed.

(** A float that rounds a nonzero representable value is that value. *)
Lemma rounds_representable (f r : spec_float) :
  valid_binary f = true -> is_finite_SF f = true -> SF2R f <> 0%R ->
  rounds (SF2R f) r -> r = f.
Proof.
  intros V F N (s & v & Hv & E & Sp & Sn).
  destruct f as [sf | sf | | sf m e]; try discriminate; [now elim N |].
  destruct (valid_canonical _ _ _ V) as [C Hb].
  pose proof (F2R_pos m e) as Hp.
  assert (A : Rabs (SF2R (S754_finite sf m e)) = F2R (Z.pos m) e).
  { cbn [SF2R]. destruct sf; cbn [cond_Zopp]; rewrite ?F2R_opp, ?Rabs_Ropp;
      apply Rabs_pos_eq; lra. }
  rewrite A in Hv.
  assert (Ev : v = F2R (Z.pos m) e).
  { apply Rle_antisym.
    - exact (RN_mono _ _ _ _ Hv (RN_exact m e C) (Rle_refl _)).
    - exact (RN_mono _ _ _ _ (RN_exact m e C) Hv (Rle_refl _)). }
  assert (Es : s = sf).
  { cbn [SF2R] in Sp, Sn. destruct sf; cbn [cond_Zopp] in Sp, Sn;
      rewrite ?F2R_opp in Sp, Sn; [apply Sn | apply Sp]; lra. }
  subst s v.
  assert (Hlt : (F2R (Z.pos m) e < bpow 1024)%R).
  { destruct C as (_ & Hm & _).
    apply Rlt_le_trans with (F2R (2 ^ 53) e); [apply F2R_lt; lia |].
    rewrite F2R_pow2 by lia. apply bpow_le. lia. }
  destruct E as [[E0 _] | [[_ (m' & e' & -> & V' & Em)] | [Eo _]]]; try lra.
  destruct (valid_canonical _ _ _ V') as [C' _].
  destruct (canonical_unique m m' e e' C C' Em) as [<- <-]. reflexivity.
Qed.

End IEEE.

(** *** Primitive floats *)

Import IEEE.

Definition B2R (a : float) : R := SF2R (Prim2SF a).

Definition finite (a : float) : Prop := is_finite_SF (Prim2SF a) = true.

Lemma mul_rounds (a b : float) :
  finite a -> finite b -> rounds (B2R a * B2R b) (Prim2SF (a * b)).
Proof.
  intros Fa Fb. rewrite mul_spec.
  apply SFmul_rounds; auto using Prim2SF_valid.
Qed.

Lemma add_rounds (a b : float) :
  finite a -> finite b -> rounds (B2R a + B2R b) (Prim2SF (a + b)).
Proof.
  intros Fa Fb. rewrite add_spec.
  apply SFadd_rounds; auto using Prim2SF_valid.
Qed.

Lemma sub_rounds (a b : float) :
  finite a -> finite b -> rounds (B2R a - B2R b) (Prim2SF (a - b)).
Proof.
  intros Fa Fb. rewrite sub_spec.
  apply SFsub_rounds; auto using Prim2SF_valid.
Qed.

Lemma div_rounds (a b : float) :
  finite a -> finite b -> B2R b <> 0%R ->
  rounds (B2R a / B2R b) (Prim2SF (a / b)).
Proof.
  intros Fa Fb Nb. rewrite div_spec. unfold B2R, finite in *.
  destruct (Prim2SF b) as [s | s | | s m e]; try discriminate; [now elim Nb |].
  now apply SFdiv_rounds.
Qed.

Lemma self_rounds (a : float) : finite a -> rounds (B2R a) (Prim2SF a).
Proof. intros F. apply rounds_self; [apply Prim2SF_valid | exact F]. Qed.

Lemma leb_B2R (a b : float) :
  finite a -> finite b -> (a <=? b)%float = true <-> (B2R a <= B2R b)%R.
Proof.
  intros Fa Fb. rewrite leb_spec. apply SFleb_SF2R; auto using Prim2SF_valid.
Qed.

Lemma ltb_B2R (a b : float) :
  finite a -> finite b -> (a <? b)%float = true <-> (B2R a < B2R b)%R.
Proof.
  intros Fa Fb. rewrite ltb_spec. apply SFltb_SF2R; auto using Prim2SF_valid.
Qed.

Lemma rounds_leb_prim (z z' : R) (a b : float) :
  rounds z (Prim2SF a) -> rounds z' (Prim2SF b) -> (z <= z')%R ->
  (a <=? b)%float = true.
Proof. intros Ha Hb H. rewrite leb_spec. exact (rounds_leb z z' _ _ Ha Hb H). Qed.

(** A float between two finite floats is finite. *)
Lemma finite_between (lo hi x : float) :
  finite lo -> finite hi ->
  (lo <=? x)%float = true -> (x <=? hi)%float = true -> finite x.
Proof.
  unfold finite. rewrite !leb_spec. unfold SFleb.
  destruct (Prim2SF lo) as [sl | sl | | sl ml el]; try discriminate;
    destruct (Prim2SF hi) as [sh | sh | | sh mh eh]; try discriminate;
    destruct (Prim2SF x) as [s | [|] | | s m e]; cbn; try reflexivity;
    try discriminate; intros _ _; try destruct sl; try destruct sh;
    discriminate.
Qed.

(** *** Comparisons and the predicates of [float_pow] *)

Lemma SFcompare_refl (x : spec_float) :
  x <> S754_nan -> SFcompare x x = Some Eq.
Proof.
  destruct x as [s | s | | s m e]; cbn [SFcompare]; try congruence.
  - intros _. destruct s; reflexivity.
  - intros _. rewrite Z.compare_refl.
    change (Pos.compare_cont Eq m m) with (Pos.compare m m).
    rewrite Pos.compare_refl. destruct s; reflexivity.
Qed.

Lemma is_nan_false (x : float) : not_nan x -> is_nan x = false.
Proof.
  intros H. unfold is_nan. rewrite eqb_spec. unfold SFeqb.
  rewrite (SFcompare_refl _ H). reflexivity.
Qed.

Lemma finite_not_nan (x : float) : finite x -> not_nan x.
Proof. unfold finite, not_nan. intros H E. rewrite E in H. discriminate. Qed.

Lemma leb_ltb_false (a b : float) :
  (a <=? b)%float = true -> (b <? a)%float = false.
Proof.
  rewrite ltb_spec, leb_spec. unfold SFltb, SFleb.
  rewrite (SFcompare_antisym (Prim2SF a) (Prim2SF b)).
  destruct (SFcompare (Prim2SF a) (Prim2SF b)) as [[| |] |]; cbn; congruence.
Qed.

Lemma eqb_sym (a b : float) : (a =? b)%float = (b =? a)%float.
Proof.
  rewrite !eqb_spec. unfold SFeqb.
  rewrite (SFcompare_antisym (Prim2SF a) (Prim2SF b)).
  destruct (SFcompare (Prim2SF a) (Prim2SF b)) as [[| |] |]; reflexivity.
Qed.

Lemma leb_neq_ltb (a b : float) :
  (a <=? b)%float = true -> (a =? b)%float = false -> (a <? b)%float = true.
Proof.
  rewrite ltb_spec, leb_spec, eqb_spec. unfold SFltb, SFleb, SFeqb.
  destruct (SFcompare (Prim2SF a) (Prim2SF b)) as [[| |] |]; congruence.
Qed.

Lemma finite_is_infinity (x : float) : finite x -> is_infinity x = false.
Proof.
  unfold finite, is_infinity. rewrite eqb_spec, abs_spec.
  change (Prim2SF infinity) with (S754_infinity false).
  destruct (Prim2SF x) as [s | s | | s m e]; try discriminate; reflexivity.
Qed.

Lemma finite_ltb_infinity (x : float) : finite x -> (x <? infinity)%float = true.
Proof.
  unfold finite. rewrite ltb_spec.
  change (Prim2SF infinity) with (S754_infinity false).
  destruct (Prim2SF x) as [s | s | | s m e]; try discriminate; reflexivity.
Qed.

(** A positive float is finite or the positive infinity. *)
Lemma positive_finite_or_infinity (x : float) :
  (0 <? x)%float = true ->
  (is_infinity x = false /\ finite x) \/ Prim2SF x = S754_infinity false.
Proof.
  unfold finite, is_infinity. rewrite ltb_spec, eqb_spec, abs_spec.
  change (Prim2SF 0) with (S754_zero false).
  change (Prim2SF infinity) with (S754_infinity false).
  destruct (Prim2SF x) as [s | [|] | | s m e]; try discriminate; auto.
Qed.

(** The absolute value of a float that is not below zero compares as the
    float does. *)
Lemma abs_nonneg_compare (x y : float) :
  (0 <=? x)%float = true ->
  SFcompare (Prim2SF (abs x)) (Prim2SF y) = SFcompare (Prim2SF x) (Prim2SF y)
  /\ SFcompare (Prim2SF y) (Prim2SF (abs x)) = SFcompare (Prim2SF y) (Prim2SF x).
Proof.
  rewrite leb_spec, abs_spec. unfold SFleb.
  change (Prim2SF 0) with (S754_zero false).
  destruct (Prim2SF x) as [s | [|] | | [|] m e]; try discriminate;
    intros _; split; destruct (Prim2SF y) as [s' | s' | | s' m' e']; reflexivity.
Qed.

Lemma B2R_0 : B2R 0 = 0%R.
Proof. reflexivity. Qed.

Lemma B2R_1 : B2R 1 = 1%R.
Proof.
  unfold B2R. change (Prim2SF 1) with (S754_finite false (2 ^ 52) (-52)).
  cbn [SF2R cond_Zopp]. change (Z.pos (2 ^ 52)) with (2 ^ 52).
  rewrite F2R_pow2 by lia. reflexivity.
Qed.

Lemma finite_0 : finite 0.
Proof. reflexivity. Qed.

Lemma finite_1 : finite 1.
Proof. reflexivity. Qed.

(** A float in the unit interval, by the comparisons of the program. *)
Definition unit (x : float) : Prop :=
  (0 <=? x)%float = true /\ (x <=? 1)%float = true.

Lemma unit_finite (x : float) : unit x -> finite x.
Proof. intros [H0 H1]. exact (finite_between 0 1 x finite_0 finite_1 H0 H1). Qed.

Lemma unit_B2R (x : float) : unit x -> (0 <= B2R x <= 1)%R.
Proof.
  intros H. pose proof (unit_finite x H) as F. destruct H as [H0 H1].
  apply (leb_B2R 0 x finite_0 F) in H0. apply (leb_B2R x 1 F finite_1) in H1.
  rewrite B2R_0 in H0. rewrite B2R_1 in H1. lra.
Qed.

Lemma unit_of_rounds (z : R) (x : float) :
  rounds z (Prim2SF x) -> (0 <= z <= 1)%R -> unit x.
Proof.
  intros H [H0 H1]. split.
  - apply (rounds_leb_prim 0 z); [apply (self_rounds 0 finite_0) | exact H | exact H0].
  - apply (rounds_leb_prim z 1); [exact H | | exact H1].
    rewrite <- B2R_1. apply (self_rounds 1 finite_1).
Qed.

Lemma abs_nonneg_eqb (x y : float) :
  (0 <=? x)%float = true -> (abs x =? y)%float = (x =? y)%float.
Proof.
  intros H. rewrite !eqb_spec. unfold SFeqb.
  now rewrite (proj1 (abs_nonneg_compare x y H)).
Qed.

Lemma abs_nonneg_ltb (x y : float) :
  (0 <=? x)%float = true -> (y <? abs x)%float = (y <? x)%float.
Proof.
  intros H. rewrite !ltb_spec. unfold SFltb.
  now rewrite (proj2 (abs_nonneg_compare x y H)).
Qed.

Lemma infinity_is_infinity (x : float) :
  Prim2SF x = S754_infinity false -> is_infinity x = true.
Proof.
  intros H. unfold is_infinity. rewrite eqb_spec, abs_spec, H. reflexivity.
Qed.

Lemma unit_0 : unit 0.
Proof. split; reflexivity. Qed.

Lemma unit_1 : unit 1.
Proof. split; reflexivity. Qed.

(** A power of a base in the unit interval with a positive exponent, the
    infinite one included, is computed without an exception and lies in the
    unit interval. *)
Lemma float_pow_unit (pow : float -> float -> float) (w e : float) :
  pow_in_unit pow -> unit w -> (0 <? e)%float = true ->
  exists r : float, float_pow pow w e = Ok r /\ unit r.
Proof.
  intros Hpow Hw He. pose proof (unit_finite w Hw) as Fw.
  destruct Hw as [H0 H1]. unfold float_pow.
  rewrite (ltb_0_eqb e He).
  rewrite (is_nan_false w (finite_not_nan w Fw)).
  rewrite (is_nan_false e (ltb_not_nan_r 0 e He)).
  destruct (positive_finite_or_infinity e He) as [[Ie Fe] | Einf].
  - rewrite Ie, (finite_is_infinity w Fw).
    rewrite (leb_ltb_false 0 w H0). cbn [andb].
    destruct (w =? 0)%float eqn:W0.
    + rewrite (leb_ltb_false 0 e (ltb_leb 0 e He)).
      destruct (is_odd_integer e); eexists; split; try reflexivity;
        [split; assumption | exact unit_0].
    + destruct (w =? 1)%float eqn:W1.
      * eexists; split; [reflexivity | exact unit_1].
      * assert (P0 : (0 <? w)%float = true)
          by (apply leb_neq_ltb; [exact H0 | now rewrite eqb_sym]).
        assert (P1 : (w <? 1)%float = true) by (now apply leb_neq_ltb).
        pose proof (Hpow w e P0 P1 He (finite_ltb_infinity e Fe)) as [R0 R1].
        assert (Hr : unit (pow w e)) by (split; assumption).
        rewrite (finite_is_infinity _ (unit_finite _ Hr)).
        eexists; split; [reflexivity | exact Hr].
  - rewrite (infinity_is_infinity e Einf).
    rewrite (abs_nonneg_eqb w 1 H0), (abs_nonneg_ltb w 1 H0), He.
    rewrite (leb_ltb_false w 1 H1). cbn [Bool.eqb].
    destruct (w =? 1)%float; eexists; split; try reflexivity;
      [exact unit_1 | exact unit_0].
Qed.

(** *** Bounds through the operations of the program *)

Lemma leb_trans (a b c : float) :
  finite a -> finite b -> finite c ->
  (a <=? b)%float = true -> (b <=? c)%float = true -> (a <=? c)%float = true.
Proof.
  intros Fa Fb Fc H1 H2.
  apply (leb_B2R a b Fa Fb) in H1. apply (leb_B2R b c Fb Fc) in H2.
  apply (leb_B2R a c Fa Fc). lra.
Qed.

Lemma rounds_nonneg (z : R) (x : float) :
  rounds z (Prim2SF x) -> (0 <= z)%R -> (0 <=? x)%float = true.
Proof.
  intros H H0. exact (rounds_leb_prim 0 z 0 x (self_rounds 0 finite_0) H H0).
Qed.

Lemma rounds_le (z : R) (x k : float) :
  rounds z (Prim2SF x) -> finite k -> (z <= B2R k)%R -> (x <=? k)%float = true.
Proof.
  intros H Fk Hz. exact (rounds_leb_prim z (B2R k) x k H (self_rounds k Fk) Hz).
Qed.

Lemma rounds_ge (z : R) (x k : float) :
  rounds z (Prim2SF x) -> finite k -> (B2R k <= z)%R -> (k <=? x)%float = true.
Proof.
  intros H Fk Hz. exact (rounds_leb_prim (B2R k) z k x (self_rounds k Fk) H Hz).
Qed.

Lemma finite_round (x : float) : finite x -> exists n : Z, round x = Ok n.
Proof.
  unfold finite, round.
  destruct (Prim2SF x) as [s | s | | s m e]; try discriminate; eauto.
Qed.

(** A value between -1 and 16 is quantized without an exception. *)
Lemma to_dac_total (v : float) :
  (-1 <=? v)%float = true -> (v <=? 16)%float = true ->
  exists n : Z, to_dac v = Ok n.
Proof.
  intros Hlo Hhi.
  assert (Fv : finite v) by (apply (finite_between (-1) 16); auto; reflexivity).
  assert (F63 : finite 63) by reflexivity.
  assert (P63 : (0 <= B2R 63)%R)
    by (apply (leb_B2R 0 63 finite_0 F63); reflexivity).
  apply (leb_B2R (-1) v ltac:(reflexivity) Fv) in Hlo.
  apply (leb_B2R v 16 Fv ltac:(reflexivity)) in Hhi.
  pose proof (mul_rounds v 63 Fv F63) as Hr.
  assert (Flo : finite (-1 * 63)) by reflexivity.
  assert (Fhi : finite (16 * 63)) by reflexivity.
  assert (F : finite (v * 63)).
  { apply (finite_between (-1 * 63) (16 * 63)); auto.
    - apply (rounds_leb_prim (B2R (-1) * B2R 63) (B2R v * B2R 63)); auto.
      + apply mul_rounds; [reflexivity | exact F63].
      + nra.
    - apply (rounds_leb_prim (B2R v * B2R 63) (B2R 16 * B2R 63)); auto.
      + apply mul_rounds; [reflexivity | exact F63].
      + nra. }
  unfold to_dac. destruct (finite_round _ F) as [n ->]. cbn [bind]. eauto.
Qed.

Lemma unit_to_dac (v : float) : unit v -> exists n : Z, to_dac v = Ok n.
Proof.
  intros Hv. pose proof (unit_finite v Hv) as Fv. destruct Hv as [H0 H1].
  apply to_dac_total.
  - apply (leb_trans (-1) 0 v); auto; reflexivity.
  - apply (leb_trans v 1 16); auto; reflexivity.
Qed.

(** The magnitude of a finite float is below [2 ^ 1024]. *)
Lemma finite_B2R_lt (x : float) : finite x -> (Rabs (B2R x) < bpow 1024)%R.
Proof.
  unfold finite, B2R. pose proof (Prim2SF_valid x) as V.
  pose proof (bpow_pos 1024) as B.
  destruct (Prim2SF x) as [s | s | | s m e]; try discriminate; intros _.
  - cbn [SF2R]. rewrite Rabs_R0. exact B.
  - destruct (valid_canonical s m e V) as [(He & Hm & _) Hb].
    pose proof (F2R_pos m e) as Hp.
    assert (A : Rabs (SF2R (S754_finite s m e)) = F2R (Z.pos m) e).
    { cbn [SF2R]. destruct s; cbn [cond_Zopp]; rewrite ?F2R_opp, ?Rabs_Ropp;
        apply Rabs_pos_eq; lra. }
    rewrite A.
    apply Rlt_le_trans with (F2R (2 ^ 53) e); [apply F2R_lt; lia |].
    rewrite F2R_pow2 by lia. apply bpow_le. lia.
Qed.

Lemma positive_finite (g : float) :
  (0 <? g)%float = true -> (g <? infinity)%float = true -> finite g.
Proof.
  intros H0 Hinf. destruct (positive_finite_or_infinity g H0) as [[_ F] | E];
    [exact F |].
  rewrite ltb_spec, E in Hinf. discriminate Hinf.
Qed.

(** What lies at or above a positive finite float is positive. *)
Lemma leb_positive (k e : float) :
  finite k -> (0 < B2R k)%R -> (k <=? e)%float = true -> (0 <? e)%float = true.
Proof.
  intros Fk Pk H.
  assert (Cases : finite e \/ Prim2SF e = S754_infinity false).
  { revert H. unfold finite in *. rewrite leb_spec. unfold SFleb.
    destruct (Prim2SF k) as [sk | sk | | sk mk ek]; try discriminate;
      destruct (Prim2SF e) as [s | [|] | | s m x]; cbn; auto; try discriminate;
      destruct sk; discriminate. }
  destruct Cases as [Fe | E].
  - apply (ltb_B2R 0 e finite_0 Fe). rewrite B2R_0.
    apply (leb_B2R k e Fk Fe) in H. lra.
  - rewrite ltb_spec, E. reflexivity.
Qed.

(** The exponent [1.0 / g] of [apply_gamma] is positive for every positive
    finite [g]: it never underflows to zero. *)
Lemma reciprocal_positive (g : float) :
  (0 <? g)%float = true -> (g <? infinity)%float = true ->
  float_truediv 1 g = Ok (1 / g)%float /\ (0 <? 1 / g)%float = true.
Proof.
  intros H0 Hinf. pose proof (positive_finite g H0 Hinf) as Fg.
  split; [unfold float_truediv; now rewrite (ltb_0_eqb g H0) |].
  pose proof (proj1 (ltb_B2R 0 g finite_0 Fg) H0) as Pg. rewrite B2R_0 in Pg.
  pose proof (finite_B2R_lt g Fg) as Bg. rewrite Rabs_pos_eq in Bg by lra.
  apply (leb_positive 0x1p-1074); [reflexivity | |].
  - unfold B2R. change (Prim2SF 0x1p-1074) with (S754_finite false 1 (-1074)).
    cbn [SF2R cond_Zopp]. rewrite F2R_1. apply bpow_pos.
  - apply (rounds_ge (B2R 1 / B2R g));
      [apply div_rounds; [exact finite_1 | exact Fg | lra] | reflexivity |].
    rewrite B2R_1. unfold B2R at 1.
    change (Prim2SF 0x1p-1074) with (S754_finite false 1 (-1074)).
    cbn [SF2R cond_Zopp]. rewrite F2R_1.
    pose proof (bpow_pos (-1074)) as Bm. pose proof (bpow_pos 1024) as BM.
    assert (E : (bpow (-1024) * bpow 1024 = 1)%R)
      by (rewrite <- bpow_add; reflexivity).
    assert (L : (bpow (-1074) <= bpow (-1024))%R) by (apply bpow_le; lia).
    pose proof (bpow_pos (-1024)) as Bn.
    apply Rle_trans with (bpow (-1024)); [exact L |].
    apply Rmult_le_reg_r with (B2R g); [exact Pg |].
    unfold Rdiv. rewrite Rmult_assoc, Rinv_l by lra. nra.
Qed.

(** The local fraction [u = (t - p0) / (p1 - p0)] of a parameter within a
    segment lies in the unit interval. *)
Lemma local_fraction (p0 p1 t : float) :
  finite p0 -> finite p1 -> finite (p1 - p0) -> (0 <? p1 - p0)%float = true ->
  (p0 <=? t)%float = true -> (t <=? p1)%float = true ->
  float_truediv (t - p0) (p1 - p0) = Ok ((t - p0) / (p1 - p0))%float
  /\ unit ((t - p0) / (p1 - p0)).
Proof.
  intros F0 F1 FD PD H0 H1.
  assert (Ft : finite t) by exact (finite_between p0 p1 t F0 F1 H0 H1).
  apply (leb_B2R p0 t F0 Ft) in H0. apply (leb_B2R t p1 Ft F1) in H1.
  pose proof (sub_rounds t p0 Ft F0) as Rx.
  pose proof (sub_rounds p1 p0 F1 F0) as RD.
  set (x := (t - p0)%float) in *. set (D := (p1 - p0)%float) in *.
  assert (X0 : (0 <=? x)%float = true) by (apply (rounds_nonneg _ x Rx); lra).
  assert (XD : (x <=? D)%float = true)
    by (apply (rounds_leb_prim _ _ x D Rx RD); lra).
  assert (Fx : finite x) by exact (finite_between 0 D x finite_0 FD X0 XD).
  apply (leb_B2R 0 x finite_0 Fx) in X0. rewrite B2R_0 in X0.
  apply (leb_B2R x D Fx FD) in XD.
  pose proof (proj1 (ltb_B2R 0 D finite_0 FD) PD) as D0. rewrite B2R_0 in D0.
  split; [unfold float_truediv; now rewrite (ltb_0_eqb D PD) |].
  apply (unit_of_rounds (B2R x / B2R D));
    [apply div_rounds; [exact Fx | exact FD | lra] |].
  split.
  - apply Rmult_le_reg_r with (B2R D); [exact D0 |].
    unfold Rdiv. rewrite Rmult_assoc, Rinv_l by lra. lra.
  - apply Rmult_le_reg_r with (B2R D); [exact D0 |].
    unfold Rdiv. rewrite Rmult_assoc, Rinv_l by lra. lra.
Qed.

(** [lerp a b u] stays in the unit interval when [a] and [b] do, [b] is not
    below [a], and [u] is a fraction. *)
Lemma lerp_unit (a b u : float) :
  finite a -> finite (b - a) ->
  (0 <=? a)%float = true -> (0 <=? b - a)%float = true ->
  (a + (b - a) <=? 1)%float = true ->
  unit u -> unit (lerp a b u).
Proof.
  intros Fa Fd A0 D0 K1 Hu. unfold lerp.
  pose proof (unit_finite u Hu) as Fu. pose proof (unit_B2R u Hu) as Bu.
  set (d := (b - a)%float) in *.
  apply (leb_B2R 0 a finite_0 Fa) in A0. rewrite B2R_0 in A0.
  apply (leb_B2R 0 d finite_0 Fd) in D0. rewrite B2R_0 in D0.
  pose proof (mul_rounds d u Fd Fu) as Rp.
  set (p := (d * u)%float) in *.
  assert (P0 : (0 <=? p)%float = true) by (apply (rounds_nonneg _ p Rp); nra).
  assert (Pd : (p <=? d)%float = true) by (apply (rounds_le _ p d Rp Fd); nra).
  assert (Fp : finite p) by exact (finite_between 0 d p finite_0 Fd P0 Pd).
  apply (leb_B2R 0 p finite_0 Fp) in P0. rewrite B2R_0 in P0.
  apply (leb_B2R p d Fp Fd) in Pd.
  pose proof (add_rounds a p Fa Fp) as Rw.
  pose proof (add_rounds a d Fa Fd) as Rk.
  assert (K0 : (0 <=? a + d)%float = true)
    by (apply (rounds_nonneg _ _ Rk); lra).
  assert (Fk : finite (a + d))
    by exact (finite_between 0 1 _ finite_0 finite_1 K0 K1).
  assert (W0 : (0 <=? a + p)%float = true)
    by (apply (rounds_nonneg _ _ Rw); lra).
  assert (Wk : (a + p <=? a + d)%float = true)
    by (apply (rounds_leb_prim _ _ _ _ Rw Rk); lra).
  assert (Fw : finite (a + p))
    by exact (finite_between 0 (a + d) _ finite_0 Fk W0 Wk).
  split; [exact W0 |].
  exact (leb_trans _ _ _ Fw Fk finite_1 Wk K1).
Qed.

(** The clamp of [linear_to_srgb] brings every float, a NaN too, into the
    unit interval. *)
Lemma clamp_unit (c : float) : unit (Py.max 0 (Py.min 1 c)).
Proof.
  unfold Py.max, Py.min. destruct (c <? 1)%float eqn:C1.
  - destruct (0 <? c)%float eqn:C0.
    + split; apply ltb_leb; assumption.
    + exact unit_0.
  - change (0 <? 1)%float with true. cbn iota. exact unit_1.
Qed.

Section Totality.

Variable libm_pow : float -> float -> float.
Hypothesis libm_pow_unit : pow_in_unit libm_pow.

(** [linear_to_srgb] returns, whatever float it is given, a value that
    quantizes. *)
Lemma linear_to_srgb_total (x : float) :
  exists v : float,
    linear_to_srgb libm_pow x = Ok v
    /\ (-1 <=? v)%float = true /\ (v <=? 16)%float = true.
Proof.
  unfold linear_to_srgb. pose proof (clamp_unit x) as Hc.
  set (c := Py.max 0 (Py.min 1 x)) in *.
  pose proof (unit_finite c Hc) as Fc. pose proof (unit_B2R c Hc) as Bc.
  destruct (c <=? 0.0031308)%float.
  - exists (12.92 * c)%float. split; [reflexivity |].
    assert (Fk : finite 12.92) by reflexivity.
    assert (Pk : (0 <= B2R 12.92)%R)
      by (apply (leb_B2R 0 12.92 finite_0 Fk); reflexivity).
    pose proof (mul_rounds 12.92 c Fk Fc) as Rv.
    assert (V0 : (0 <=? 12.92 * c)%float = true)
      by (apply (rounds_nonneg _ _ Rv); nra).
    assert (Vk : (12.92 * c <=? 12.92)%float = true)
      by (apply (rounds_le _ _ _ Rv Fk); nra).
    assert (Fv : finite (12.92 * c))
      by exact (finite_between 0 12.92 _ finite_0 Fk V0 Vk).
    split.
    + apply (leb_trans (-1) 0 _); auto; reflexivity.
    + apply (leb_trans _ 12.92 16); auto; reflexivity.
  - destruct (float_pow_unit libm_pow c (1 / 2.4) libm_pow_unit Hc eq_refl)
      as (p & -> & Hp).
    cbn [bind]. exists (1.055 * p - 0.055)%float. split; [reflexivity |].
    pose proof (unit_finite p Hp) as Fp. pose proof (unit_B2R p Hp) as Bp.
    assert (Fk : finite 1.055) by reflexivity.
    assert (Fj : finite 0.055) by reflexivity.
    assert (Pk : (0 <= B2R 1.055)%R)
      by (apply (leb_B2R 0 1.055 finite_0 Fk); reflexivity).
    pose proof (mul_rounds 1.055 p Fk Fp) as Rq.
    set (q := (1.055 * p)%float) in *.
    assert (Q0 : (0 <=? q)%float = true) by (apply (rounds_nonneg _ _ Rq); nra).
    assert (Qk : (q <=? 1.055)%float = true)
      by (apply (rounds_le _ _ _ Rq Fk); nra).
    assert (Fq : finite q) by exact (finite_between 0 1.055 _ finite_0 Fk Q0 Qk).
    apply (leb_B2R 0 q finite_0 Fq) in Q0. rewrite B2R_0 in Q0.
    apply (leb_B2R q 1.055 Fq Fk) in Qk.
    pose proof (sub_rounds q 0.055 Fq Fj) as Rv.
    pose proof (sub_rounds 0 0.055 finite_0 Fj) as Rlo.
    pose proof (sub_rounds 1.055 0.055 Fk Fj) as Rhi.
    assert (Vlo : (0 - 0.055 <=? q - 0.055)%float = true)
      by (apply (rounds_leb_prim _ _ _ _ Rlo Rv); rewrite B2R_0; lra).
    assert (Vhi : (q - 0.055 <=? 1.055 - 0.055)%float = true)
      by (apply (rounds_leb_prim _ _ _ _ Rv Rhi); lra).
    assert (Fv : finite (q - 0.055))
      by (apply (finite_between (0 - 0.055) (1.055 - 0.055)); auto; reflexivity).
    split.
    + apply (leb_trans (-1) (0 - 0.055) _); auto; reflexivity.
    + apply (leb_trans _ (1.055 - 0.055) 16); auto; reflexivity.
Qed.

(** [srgb_to_linear] returns on a channel value whose shifted and scaled
    form [(c + 0.055) / 1.055] is in the unit interval. *)
Lemma srgb_to_linear_total (c : float) :
  unit ((c + 0.055) / 1.055) ->
  exists r : float, srgb_to_linear libm_pow c = Ok r.
Proof.
  intros Hb. unfold srgb_to_linear. destruct (c <=? 0.04045)%float; [eauto |].
  destruct (float_pow_unit libm_pow _ 2.4 libm_pow_unit Hb eq_refl) as (r & -> & _).
  eauto.
Qed.

End Totality.

(** *** The builder returns *)

(** The facts about a segment of the stop list that the bounds rest on, as
    one computation: positions and colours are finite, the positions
    increase, each channel is in the unit interval on both ends and does not
    decrease, and so for its form under [srgb_to_linear]. *)
Definition finiteb (x : float) : bool := is_finite_SF (Prim2SF x).

Definition unitb (x : float) : bool := ((0 <=? x) && (x <=? 1))%float.

Definition channel_ok (a b : float) : bool :=
  (finiteb a && finiteb (b - a) && (0 <=? a) && (0 <=? b - a)
   && (a + (b - a) <=? 1)
   && unitb ((a + 0.055) / 1.055) && unitb ((b + 0.055) / 1.055))%float.

Definition segment_ok (seg : stop * stop) : bool :=
  let '((p0, (r0, g0, b0)), (p1, (r1, g1, b1))) := seg in
  (finiteb p0 && finiteb p1 && finiteb (p1 - p0) && (0 <? p1 - p0)
   && channel_ok r0 r1 && channel_ok g0 g1 && channel_ok b0 b1)%float.

Lemma segments_ok : forallb segment_ok segments = true.
Proof. vm_compute. reflexivity. Qed.

Ltac split_andb :=
  repeat match goal with
         | H : (_ && _)%bool = true |- _ => apply andb_true_iff in H as [? ?]
         end.

Lemma unitb_unit (x : float) : unitb x = true -> unit x.
Proof. unfold unitb, unit. intros H. apply andb_true_iff in H. exact H. Qed.

(** A gamma mode the builder is specified for: the token [srgb], or a
    positive finite number, as a float or as a string [float] reads. *)
Definition valid_gamma_mode (gamma_mode : value) : Prop :=
  gamma_mode = Str "srgb"
  \/ (eq_str gamma_mode "srgb" = false
      /\ exists g : float,
           float_of gamma_mode = Ok g
           /\ (0 <? g)%float = true /\ (g <? infinity)%float = true).

Definition dac_ready (v : float) : Prop :=
  (-1 <=? v)%float = true /\ (v <=? 16)%float = true.

Lemma unit_dac_ready (v : float) : unit v -> dac_ready v.
Proof.
  intros Hv. pose proof (unit_finite v Hv) as Fv. destruct Hv as [H0 H1]. split.
  - apply (leb_trans (-1) 0 v); auto; reflexivity.
  - apply (leb_trans v 1 16); auto; reflexivity.
Qed.

Lemma quantize_total (r g b : float) :
  dac_ready r -> dac_ready g -> dac_ready b ->
  exists e : entry, quantize (r, g, b) = Ok e.
Proof.
  intros [R0 R1] [G0 G1] [B0 B1]. unfold quantize.
  destruct (to_dac_total r R0 R1) as [r' ->].
  destruct (to_dac_total g G0 G1) as [g' ->].
  destruct (to_dac_total b B0 B1) as [b' ->].
  cbn [bind]. eauto.
Qed.

Lemma tuple_map_total (f : float -> result float) (P : float -> Prop) (r g b : float) :
  (exists r', f r = Ok r' /\ P r') ->
  (exists g', f g = Ok g' /\ P g') ->
  (exists b', f b = Ok b' /\ P b') ->
  exists r' g' b',
    tuple_map f (r, g, b) = Ok (r', g', b') /\ P r' /\ P g' /\ P b'.
Proof.
  intros (r' & Er & Pr) (g' & Eg & Pg) (b' & Eb & Pb).
  exists r', g', b'. unfold tuple_map. rewrite Er, Eg, Eb. cbn [bind]. auto.
Qed.

Ltac linear_channel :=
  match goal with
  | Hp : pow_in_unit ?pow |- exists _, srgb_to_linear ?pow ?c = _ /\ True =>
      let x := fresh "x" in
      let Hx := fresh "Hx" in
      destruct (srgb_to_linear_total pow Hp c) as [x Hx];
      [apply unitb_unit; assumption | exists x; split; [exact Hx | exact I]]
  end.

Section Builder.

Variable libm_pow : float -> float -> float.
Hypothesis libm_pow_unit : pow_in_unit libm_pow.

(** The last step of [interpolate_stops]: [apply_gamma] in a numeric mode. *)
Definition finish (gamma_mode : value) (c : color) : result color :=
  if negb (eq_str gamma_mode "srgb") then apply_gamma libm_pow c gamma_mode
  else Ok c.

Lemma finish_unit (gamma_mode : value) (r g b : float) :
  valid_gamma_mode gamma_mode -> unit r -> unit g -> unit b ->
  exists r' g' b',
    finish gamma_mode (r, g, b) = Ok (r', g', b')
    /\ unit r' /\ unit g' /\ unit b'.
Proof.
  intros [-> | (Hmode & gm & Hg & G0 & Ginf)] Hr Hg' Hb; unfold finish.
  - cbn. exists r, g, b. auto.
  - rewrite Hmode. cbn [negb].
    rewrite (apply_gamma_numeric libm_pow (r, g, b) gamma_mode gm Hmode Hg G0).
    destruct (reciprocal_positive gm G0 Ginf) as [_ He].
    unfold power_adjust. apply (tuple_map_total _ unit);
      apply float_pow_unit; assumption.
Qed.

Lemma blend_numeric_unit (seg : stop * stop) (u : float) (gamma_mode : value) :
  In seg segments -> eq_str gamma_mode "srgb" = false -> unit u ->
  exists r g b,
    blend libm_pow (snd (fst seg)) (snd (snd seg)) u gamma_mode = Ok (r, g, b)
    /\ unit r /\ unit g /\ unit b.
Proof.
  intros Hin Hmode Hu.
  pose proof (proj1 (forallb_forall _ _) segments_ok seg Hin) as Hok.
  destruct seg as [[p0 [[r0 g0] b0]] [p1 [[r1 g1] b1]]]. cbn [fst snd].
  unfold blend. rewrite Hmode.
  unfold segment_ok, channel_ok, finiteb in Hok.
  split_andb.
  do 3 eexists. split; [reflexivity |].
  repeat split; apply lerp_unit; assumption.
Qed.

Lemma blend_srgb_ready (seg : stop * stop) (u : float) :
  In seg segments ->
  exists r g b,
    blend libm_pow (snd (fst seg)) (snd (snd seg)) u (Str "srgb") = Ok (r, g, b)
    /\ dac_ready r /\ dac_ready g /\ dac_ready b.
Proof.
  intros Hin.
  pose proof (proj1 (forallb_forall _ _) segments_ok seg Hin) as Hok.
  destruct seg as [[p0 [[r0 g0] b0]] [p1 [[r1 g1] b1]]]. cbn [fst snd].
  unfold segment_ok, channel_ok in Hok.
  split_andb.
  unfold blend. cbn [eq_str String.eqb Ascii.eqb Bool.eqb].
  destruct (tuple_map_total (srgb_to_linear libm_pow) (fun _ => True) r0 g0 b0)
    as (lr0 & lg0 & lb0 & -> & _); [linear_channel ..|].
  destruct (tuple_map_total (srgb_to_linear libm_pow) (fun _ => True) r1 g1 b1)
    as (lr1 & lg1 & lb1 & -> & _); [linear_channel ..|].
  cbn [bind].
  apply (tuple_map_total (linear_to_srgb libm_pow) dac_ready);
    apply (linear_to_srgb_total libm_pow libm_pow_unit).
Qed.

Lemma segment_fraction (seg : stop * stop) (t : float) :
  In seg segments ->
  (fst (fst seg) <=? t)%float = true -> (t <=? fst (snd seg))%float = true ->
  float_truediv (t - fst (fst seg)) (fst (snd seg) - fst (fst seg))
  = Ok ((t - fst (fst seg)) / (fst (snd seg) - fst (fst seg)))%float
  /\ unit ((t - fst (fst seg)) / (fst (snd seg) - fst (fst seg))).
Proof.
  intros Hin H0 H1.
  pose proof (proj1 (forallb_forall _ _) segments_ok seg Hin) as Hok.
  destruct seg as [[p0 [[r0 g0] b0]] [p1 [[r1 g1] b1]]]. cbn [fst snd] in *.
  unfold segment_ok in Hok. split_andb.
  apply local_fraction; assumption.
Qed.

(** [interpolate_stops] returns on every parameter of the unit interval, and
    its colour quantizes. *)
Lemma interpolate_total (t : float) (gamma_mode : value) :
  unit t -> valid_gamma_mode gamma_mode ->
  exists e : entry,
    bind (interpolate_stops libm_pow stops t gamma_mode) quantize = Ok e.
Proof.
  intros Ht Hv. rewrite interpolate_stops_fixed.
  assert (Nt : not_nan t) by exact (leb_not_nan_r 0 t (proj1 Ht)).
  assert (N0 : not_nan 0) by (unfold not_nan; discriminate).
  assert (N1 : not_nan 1) by (unfold not_nan; discriminate).
  destruct (t <=? 0)%float eqn:T0; [| destruct (1 <=? t)%float eqn:T1].
  - cbn [bind]. change (if negb _ then _ else _) with (finish gamma_mode (0, 0, 0)%float).
    destruct (finish_unit gamma_mode 0 0 0 Hv unit_0 unit_0 unit_0)
      as (r & g & b & -> & Hr & Hg & Hb).
    cbn [bind]. apply quantize_total; apply unit_dac_ready; assumption.
  - cbn [bind]. change (if negb _ then _ else _) with (finish gamma_mode (1, 1, 1)%float).
    destruct (finish_unit gamma_mode 1 1 1 Hv unit_1 unit_1 unit_1)
      as (r & g & b & -> & Hr & Hg & Hb).
    cbn [bind]. apply quantize_total; apply unit_dac_ready; assumption.
  - assert (P0 : (0 <? t)%float = true)
      by (apply leb_false_ltb; [apply comparable; assumption | exact T0]).
    assert (P1 : (t <? 1)%float = true)
      by (apply leb_false_ltb; [apply comparable; assumption | exact T1]).
    destruct (scan_finds libm_pow t gamma_mode P0 P1)
      as (pre & p0 & c0 & p1 & c1 & post & _ & Hin & Hp0 & Hp1 & ->).
    destruct (segment_fraction _ t Hin Hp0 Hp1) as [Eu Hu]. cbn [fst snd] in Eu, Hu.
    rewrite Eu. cbn [bind]. set (u := ((t - p0) / (p1 - p0))%float) in *.
    destruct Hv as [-> | Hnum].
    + destruct (blend_srgb_ready _ u Hin) as (r & g & b & E & Hr & Hg & Hb).
      cbn [fst snd] in E. rewrite E. cbn. apply quantize_total; assumption.
    + destruct (blend_numeric_unit _ u gamma_mode Hin (proj1 Hnum) Hu)
        as (r & g & b & E & Hr & Hg & Hb).
      cbn [fst snd] in E. rewrite E. cbn [bind].
      change (if negb _ then _ else _) with (finish gamma_mode (r, g, b)).
      destruct (finish_unit gamma_mode r g b (or_intror Hnum) Hr Hg Hb)
        as (r' & g' & b' & -> & Hr' & Hg' & Hb').
      cbn [bind]. apply quantize_total; apply unit_dac_ready; assumption.
Qed.

End Builder.

(** *** The sampled parameters *)

Lemma SF2R_of_Z (z : Z) : SF2R (SF_of_Z z) = IZR z.
Proof.
  destruct z; cbn [SF_of_Z SF2R cond_Zopp Z.opp]; unfold F2R; rewrite ?bpow_0;
    ring.
Qed.

(** [i / n] on integers is the rounded quotient. *)
Lemma quotient_rounds (i n : Z) :
  0 < n -> rounds (IZR i / IZR n) (SFdiv prec emax (SF_of_Z i) (SF_of_Z n)).
Proof.
  intros H. destruct n as [| p | p]; try lia.
  replace (IZR i / IZR (Z.pos p))%R
    with (SF2R (SF_of_Z i) / SF2R (S754_finite false p 0))%R
    by (rewrite SF2R_of_Z; change (S754_finite false p 0) with (SF_of_Z (Z.pos p));
        rewrite SF2R_of_Z; reflexivity).
  cbn [SF_of_Z]. apply SFdiv_rounds. destruct i; reflexivity.
Qed.

Lemma rounds_1 : rounds 1 (Prim2SF 1).
Proof. rewrite <- B2R_1. exact (self_rounds 1 finite_1). Qed.

Lemma int_truediv_unit (i n : Z) :
  0 <= i <= n -> 0 < n -> exists t : float, int_truediv i n = Ok t /\ unit t.
Proof.
  intros Hi Hn. unfold int_truediv. destruct (n =? 0) eqn:E; [lia |].
  pose proof (quotient_rounds i n Hn) as Hq.
  remember (SFdiv prec emax (SF_of_Z i) (SF_of_Z n)) as q eqn:Eq. clear Eq.
  assert (Hz : (0 <= IZR i / IZR n <= 1)%R).
  { assert (Pn : (0 < IZR n)%R) by (apply IZR_lt; exact Hn).
    assert (Pi : (0 <= IZR i)%R) by (apply IZR_le; lia).
    assert (Li : (IZR i <= IZR n)%R) by (apply IZR_le; lia).
    pose proof (Rinv_0_lt_compat _ Pn) as Px.
    assert (Ex : (IZR n * / IZR n = 1)%R) by (apply Rinv_r; lra).
    unfold Rdiv. split; nra. }
  pose proof (rounds_valid _ _ Hq) as Vq.
  pose proof (rounds_leb 0 _ _ _ (rounds_zero false) Hq (proj1 Hz)) as L0.
  pose proof (rounds_leb _ 1 _ _ Hq rounds_1 (proj2 Hz)) as L1.
  exists (SF2Prim q). split.
  - destruct q as [s | [|] | | s m e]; try reflexivity;
      [vm_compute in L0 | vm_compute in L1]; discriminate.
  - apply (unit_of_rounds (IZR i / IZR n)); [| exact Hz].
    rewrite Prim2SF_SF2Prim by exact Vq. exact Hq.
Qed.

(** The last sample has [t = 1.0] exactly. *)
Lemma int_truediv_same (n : Z) : 0 < n -> int_truediv n n = Ok 1%float.
Proof.
  intros Hn. unfold int_truediv. destruct (n =? 0) eqn:E; [lia |].
  pose proof (quotient_rounds n n Hn) as Hq.
  replace (IZR n / IZR n)%R with (B2R 1) in Hq
    by (rewrite B2R_1; field; apply not_0_IZR; lia).
  apply (rounds_representable (Prim2SF 1)) in Hq;
    [| apply Prim2SF_valid | exact finite_1 | fold (B2R 1); rewrite B2R_1; lra].
  rewrite Hq. reflexivity.
Qed.

Lemma In_range (i n : Z) : In i (range n) -> 0 <= i < n.
Proof.
  unfold range. intros H. apply in_map_iff in H as (k & <- & H).
  apply in_seq in H. lia.
Qed.

Lemma nth_error_range (n : Z) (k : nat) :
  (k < Z.to_nat n)%nat -> nth_error (range n) k = Some (Z.of_nat k).
Proof.
  intros H. unfold range. apply map_nth_error.
  rewrite (nth_error_nth' _ O) by (rewrite length_seq; exact H).
  rewrite seq_nth by exact H. reflexivity.
Qed.

Lemma mapM_exists {A B : Type} (f : A -> result B) (l : list A) :
  (forall a, In a l -> exists b, f a = Ok b) -> exists bs, mapM f l = Ok bs.
Proof.
  induction l as [| a l IH]; intros H; cbn [mapM]; [eauto |].
  destruct (H a (or_introl eq_refl)) as [b ->].
  destruct IH as [bs ->]; [intros a' Ha'; apply H; right; exact Ha' |].
  cbn [bind]. eauto.
Qed.

Lemma mapM_nth {A B : Type} (f : A -> result B) (l : list A) (bs : list B)
  (k : nat) (a : A) (b : B) :
  mapM f l = Ok bs -> nth_error l k = Some a -> f a = Ok b ->
  nth_error bs k = Some b.
Proof.
  intros H. apply mapM_Ok in H. revert k.
  induction H as [| a' b' l bs Hab H IH]; intros [| k] Hk Hb;
    try discriminate; cbn [nth_error] in *.
  - injection Hk as ->. congruence.
  - now apply IH.
Qed.

(** *** The powers of 0 and of 1 *)

Lemma float_pow_0 (pow : float -> float -> float) (e : float) :
  (0 <? e)%float = true -> float_pow pow 0 e = Ok 0%float.
Proof.
  intros He. unfold float_pow. rewrite (ltb_0_eqb e He).
  rewrite (is_nan_false e (ltb_not_nan_r 0 e He)).
  change (is_nan 0) with false. cbn iota.
  destruct (positive_finite_or_infinity e He) as [[Ie Fe] | Einf].
  - rewrite Ie. change (is_infinity 0) with false.
    change (0 =? 0)%float with true. cbn iota.
    rewrite (leb_ltb_false 0 e (ltb_leb 0 e He)).
    destruct (is_odd_integer e); reflexivity.
  - rewrite (infinity_is_infinity e Einf), He. reflexivity.
Qed.

Lemma float_pow_1 (pow : float -> float -> float) (e : float) :
  (0 <? e)%float = true -> float_pow pow 1 e = Ok 1%float.
Proof.
  intros He. unfold float_pow. rewrite (ltb_0_eqb e He).
  rewrite (is_nan_false e (ltb_not_nan_r 0 e He)).
  change (is_nan 1) with false. cbn iota.
  destruct (positive_finite_or_infinity e He) as [[Ie Fe] | Einf].
  - rewrite Ie. reflexivity.
  - rewrite (infinity_is_infinity e Einf). reflexivity.
Qed.

(** *** The samples *)

Definition first_color : color := snd (hd (0, (0, 0, 0))%float stops).
Definition last_color : color := snd (last stops (0, (0, 0, 0))%float).

(** The quantized colour of a boundary stop under the boundary rule: as it is
    in the sRGB mode, after the power adjustment in a numeric mode. *)
Definition quantized_stop
  (pow : float -> float -> float) (gamma_mode : value) (c : color) : result entry :=
  if eq_str gamma_mode "srgb" then quantize c
  else bind (float_of gamma_mode)
         (fun g => bind (power_adjust pow c g) quantize).

Lemma power_adjust_first (pow : float -> float -> float) (g : float) :
  (0 <? g)%float = true -> (g <? infinity)%float = true ->
  power_adjust pow first_color g = Ok first_color.
Proof.
  intros G0 Ginf. destruct (reciprocal_positive g G0 Ginf) as [_ He].
  unfold power_adjust, first_color, tuple_map. cbn [stops hd snd].
  rewrite (float_pow_0 pow _ He). reflexivity.
Qed.

Lemma power_adjust_last (pow : float -> float -> float) (g : float) :
  (0 <? g)%float = true -> (g <? infinity)%float = true ->
  power_adjust pow last_color g = Ok last_color.
Proof.
  intros G0 Ginf. destruct (reciprocal_positive g G0 Ginf) as [_ He].
  unfold power_adjust, last_color, tuple_map. cbn [stops last snd].
  rewrite (float_pow_1 pow _ He). reflexivity.
Qed.

Lemma quantized_first (pow : float -> float -> float) (gamma_mode : value) :
  valid_gamma_mode gamma_mode ->
  quantized_stop pow gamma_mode first_color = Ok (0, 0, 0).
Proof.
  intros [-> | (Hmode & g & Hg & G0 & Ginf)]; unfold quantized_stop.
  - vm_compute. reflexivity.
  - rewrite Hmode, Hg. cbn [bind]. rewrite (power_adjust_first pow g G0 Ginf).
    vm_compute. reflexivity.
Qed.

Lemma quantized_last (pow : float -> float -> float) (gamma_mode : value) :
  valid_gamma_mode gamma_mode ->
  quantized_stop pow gamma_mode last_color = Ok (63, 63, 63).
Proof.
  intros [-> | (Hmode & g & Hg & G0 & Ginf)]; unfold quantized_stop.
  - vm_compute. reflexivity.
  - rewrite Hmode, Hg. cbn [bind]. rewrite (power_adjust_last pow g G0 Ginf).
    vm_compute. reflexivity.
Qed.

(** At a boundary stop [interpolate_stops] and the boundary rule agree. *)
Lemma finish_quantized
  (pow : float -> float -> float) (gamma_mode : value) (c : color) :
  valid_gamma_mode gamma_mode ->
  bind (finish pow gamma_mode c) quantize = quantized_stop pow gamma_mode c.
Proof.
  intros [-> | (Hmode & g & Hg & G0 & Ginf)]; unfold finish, quantized_stop.
  - reflexivity.
  - rewrite Hmode. cbn [negb].
    rewrite (apply_gamma_numeric pow c gamma_mode g Hmode Hg G0), Hg.
    reflexivity.
Qed.

(** The first sample is the quantized first stop, whatever the size. *)
Lemma sample_first
  (pow : float -> float -> float) (size : Z) (gamma_mode : value) :
  valid_gamma_mode gamma_mode ->
  sample pow size gamma_mode 0 = quantized_stop pow gamma_mode first_color.
Proof.
  intros Hv. rewrite sample_0, interpolate_stops_fixed.
  change (0 <=? 0)%float with true. cbn [bind].
  rewrite <- (finish_quantized pow gamma_mode first_color Hv).
  unfold finish. destruct (negb (eq_str gamma_mode "srgb")); reflexivity.
Qed.

(** The last sample of two or more is the quantized last stop. *)
Lemma sample_last
  (pow : float -> float -> float) (size : Z) (gamma_mode : value) :
  1 < size -> valid_gamma_mode gamma_mode ->
  sample pow size gamma_mode (size - 1)
  = quantized_stop pow gamma_mode last_color.
Proof.
  intros Hs Hv. rewrite sample_quantize.
  replace (1 <? size) with true by (symmetry; apply Z.ltb_lt; exact Hs).
  rewrite int_truediv_same by lia. cbn [bind].
  rewrite interpolate_stops_fixed.
  change (1 <=? 0)%float with false. change (1 <=? 1)%float with true.
  cbn [bind].
  rewrite <- (finish_quantized pow gamma_mode last_color Hv).
  unfold finish. destruct (negb (eq_str gamma_mode "srgb")); reflexivity.
Qed.

Section Samples.

Variable libm_pow : float -> float -> float.
Hypothesis libm_pow_unit : pow_in_unit libm_pow.

Lemma sample_total (size : Z) (gamma_mode : value) (i : Z) :
  0 <= i < size -> valid_gamma_mode gamma_mode ->
  exists e : entry, sample libm_pow size gamma_mode i = Ok e.
Proof.
  intros Hi Hv. rewrite sample_quantize.
  assert (Ht : exists t : float,
             (if 1 <? size then int_truediv i (size - 1) else Ok 0%float) = Ok t
             /\ unit t).
  { destruct (1 <? size) eqn:E.
    - apply Z.ltb_lt in E. apply int_truediv_unit; lia.
    - exists 0%float. split; [reflexivity | exact unit_0]. }
  destruct Ht as (t & -> & Ht). cbn [bind].
  exact (interpolate_total libm_pow libm_pow_unit t gamma_mode Ht Hv).
Qed.

(** The builder returns for every size and every valid gamma mode. *)
Lemma build_total (size : Z) (gamma_mode : value) :
  valid_gamma_mode gamma_mode ->
  exists pal : list entry, build_fire_palette libm_pow size gamma_mode = Ok pal.
Proof.
  intros Hv. unfold build_fire_palette. apply mapM_exists.
  intros i Hi. apply In_range in Hi. now apply sample_total.
Qed.

End Samples.

(** *** The reference [pow] *)

Lemma clamp_low_high_unit (p : float) : unit (Py.min 1 (Py.max 0 p)).
Proof.
  unfold Py.max, Py.min. destruct (0 <? p)%float eqn:P0.
  - destruct (p <? 1)%float eqn:P1.
    + split; apply ltb_leb; assumption.
    + exact unit_1.
  - change (0 <? 1)%float with true. cbn iota. exact unit_0.
Qed.

Lemma positive_finite_parts (y : float) :
  (0 <? y)%float = true -> (y <? infinity)%float = true ->
  exists (m : positive) (e : Z), Prim2SF y = S754_finite false m e.
Proof.
  rewrite !ltb_spec. change (Prim2SF 0) with (S754_zero false).
  change (Prim2SF infinity) with (S754_infinity false).
  destruct (Prim2SF y) as [s | [|] | | [|] m e]; cbn; try discriminate; eauto.
Qed.

Lemma Libm_pow_in_unit : pow_in_unit Libm.pow.
Proof.
  intros x y X0 X1 Y0 Yinf.
  destruct (positive_finite_parts y Y0 Yinf) as (m & e & E).
  unfold Libm.pow. rewrite E, X1. exact (clamp_low_high_unit _).
Qed.

(** *** The palette *)

(** C1: for every size of 1 or above and every gamma mode, the token [srgb]
    or a positive finite number (a float, or a string that [float] reads),
    [build_fire_palette] returns, and what it returns is a list of exactly
    [size] triplets whose components are integers in [0, 63]; [to_dac] itself
    clamps to that range whatever float it is given.  The platform's [pow] is
    required to map a base in (0, 1) and a positive finite exponent into
    [0, 1], as the exact power is. *)
Theorem C1_build_size_and_range
  (libm_pow : float -> float -> float) (size : Z) (gamma_mode : value) :
  pow_in_unit libm_pow -> 1 <= size -> valid_gamma_mode gamma_mode ->
  (exists pal : list entry,
     build_fire_palette libm_pow size gamma_mode = Ok pal
     /\ Z.of_nat (List.length pal) = size
     /\ Forall dac_entry pal)
  /\ (forall (v : float) (n : Z), to_dac v = Ok n -> dac n).
Proof.
  intros Hpow Hs Hv. split; [| exact to_dac_range].
  destruct (build_total libm_pow Hpow size gamma_mode Hv) as [pal Hb].
  exists pal. split; [exact Hb |].
  destruct (build_shape libm_pow size gamma_mode pal Hb) as [Hlen Hdac].
  split; [rewrite Hlen; lia | exact Hdac].
Qed.

Lemma C1_build_size_and_range_witness :
  pow_in_unit Libm.pow /\ 1 <= 37 /\ valid_gamma_mode (Float 2.2)
  /\ (exists pal : list entry,
        build_fire_palette Libm.pow 37 (Float 2.2) = Ok pal
        /\ Z.of_nat (List.length pal) = 37
        /\ Forall dac_entry pal)
  /\ (forall (v : float) (n : Z), to_dac v = Ok n -> dac n).
Proof.
  assert (Hv : valid_gamma_mode (Float 2.2)).
  { right. split; [reflexivity |]. exists 2.2%float.
    split; [reflexivity |]. split; reflexivity. }
  split; [exact Libm_pow_in_unit |]. split; [lia |]. split; [exact Hv |].
  apply (C1_build_size_and_range Libm.pow 37 (Float 2.2) Libm_pow_in_unit);
    [lia | exact Hv].
Defined.

(** C2: for every size of 1 or above and every valid gamma mode, the palette
    that [build_fire_palette] returns starts with the quantized colour of the
    first stop, which is (0, 0, 0), and, when the size is above 1, ends at
    index [size - 1] with the quantized colour of the last stop, which is
    (63, 63, 63); a palette of size 1 holds the quantized first-stop colour
    only.  The stop colour is quantized under the boundary rule
    ([quantized_stop]): as it is in the sRGB mode, after the power adjustment
    [c ** (1 / g)] in a numeric mode. *)
Theorem C2_palette_endpoints
  (libm_pow : float -> float -> float) (size : Z) (gamma_mode : value) :
  pow_in_unit libm_pow -> 1 <= size -> valid_gamma_mode gamma_mode ->
  exists (pal : list entry) (first final : entry),
    build_fire_palette libm_pow size gamma_mode = Ok pal
    /\ nth_error pal 0 = Some first
    /\ quantized_stop libm_pow gamma_mode first_color = Ok first
    /\ first = (0, 0, 0)
    /\ nth_error pal (Z.to_nat (size - 1)) = Some final
    /\ quantized_stop libm_pow gamma_mode
         (if size =? 1 then first_color else last_color) = Ok final
    /\ final = (if size =? 1 then (0, 0, 0) else (63, 63, 63)).
Proof.
  intros Hpow Hs Hv.
  destruct (build_total libm_pow Hpow size gamma_mode Hv) as [pal Hb].
  pose proof (quantized_first libm_pow gamma_mode Hv) as Qf.
  pose proof (quantized_last libm_pow gamma_mode Hv) as Ql.
  assert (H0 : nth_error pal 0 = Some (0, 0, 0)).
  { apply (mapM_nth _ _ _ _ 0 _ Hb).
    - apply (nth_error_range size 0). lia.
    - rewrite sample_first by exact Hv. exact Qf. }
  exists pal, (0, 0, 0), (if size =? 1 then (0, 0, 0) else (63, 63, 63)).
  split; [exact Hb |]. split; [exact H0 |]. split; [exact Qf |].
  split; [reflexivity |].
  destruct (size =? 1) eqn:E.
  - apply Z.eqb_eq in E. subst size. cbn [Z.sub Z.to_nat Z.add Z.opp Z.pos_sub].
    split; [exact H0 |]. split; [exact Qf | reflexivity].
  - apply Z.eqb_neq in E.
    split; [| split; [exact Ql | reflexivity]].
    apply (mapM_nth _ _ _ _ (size - 1) _ Hb).
    + rewrite (nth_error_range size (Z.to_nat (size - 1))) by lia.
      f_equal. lia.
    + rewrite sample_last by (try lia; exact Hv). exact Ql.
Qed.

Lemma C2_palette_endpoints_witness :
  pow_in_unit Libm.pow /\ 1 <= 37 /\ valid_gamma_mode (Str "2.2")
  /\ exists (pal : list entry) (first final : entry),
       build_fire_palette Libm.pow 37 (Str "2.2") = Ok pal
       /\ nth_error pal 0 = Some first
       /\ quantized_stop Libm.pow (Str "2.2") first_color = Ok first
       /\ first = (0, 0, 0)
       /\ nth_error pal (Z.to_nat (37 - 1)) = Some final
       /\ quantized_stop Libm.pow (Str "2.2")
            (if 37 =? 1 then first_color else last_color) = Ok final
       /\ final = (if 37 =? 1 then (0, 0, 0) else (63, 63, 63)).
Proof.
  assert (Hv : valid_gamma_mode (Str "2.2")).
  { right. split; [reflexivity |]. exists 2.2%float.
    split; [reflexivity |]. split; reflexivity. }
  split; [exact Libm_pow_in_unit |]. split; [lia |]. split; [exact Hv |].
  apply (C2_palette_endpoints Libm.pow 37 (Str "2.2") Libm_pow_in_unit);
    [lia | exact Hv].
Defined.

(** ** Further properties of the program *)

(** *** [interpolate_stops] on any stop list *)

Lemma leb_nan_l (x : float) : (nan <=? x)%float = false.
Proof. rewrite leb_spec. reflexivity. Qed.

Lemma leb_nan_r (x : float) : (x <=? nan)%float = false.
Proof.
  rewrite leb_spec. change (Prim2SF nan) with S754_nan.
  destruct (Prim2SF x) as [s | s | | s m e]; reflexivity.
Qed.

Lemma scan_nan
  (pow : float -> float -> float) (l : list stop) (gamma_mode : value) :
  scan pow l nan gamma_mode = Ok None.
Proof.
  induction l as [| [p0 c0] l IH]; [reflexivity |].
  destruct l as [| [p1 c1] l]; [reflexivity |].
  cbn [scan]. rewrite leb_nan_r. cbn [andb]. exact IH.
Qed.

(** X1: a NaN parameter passes both boundary tests and matches no segment,
    whatever the stops are: [c] is never assigned, and the function ends in
    [UnboundLocalError], in every gamma mode. *)
Theorem X1_interpolate_nan_unbound
  (libm_pow : float -> float -> float) (first : stop) (rest : list stop)
  (gamma_mode : value) :
  interpolate_stops libm_pow (first :: rest) nan gamma_mode
  = Raise UnboundLocalError.
Proof.
  unfold interpolate_stops. rewrite leb_nan_l, leb_nan_r, scan_nan. reflexivity.
Qed.

(** The scan from a stop at or below [t], in a list that ends above [t]. *)
Lemma scan_between
  (pow : float -> float -> float) (l : list stop) (p0 : float) (c0 : color)
  (d : stop) (t : float) (gamma_mode : value) :
  Forall (fun s => not_nan (fst s)) l -> not_nan t ->
  (p0 <=? t)%float = true ->
  (fst (last ((p0, c0) :: l) d) <=? t)%float = false ->
  scan pow ((p0, c0) :: l) t gamma_mode <> Ok None.
Proof.
  intros Hl Nt. revert p0 c0.
  induction Hl as [| [p1 c1] l N1 Hl IH]; intros p0 c0 H0 Hlast.
  - cbn [last fst] in Hlast. congruence.
  - cbn [scan]. rewrite H0. cbn [andb].
    destruct (t <=? p1)%float eqn:T1; [apply segment_assigns |].
    apply IH; [| exact Hlast].
    apply ltb_leb, leb_false_ltb; [apply comparable; assumption | exact T1].
Qed.

(** X2: on any stop list whose positions are numbers, and for any parameter
    that is a number, [interpolate_stops] never ends in [UnboundLocalError]:
    a parameter that passes both boundary tests lies in some segment.  The
    list need not be sorted. *)
Theorem X2_interpolate_assigned
  (libm_pow : float -> float -> float) (l : list stop) (t : float)
  (gamma_mode : value) :
  Forall (fun s => not_nan (fst s)) l -> not_nan t ->
  interpolate_stops libm_pow l t gamma_mode <> Raise UnboundLocalError.
Proof.
  intros Hl Nt. destruct l as [| [p0 c0] l]; [discriminate |].
  unfold interpolate_stops. cbv zeta. set (final := last _ _). cbn [fst snd].
  assert (Hc : forall c : color,
             never_unbound (if negb (eq_str gamma_mode "srgb")
                            then apply_gamma libm_pow c gamma_mode else Ok c)).
  { intros c. destruct (negb _); [apply never_unbound_apply_gamma | discriminate]. }
  destruct (t <=? p0)%float eqn:T0; [exact (Hc c0) |].
  destruct (fst final <=? t)%float eqn:T1; [exact (Hc _) |]. subst final.
  inversion Hl as [| s l' N0 Hl' E]. subst s l'. cbn [fst] in N0.
  assert (H0 : (p0 <=? t)%float = true)
    by (apply ltb_leb, leb_false_ltb; [apply comparable; assumption | exact T0]).
  set (found := scan _ _ _ _).
  assert (Hscan : found <> Ok None)
    by exact (scan_between libm_pow l p0 c0 (p0, c0) t gamma_mode Hl' Nt H0 T1).
  assert (Hnu : never_unbound found) by apply never_unbound_scan.
  destruct found as [[c |] | e]; cbn [bind]; [exact (Hc c) | congruence |].
  exact (never_unbound_raise e Hnu).
Qed.

Lemma X2_interpolate_assigned_witness :
  Forall (fun s : stop => not_nan (fst s))
    [(0, (0, 0, 0)); (0.8, (1, 0, 0)); (0.3, (0, 1, 0)); (1, (1, 1, 1))]%float
  /\ not_nan 0.5
  /\ interpolate_stops Libm.pow
       [(0, (0, 0, 0)); (0.8, (1, 0, 0)); (0.3, (0, 1, 0)); (1, (1, 1, 1))]%float
       0.5 (Float 2.2)
     <> Raise UnboundLocalError.
Proof.
  assert (Hl : Forall (fun s : stop => not_nan (fst s))
                 [(0, (0, 0, 0)); (0.8, (1, 0, 0)); (0.3, (0, 1, 0));
                  (1, (1, 1, 1))]%float)
    by (repeat constructor; unfold not_nan; cbn [fst]; discriminate).
  assert (Nt : not_nan 0.5) by (unfold not_nan; discriminate).
  split; [exact Hl |]. split; [exact Nt |].
  exact (X2_interpolate_assigned Libm.pow _ 0.5 (Float 2.2) Hl Nt).
Defined.

(** *** The sRGB transfer functions *)

Lemma clamp_nonpositive (c : float) :
  (c <=? 0)%float = true -> Py.max 0 (Py.min 1 c) = 0%float.
Proof.
  intros H. unfold Py.max, Py.min.
  assert (H1 : (c <? 1)%float = true).
  { revert H. rewrite ltb_spec, leb_spec.
    change (Prim2SF 0) with (S754_zero false).
    destruct (Prim2SF c) as [s | [|] | | [|] m e]; intros H;
      try discriminate H; reflexivity. }
  rewrite H1, (leb_ltb_false c 0 H). reflexivity.
Qed.

Lemma clamp_high (c : float) :
  (c <? 1)%float = false -> Py.max 0 (Py.min 1 c) = 1%float.
Proof. intros H. unfold Py.max, Py.min. rewrite H. reflexivity. Qed.

(** X3: [linear_to_srgb] clamps before it converts, and the platform's
    [pow] has no part in the two clamped cases: every input at or below 0
    (either zero, a negative number, minus infinity) gives 0.0 exactly, and
    every input at or above 1, plus infinity and NaN included ([min(1.0, c)]
    keeps 1.0 when [c] is a NaN), gives what 1.0 gives,
    [1.055 * 1.0 - 0.055], which is 0.9999999999999999 and not 1.0. *)
Theorem X3_linear_to_srgb_clamps (libm_pow : float -> float -> float) (c : float) :
  ((c <=? 0)%float = true -> linear_to_srgb libm_pow c = Ok 0%float)
  /\ ((1 <=? c)%float = true \/ c = nan ->
      linear_to_srgb libm_pow c = Ok (1.055 * 1 - 0.055)%float)
  /\ (1.055 * 1 - 0.055 <? 1)%float = true.
Proof.
  split; [| split; [| reflexivity]].
  - intros H. unfold linear_to_srgb. rewrite (clamp_nonpositive c H). reflexivity.
  - intros H.
    assert (H1 : (c <? 1)%float = false)
      by (destruct H as [H | ->]; [exact (leb_ltb_false 1 c H) | reflexivity]).
    unfold linear_to_srgb. rewrite (clamp_high c H1).
    change (1 <=? 0.0031308)%float with false. cbn iota.
    rewrite (float_pow_1 libm_pow (1 / 2.4) eq_refl). reflexivity.
Qed.

Section Transfer.

Variable libm_pow : float -> float -> float.

(** X4: whatever float it is given, a NaN or an infinity included,
    [linear_to_srgb] returns, and its result lies between -0.055 and 1: the
    power of the clamped input lies in [0, 1], as the exact power does. *)
Theorem X4_linear_to_srgb_range (c : float) :
  pow_in_unit libm_pow ->
  exists v : float,
    linear_to_srgb libm_pow c = Ok v
    /\ (-0.055 <=? v)%float = true /\ (v <=? 1)%float = true.
Proof.
  intros Hpow. unfold linear_to_srgb. pose proof (clamp_unit c) as Hc.
  set (x := Py.max 0 (Py.min 1 c)) in *.
  pose proof (unit_finite x Hc) as Fx. pose proof (unit_B2R x Hc) as Bx.
  assert (Fm : finite (-0.055)) by reflexivity.
  destruct (x <=? 0.0031308)%float eqn:C.
  - exists (12.92 * x)%float. split; [reflexivity |].
    assert (Fk : finite 12.92) by reflexivity.
    assert (Ft : finite 0.0031308) by reflexivity.
    assert (Pk : (0 <= B2R 12.92)%R)
      by (apply (leb_B2R 0 12.92 finite_0 Fk); reflexivity).
    apply (leb_B2R x 0.0031308 Fx Ft) in C.
    pose proof (mul_rounds 12.92 x Fk Fx) as Rv.
    pose proof (mul_rounds 12.92 0.0031308 Fk Ft) as Rt.
    assert (V0 : (0 <=? 12.92 * x)%float = true)
      by (apply (rounds_nonneg _ _ Rv); nra).
    assert (Vt : (12.92 * x <=? 12.92 * 0.0031308)%float = true)
      by (apply (rounds_leb_prim _ _ _ _ Rv Rt); nra).
    assert (Fv : finite (12.92 * x))
      by (apply (finite_between 0 (12.92 * 0.0031308)); auto; reflexivity).
    split.
    + apply (leb_trans (-0.055) 0 _); auto; reflexivity.
    + apply (leb_trans _ (12.92 * 0.0031308) 1); auto; reflexivity.
  - destruct (float_pow_unit libm_pow x (1 / 2.4) Hpow Hc eq_refl)
      as (p & -> & Hp).
    cbn [bind]. exists (1.055 * p - 0.055)%float. split; [reflexivity |].
    pose proof (unit_finite p Hp) as Fp. pose proof (unit_B2R p Hp) as Bp.
    assert (Fk : finite 1.055) by reflexivity.
    assert (Fj : finite 0.055) by reflexivity.
    assert (Pk : (0 <= B2R 1.055)%R)
      by (apply (leb_B2R 0 1.055 finite_0 Fk); reflexivity).
    pose proof (mul_rounds 1.055 p Fk Fp) as Rq.
    set (q := (1.055 * p)%float) in *.
    assert (Q0 : (0 <=? q)%float = true) by (apply (rounds_nonneg _ _ Rq); nra).
    assert (Qk : (q <=? 1.055)%float = true)
      by (apply (rounds_le _ _ _ Rq Fk); nra).
    assert (Fq : finite q) by exact (finite_between 0 1.055 _ finite_0 Fk Q0 Qk).
    apply (leb_B2R 0 q finite_0 Fq) in Q0. rewrite B2R_0 in Q0.
    apply (leb_B2R q 1.055 Fq Fk) in Qk.
    pose proof (sub_rounds q 0.055 Fq Fj) as Rv.
    pose proof (sub_rounds 0 0.055 finite_0 Fj) as Rlo.
    pose proof (sub_rounds 1.055 0.055 Fk Fj) as Rhi.
    assert (Vlo : (0 - 0.055 <=? q - 0.055)%float = true)
      by (apply (rounds_leb_prim _ _ _ _ Rlo Rv); rewrite B2R_0; lra).
    assert (Vhi : (q - 0.055 <=? 1.055 - 0.055)%float = true)
      by (apply (rounds_leb_prim _ _ _ _ Rv Rhi); lra).
    assert (Fv : finite (q - 0.055))
      by (apply (finite_between (0 - 0.055) (1.055 - 0.055)); auto; reflexivity).
    split.
    + exact Vlo.
    + apply (leb_trans _ (1.055 - 0.055) 1); auto; reflexivity.
Qed.

(** X5: [srgb_to_linear] maps the unit interval into itself, and returns
    there: below the threshold the quotient [c / 12.92] stays in [0, 1], and
    above it the base [(c + 0.055) / 1.055] of the power does, up to 1.0
    exactly at [c = 1.0]. *)
Theorem X5_srgb_to_linear_unit (c : float) :
  pow_in_unit libm_pow -> unit c ->
  exists r : float, srgb_to_linear libm_pow c = Ok r /\ unit r.
Proof.
  intros Hpow Hc. unfold srgb_to_linear.
  pose proof (unit_finite c Hc) as Fc. pose proof (unit_B2R c Hc) as Bc.
  destruct (c <=? 0.04045)%float.
  - exists (c / 12.92)%float. split; [reflexivity |].
    assert (Fk : finite 12.92) by reflexivity.
    assert (Pk : (1 <= B2R 12.92)%R)
      by (rewrite <- B2R_1; apply (leb_B2R 1 12.92 finite_1 Fk); reflexivity).
    apply (unit_of_rounds (B2R c / B2R 12.92));
      [apply div_rounds; [exact Fc | exact Fk | lra] |].
    pose proof (Rinv_0_lt_compat (B2R 12.92) ltac:(lra)) as Pi.
    assert (Ei : (B2R 12.92 * / B2R 12.92 = 1)%R) by (apply Rinv_r; lra).
    unfold Rdiv. split; nra.
  - assert (Fj : finite 0.055) by reflexivity.
    assert (Fk : finite 1.055) by reflexivity.
    assert (Pj : (0 <= B2R 0.055)%R)
      by (apply (leb_B2R 0 0.055 finite_0 Fj); reflexivity).
    assert (Pk : (1 <= B2R 1.055)%R)
      by (rewrite <- B2R_1; apply (leb_B2R 1 1.055 finite_1 Fk); reflexivity).
    pose proof (add_rounds c 0.055 Fc Fj) as Rs.
    pose proof (add_rounds 1 0.055 finite_1 Fj) as Rt.
    set (s := (c + 0.055)%float) in *.
    assert (S0 : (0 <=? s)%float = true) by (apply (rounds_nonneg _ _ Rs); lra).
    assert (S1 : (s <=? 1 + 0.055)%float = true)
      by (apply (rounds_leb_prim _ _ _ _ Rs Rt); rewrite B2R_1; lra).
    assert (Ft : finite (1 + 0.055)) by reflexivity.
    assert (Fs : finite s) by exact (finite_between 0 _ s finite_0 Ft S0 S1).
    apply (leb_B2R 0 s finite_0 Fs) in S0. rewrite B2R_0 in S0.
    apply (leb_B2R s _ Fs Ft) in S1.
    pose proof (div_rounds s 1.055 Fs Fk ltac:(lra)) as Rb.
    pose proof (div_rounds (1 + 0.055) 1.055 Ft Fk ltac:(lra)) as Rh.
    pose proof (Rinv_0_lt_compat (B2R 1.055) ltac:(lra)) as Pi.
    assert (B0 : (0 <=? s / 1.055)%float = true)
      by (apply (rounds_nonneg _ _ Rb); unfold Rdiv; nra).
    assert (B1 : (s / 1.055 <=? (1 + 0.055) / 1.055)%float = true)
      by (apply (rounds_leb_prim _ _ _ _ Rb Rh); unfold Rdiv; nra).
    assert (Hb : unit (s / 1.055)) by (split; [exact B0 | exact B1]).
    exact (float_pow_unit libm_pow _ 2.4 Hpow Hb eq_refl).
Qed.

End Transfer.

Lemma X4_linear_to_srgb_range_witness :
  pow_in_unit Libm.pow
  /\ exists v : float,
       linear_to_srgb Libm.pow 0.5 = Ok v
       /\ (-0.055 <=? v)%float = true /\ (v <=? 1)%float = true.
Proof.
  split; [exact Libm_pow_in_unit |].
  exact (X4_linear_to_srgb_range Libm.pow 0.5 Libm_pow_in_unit).
Defined.

Lemma X5_srgb_to_linear_unit_witness :
  pow_in_unit Libm.pow /\ unit 0.75
  /\ exists r : float, srgb_to_linear Libm.pow 0.75 = Ok r /\ unit r.
Proof.
  assert (Hc : unit 0.75) by (split; reflexivity).
  split; [exact Libm_pow_in_unit |]. split; [exact Hc |].
  exact (X5_srgb_to_linear_unit Libm.pow 0.75 Libm_pow_in_unit Hc).
Defined.

(** *** Gamma values outside the specified ones *)

Lemma build_first_raises
  (pow : float -> float -> float) (size : Z) (gamma_mode : value) (e : exn) :
  1 <= size -> sample pow size gamma_mode 0 = Raise e ->
  build_fire_palette pow size gamma_mode = Raise e.
Proof.
  intros Hs H. unfold build_fire_palette.
  destruct (range_positive size Hs) as (l & ->). cbn [mapM]. rewrite H.
  reflexivity.
Qed.

(** In a numeric mode the first sample is black after [apply_gamma]. *)
Lemma sample_first_numeric
  (pow : float -> float -> float) (size : Z) (gamma_mode : value) :
  eq_str gamma_mode "srgb" = false ->
  sample pow size gamma_mode 0
  = bind (apply_gamma pow (0, 0, 0)%float gamma_mode) quantize.
Proof.
  intros Hm. rewrite sample_0, interpolate_stops_fixed.
  change (0 <=? 0)%float with true. cbn [bind]. rewrite Hm. reflexivity.
Qed.

(** X6: a gamma that reads as zero, of either sign, makes [apply_gamma]
    raise [ZeroDivisionError] at [1.0 / gpow], for every colour; the builder
    raises it at its first sample, so for every size of 1 or above. *)
Theorem X6_gamma_zero
  (libm_pow : float -> float -> float) (size : Z) (gamma_mode : value)
  (g : float) (c : color) :
  eq_str gamma_mode "srgb" = false -> float_of gamma_mode = Ok g ->
  (g =? 0)%float = true -> 1 <= size ->
  apply_gamma libm_pow c gamma_mode = Raise ZeroDivisionError
  /\ build_fire_palette libm_pow size gamma_mode = Raise ZeroDivisionError.
Proof.
  intros Hm Hg H0 Hs.
  assert (A : forall c' : color,
             apply_gamma libm_pow c' gamma_mode = Raise ZeroDivisionError).
  { intros [[r gr] b]. unfold apply_gamma, float_truediv.
    rewrite Hm, Hg. cbn [bind]. rewrite H0. reflexivity. }
  split; [apply A |].
  apply build_first_raises; [exact Hs |].
  rewrite (sample_first_numeric libm_pow size gamma_mode Hm), A. reflexivity.
Qed.

Lemma X6_gamma_zero_witness :
  eq_str (Str "-0.0") "srgb" = false /\ float_of (Str "-0.0") = Ok (-0)%float
  /\ (-0 =? 0)%float = true /\ 1 <= 37
  /\ apply_gamma Libm.pow (1, 1, 1)%float (Str "-0.0") = Raise ZeroDivisionError
  /\ build_fire_palette Libm.pow 37 (Str "-0.0") = Raise ZeroDivisionError.
Proof.
  split; [reflexivity |]. split; [reflexivity |]. split; [reflexivity |].
  split; [lia |].
  apply (X6_gamma_zero Libm.pow 37 (Str "-0.0") (-0)%float (1, 1, 1)%float);
    try reflexivity; lia.
Defined.

Lemma ltb_neg_eqb (g : float) : (g <? 0)%float = true -> (g =? 0)%float = false.
Proof.
  rewrite ltb_spec, eqb_spec. unfold SFltb, SFeqb.
  destruct (SFcompare _ _) as [[| |] |]; congruence.
Qed.

(** What lies at or below a negative finite float is negative. *)
Lemma leb_negative (k e : float) :
  finite k -> (B2R k < 0)%R -> (e <=? k)%float = true -> (e <? 0)%float = true.
Proof.
  intros Fk Pk H.
  assert (Cases : finite e \/ Prim2SF e = S754_infinity true).
  { revert H. unfold finite in *. rewrite leb_spec. unfold SFleb.
    destruct (Prim2SF k) as [sk | sk | | sk mk ek]; try discriminate;
      destruct (Prim2SF e) as [s | [|] | | s m x]; cbn; auto; try discriminate;
      destruct sk; discriminate. }
  destruct Cases as [Fe | E].
  - apply (ltb_B2R e 0 Fe finite_0). rewrite B2R_0.
    apply (leb_B2R e k Fe Fk) in H. lra.
  - rewrite ltb_spec, E. reflexivity.
Qed.

(** The exponent [1.0 / g] is negative for every negative finite [g]. *)
Lemma reciprocal_negative (g : float) :
  (g <? 0)%float = true -> finite g ->
  float_truediv 1 g = Ok (1 / g)%float /\ (1 / g <? 0)%float = true.
Proof.
  intros H0 Fg.
  split; [unfold float_truediv; now rewrite (ltb_neg_eqb g H0) |].
  pose proof (proj1 (ltb_B2R g 0 Fg finite_0) H0) as Pg. rewrite B2R_0 in Pg.
  pose proof (finite_B2R_lt g Fg) as Bg.
  rewrite <- Rabs_Ropp, Rabs_pos_eq in Bg by lra.
  assert (Ek : B2R (-0x1p-1074) = (- bpow (-1074))%R).
  { unfold B2R. change (Prim2SF (-0x1p-1074)) with (S754_finite true 1 (-1074)).
    cbn [SF2R cond_Zopp Z.opp]. change (Z.neg 1) with (- (1))%Z.
    rewrite F2R_opp, F2R_1. reflexivity. }
  pose proof (bpow_pos (-1074)) as Bm. pose proof (bpow_pos 1024) as BM.
  apply (leb_negative (-0x1p-1074)); [reflexivity | rewrite Ek; lra |].
  apply (rounds_le (B2R 1 / B2R g));
    [apply div_rounds; [exact finite_1 | exact Fg | lra] | reflexivity |].
  rewrite B2R_1, Ek.
  assert (E : (bpow (-1024) * bpow 1024 = 1)%R)
    by (rewrite <- bpow_add; reflexivity).
  assert (L : (bpow (-1074) <= bpow (-1024))%R) by (apply bpow_le; lia).
  pose proof (bpow_pos (-1024)) as Bn.
  apply Rle_trans with (- bpow (-1024))%R; [| lra].
  apply Rmult_le_reg_r with (- B2R g)%R; [lra |].
  unfold Rdiv. replace (1 * / B2R g * - B2R g)%R with (-1)%R by (field; lra).
  nra.
Qed.

Lemma negative_infinite (e : float) :
  is_infinity e = true -> (e <? 0)%float = true -> e = neg_infinity.
Proof.
  unfold is_infinity. rewrite eqb_spec, abs_spec, ltb_spec.
  intros Hi Hn. rewrite <- (SF2Prim_Prim2SF e).
  destruct (Prim2SF e) as [s | [|] | | s m x]; try discriminate; reflexivity.
Qed.

(** X7: with a negative finite gamma the exponent [1.0 / gpow] is negative,
    and the builder raises at its first sample, black, for every size of 1
    or above: [0.0 ** e] is a [ZeroDivisionError] for a finite negative [e];
    when [1.0 / gpow] overflows to minus infinity, [0.0 ** e] is plus
    infinity instead and [round] raises [OverflowError] in [to_dac]. *)
Theorem X7_gamma_negative
  (libm_pow : float -> float -> float) (size : Z) (gamma_mode : value)
  (g : float) :
  eq_str gamma_mode "srgb" = false -> float_of gamma_mode = Ok g ->
  (g <? 0)%float = true -> finite g -> 1 <= size ->
  build_fire_palette libm_pow size gamma_mode
  = Raise (if is_infinity (1 / g) then OverflowError else ZeroDivisionError).
Proof.
  intros Hm Hg H0 Fg Hs. destruct (reciprocal_negative g H0 Fg) as [Ed He].
  apply build_first_raises; [exact Hs |].
  rewrite (sample_first_numeric libm_pow size gamma_mode Hm).
  unfold apply_gamma. rewrite Hm, Hg. cbn [bind]. rewrite Ed. cbn [bind].
  destruct (is_infinity (1 / g)) eqn:Ei.
  - rewrite (negative_infinite _ Ei He). reflexivity.
  - unfold float_pow at 1. rewrite (ltb_neg_eqb _ He).
    rewrite (is_nan_false _ (ltb_not_nan_l _ _ He)), Ei, He. reflexivity.
Qed.

Lemma X7_gamma_negative_witness :
  eq_str (Str "-2.2") "srgb" = false /\ float_of (Str "-2.2") = Ok (-2.2)%float
  /\ (-2.2 <? 0)%float = true /\ finite (-2.2) /\ 1 <= 37
  /\ build_fire_palette Libm.pow 37 (Str "-2.2") = Raise ZeroDivisionError
  /\ build_fire_palette Libm.pow 37 (Float (-0x1p-1074)) = Raise OverflowError.
Proof.
  split; [reflexivity |]. split; [reflexivity |]. split; [reflexivity |].
  split; [reflexivity |]. split; [lia |]. split.
  - apply (X7_gamma_negative Libm.pow 37 (Str "-2.2") (-2.2)%float);
      try reflexivity; lia.
  - apply (X7_gamma_negative Libm.pow 37 (Float (-0x1p-1074)) (-0x1p-1074)%float);
      try reflexivity; lia.
Defined.

(** X8: with a gamma that reads as NaN ([--gamma nan]) the exponent is NaN,
    black becomes [0.0 ** nan], a NaN, and [round] raises [ValueError] in
    [to_dac]: the builder raises it for every size of 1 or above. *)
Theorem X8_gamma_nan
  (libm_pow : float -> float -> float) (size : Z) (gamma_mode : value) :
  eq_str gamma_mode "srgb" = false -> float_of gamma_mode = Ok nan ->
  1 <= size ->
  build_fire_palette libm_pow size gamma_mode = Raise ValueError.
Proof.
  intros Hm Hg Hs. apply build_first_raises; [exact Hs |].
  rewrite (sample_first_numeric libm_pow size gamma_mode Hm).
  unfold apply_gamma. rewrite Hm, Hg. reflexivity.
Qed.

Lemma X8_gamma_nan_witness :
  eq_str (Str "NaN") "srgb" = false /\ float_of (Str "NaN") = Ok nan
  /\ 1 <= 37
  /\ build_fire_palette Libm.pow 37 (Str "NaN") = Raise ValueError.
Proof.
  split; [reflexivity |]. split; [reflexivity |]. split; [lia |].
  apply (X8_gamma_nan Libm.pow 37 (Str "NaN")); try reflexivity; lia.
Defined.

Lemma infinite_cases (g : float) :
  is_infinity g = true -> g = infinity \/ g = neg_infinity.
Proof.
  unfold is_infinity. rewrite eqb_spec, abs_spec.
  intros Hi. rewrite <- (SF2Prim_Prim2SF g).
  destruct (Prim2SF g) as [s | [|] | | s m x]; try discriminate; auto.
Qed.

(** With an infinite gamma the exponent is a zero, and every power is 1.0. *)
Lemma apply_gamma_infinite
  (pow : float -> float -> float) (c : color) (gamma_mode : value) (g : float) :
  eq_str gamma_mode "srgb" = false -> float_of gamma_mode = Ok g ->
  is_infinity g = true ->
  apply_gamma pow c gamma_mode = Ok (1, 1, 1)%float.
Proof.
  intros Hm Hg Hi. destruct c as [[r gr] b]. unfold apply_gamma.
  rewrite Hm, Hg. destruct (infinite_cases g Hi) as [-> | ->]; reflexivity.
Qed.

Lemma mapM_constant {A B : Type} (f : A -> result B) (b : B) (l : list A) :
  (forall a, In a l -> f a = Ok b) -> mapM f l = Ok (repeat b (List.length l)).
Proof.
  intros H. rewrite (mapM_total f (fun _ => b) l H).
  f_equal. induction l as [| a l IH]; [reflexivity |].
  cbn [map List.length repeat]. f_equal. apply IH.
  intros a' Ha'. apply H. right. exact Ha'.
Qed.

(** In a numeric mode the colour before [apply_gamma] is there for every
    parameter of the unit interval, whatever [pow] is. *)
Lemma numeric_colour
  (pow : float -> float -> float) (t : float) (gamma_mode : value) :
  eq_str gamma_mode "srgb" = false -> unit t ->
  exists c : color,
    interpolate_stops pow stops t gamma_mode = apply_gamma pow c gamma_mode.
Proof.
  intros Hm Ht. rewrite interpolate_stops_fixed, Hm. cbn [negb].
  assert (Nt : not_nan t) by exact (leb_not_nan_r 0 t (proj1 Ht)).
  assert (N0 : not_nan 0) by (unfold not_nan; discriminate).
  assert (N1 : not_nan 1) by (unfold not_nan; discriminate).
  destruct (t <=? 0)%float eqn:T0; [eexists; reflexivity |].
  destruct (1 <=? t)%float eqn:T1; [eexists; reflexivity |].
  assert (P0 : (0 <? t)%float = true)
    by (apply leb_false_ltb; [apply comparable; assumption | exact T0]).
  assert (P1 : (t <? 1)%float = true)
    by (apply leb_false_ltb; [apply comparable; assumption | exact T1]).
  destruct (scan_finds pow t gamma_mode P0 P1)
    as (pre & p0 & c0 & p1 & c1 & post & _ & Hin & Hp0 & Hp1 & ->).
  destruct (segment_fraction _ t Hin Hp0 Hp1) as [Eu _]. cbn [fst snd] in Eu.
  rewrite Eu. cbn [bind]. unfold blend. rewrite Hm.
  destruct c0 as [[r0 g0] b0], c1 as [[r1 g1] b1]. eexists. reflexivity.
Qed.

(** X9: with an infinite gamma ([--gamma inf], of either sign) the exponent
    [1.0 / gpow] is a zero and [x ** 0.0] is 1.0 for every [x]: the builder
    returns a palette that is white, (63, 63, 63), at every index, for every
    size and whatever the platform's [pow] is. *)
Theorem X9_gamma_infinite
  (libm_pow : float -> float -> float) (size : Z) (gamma_mode : value)
  (g : float) :
  eq_str gamma_mode "srgb" = false -> float_of gamma_mode = Ok g ->
  is_infinity g = true ->
  build_fire_palette libm_pow size gamma_mode
  = Ok (repeat (63, 63, 63) (Z.to_nat size)).
Proof.
  intros Hm Hg Hi. unfold build_fire_palette.
  rewrite <- (range_length size). apply mapM_constant.
  intros i Hin. apply In_range in Hin. rewrite sample_quantize.
  assert (Ht : exists t : float,
             (if 1 <? size then int_truediv i (size - 1) else Ok 0%float) = Ok t
             /\ unit t).
  { destruct (1 <? size) eqn:E.
    - apply Z.ltb_lt in E. apply int_truediv_unit; lia.
    - exists 0%float. split; [reflexivity | exact unit_0]. }
  destruct Ht as (t & -> & Ht). cbn [bind].
  destruct (numeric_colour libm_pow t gamma_mode Hm Ht) as [c ->].
  rewrite (apply_gamma_infinite libm_pow c gamma_mode g Hm Hg Hi).
  reflexivity.
Qed.

Lemma X9_gamma_infinite_witness :
  eq_str (Str "inf") "srgb" = false /\ float_of (Str "inf") = Ok infinity
  /\ is_infinity infinity = true
  /\ build_fire_palette Libm.pow 4 (Str "inf")
     = Ok [(63, 63, 63); (63, 63, 63); (63, 63, 63); (63, 63, 63)].
Proof.
  split; [reflexivity |]. split; [reflexivity |]. split; [reflexivity |].
  exact (X9_gamma_infinite Libm.pow 4 (Str "inf") infinity
           eq_refl eq_refl eq_refl).
Defined.

(** *** A numeric gamma as a string and as a float *)

Lemma scan_cons
  (pow : float -> float -> float) (p0 p1 : float) (c0 c1 : color)
  (l : list stop) (t : float) (gamma_mode : value) :
  scan pow ((p0, c0) :: (p1, c1) :: l) t gamma_mode
  = if ((p0 <=? t) && (t <=? p1))%float
    then bind (float_truediv (t - p0) (p1 - p0))
           (fun u => bind (blend pow c0 c1 u gamma_mode)
                       (fun c => Ok (Some c)))
    else scan pow ((p1, c1) :: l) t gamma_mode.
Proof. reflexivity. Qed.

Section StringOrFloat.

Variable libm_pow : float -> float -> float.
Variable s : string.
Variable g : float.
Hypothesis s_numeric : String.eqb s "srgb" = false.
Hypothesis s_reads : float_of_string s = Ok g.

Lemma apply_gamma_string (c : color) :
  apply_gamma libm_pow c (Str s) = apply_gamma libm_pow c (Float g).
Proof.
  destruct c as [[r gr] b]. unfold apply_gamma. cbn [eq_str float_of].
  rewrite s_numeric, s_reads. reflexivity.
Qed.

Lemma blend_string (c0 c1 : color) (u : float) :
  blend libm_pow c0 c1 u (Str s) = blend libm_pow c0 c1 u (Float g).
Proof. unfold blend. cbn [eq_str]. rewrite s_numeric. reflexivity. Qed.

Lemma scan_string (l : list stop) (t : float) :
  scan libm_pow l t (Str s) = scan libm_pow l t (Float g).
Proof.
  induction l as [| [p0 c0] l IH]; [reflexivity |].
  destruct l as [| [p1 c1] l]; [reflexivity |].
  rewrite !scan_cons. destruct ((p0 <=? t) && (t <=? p1))%float; [| exact IH].
  destruct (float_truediv (t - p0) (p1 - p0)) as [u | e]; [| reflexivity].
  cbn [bind]. rewrite blend_string. reflexivity.
Qed.

Lemma interpolate_string (l : list stop) (t : float) :
  interpolate_stops libm_pow l t (Str s)
  = interpolate_stops libm_pow l t (Float g).
Proof.
  destruct l as [| first l]; [reflexivity |].
  unfold interpolate_stops. cbv zeta. rewrite scan_string.
  cbn [eq_str]. rewrite s_numeric. cbn [negb].
  destruct (if (t <=? fst first)%float then _ else _) as [[c |] | e];
    cbn [bind]; [apply apply_gamma_string | reflexivity | reflexivity].
Qed.

Lemma sample_string (size i : Z) :
  sample libm_pow size (Str s) i = sample libm_pow size (Float g) i.
Proof.
  unfold sample. destruct (if 1 <? size then _ else _) as [t | e];
    [| reflexivity].
  cbn [bind]. rewrite interpolate_string. reflexivity.
Qed.

End StringOrFloat.

Lemma mapM_ext {A B : Type} (f f' : A -> result B) (l : list A) :
  (forall a, f a = f' a) -> mapM f l = mapM f' l.
Proof.
  intros H. induction l as [| a l IH]; [reflexivity |].
  cbn [mapM]. rewrite H, IH. reflexivity.
Qed.

(** X10: a numeric gamma gives the same palette, or the same exception,
    whether the builder gets it as the string of the command line or as the
    float that [float] reads from that string: the string is compared with
    [srgb] and converted again at each use, and nothing else is done with
    it. *)
Theorem X10_gamma_string_or_float
  (libm_pow : float -> float -> float) (size : Z) (s : string) (g : float) :
  s <> "srgb"%string -> float_of_string s = Ok g ->
  build_fire_palette libm_pow size (Str s)
  = build_fire_palette libm_pow size (Float g).
Proof.
  intros Hs Hg. apply String.eqb_neq in Hs. unfold build_fire_palette.
  apply mapM_ext. intros i. exact (sample_string libm_pow s g Hs Hg size i).
Qed.

Lemma X10_gamma_string_or_float_witness :
  "2.2"%string <> "srgb"%string /\ float_of_string "2.2" = Ok 2.2%float
  /\ build_fire_palette Libm.pow 37 (Str "2.2")
     = build_fire_palette Libm.pow 37 (Float 2.2).
Proof.
  assert (Hs : "2.2"%string <> "srgb"%string) by discriminate.
  split; [exact Hs |]. split; [reflexivity |].
  exact (X10_gamma_string_or_float Libm.pow 37 "2.2" 2.2 Hs eq_refl).
Defined.

(** *** Quantization: [round] and [to_dac] *)

(** [n] is the integer nearest to [r], the even one of the two when [r] is
    halfway. *)
Definition nearest_even (r : R) (n : Z) : Prop :=
  (Rabs (IZR n - r) <= 1 / 2)%R
  /\ (Rabs (IZR n - r) = (1 / 2)%R -> Z.even n = true).

Lemma nearest_even_opp (r : R) (n : Z) :
  nearest_even r n -> nearest_even (- r) (- n).
Proof.
  unfold nearest_even. rewrite opp_IZR, Z.even_opp.
  replace (- IZR n - - r)%R with (- (IZR n - r))%R by ring.
  rewrite Rabs_Ropp. auto.
Qed.

Lemma Rabs_le_bounds (x a : R) : (Rabs x <= a)%R -> (- a <= x <= a)%R.
Proof.
  intros H. pose proof (Rle_abs x) as H1. pose proof (Rle_abs (- x)) as H2.
  rewrite Rabs_Ropp in H2. lra.
Qed.

Lemma nearest_even_mono (r r' : R) (n n' : Z) :
  nearest_even r n -> nearest_even r' n' -> (r <= r')%R -> n <= n'.
Proof.
  intros [Hn En] [Hn' En'] Hr.
  destruct (Z_le_gt_dec n n') as [Hle | Hgt]; [exact Hle | exfalso].
  assert (H1 : (IZR n' + 1 <= IZR n)%R)
    by (rewrite <- plus_IZR; apply IZR_le; lia).
  apply Rabs_le_bounds in Hn. apply Rabs_le_bounds in Hn'.
  assert (A : (IZR n - r = 1 / 2)%R) by lra.
  assert (A' : (IZR n' - r' = - (1 / 2))%R) by lra.
  assert (E : Z.even n = true)
    by (apply En; rewrite A; apply Rabs_pos_eq; lra).
  assert (E' : Z.even n' = true)
    by (apply En'; rewrite A', Rabs_Ropp; apply Rabs_pos_eq; lra).
  assert (N : n = n' + 1).
  { apply eq_IZR. rewrite plus_IZR. lra. }
  apply Z.even_spec in E as [a Ha]. apply Z.even_spec in E' as [a' Ha']. lia.
Qed.

Lemma round_half_even_nearest (m : Z) (k : positive) :
  0 <= m ->
  2 * Z.abs (round_half_even m k * 2 ^ Z.pos k - m) <= 2 ^ Z.pos k
  /\ (2 * Z.abs (round_half_even m k * 2 ^ Z.pos k - m) = 2 ^ Z.pos k ->
      Z.even (round_half_even m k) = true).
Proof.
  intros Hm. unfold round_half_even.
  rewrite Z.shiftr_div_pow2, !Z.shiftl_mul_pow2 by lia. rewrite Z.mul_1_l.
  assert (EP : 2 ^ Z.pos k = 2 * 2 ^ (Z.pos k - 1)).
  { rewrite <- Z.pow_succ_r by lia. f_equal. lia. }
  assert (PH : 0 < 2 ^ (Z.pos k - 1)) by (apply Z.pow_pos_nonneg; lia).
  set (P := 2 ^ Z.pos k) in *. set (H := 2 ^ (Z.pos k - 1)) in *.
  pose proof (Z.div_mod m P ltac:(lia)) as Dm.
  pose proof (Z.mod_pos_bound m P ltac:(lia)) as Bm.
  set (q := m / P) in *. set (r := m mod P) in *.
  assert (Er : m - q * P = r) by lia. rewrite Er.
  destruct (Z.compare_spec r H) as [E | L | G].
  - destruct (Z.even q) eqn:Eq.
    + split; [lia | auto].
    + split; [lia |]. intros _. rewrite Z.even_add, Eq. reflexivity.
  - split; [lia | intros T; exfalso; lia].
  - split; [lia | intros T; exfalso; lia].
Qed.

Lemma nearest_even_F2R (m : Z) (k : positive) (n : Z) :
  2 * Z.abs (n * 2 ^ Z.pos k - m) <= 2 ^ Z.pos k ->
  (2 * Z.abs (n * 2 ^ Z.pos k - m) = 2 ^ Z.pos k -> Z.even n = true) ->
  nearest_even (F2R m (Z.neg k)) n.
Proof.
  intros Hle Heven.
  assert (PP : 0 < 2 ^ Z.pos k) by (apply Z.pow_pos_nonneg; lia).
  set (P := 2 ^ Z.pos k) in *.
  assert (Pr : (0 < IZR P)%R) by (apply IZR_lt; exact PP).
  assert (Eb : (bpow (Z.neg k) * IZR P = 1)%R).
  { unfold P. rewrite <- bpow_Z by lia. rewrite <- bpow_add.
    replace (Z.neg k + Z.pos k) with 0 by lia. apply bpow_0. }
  pose proof (bpow_pos (Z.neg k)) as Bp.
  assert (Ed : ((IZR n - F2R m (Z.neg k)) * IZR P = IZR (n * P - m))%R).
  { unfold F2R. rewrite minus_IZR, mult_IZR.
    replace ((IZR n - IZR m * bpow (Z.neg k)) * IZR P)%R
      with (IZR n * IZR P - IZR m * (bpow (Z.neg k) * IZR P))%R by ring.
    rewrite Eb. ring. }
  assert (Ea : (Rabs (IZR n - F2R m (Z.neg k)) * IZR P
                = IZR (Z.abs (n * P - m)))%R).
  { rewrite abs_IZR, <- Ed, Rabs_mult, (Rabs_pos_eq (IZR P)) by lra.
    reflexivity. }
  apply IZR_le in Hle. rewrite mult_IZR, <- Ea in Hle.
  split.
  - apply Rmult_le_reg_r with (IZR P); [exact Pr |]. lra.
  - intros T. apply Heven. apply eq_IZR. rewrite mult_IZR, <- Ea, T. lra.
Qed.

(** [round] of a finite float is the nearest integer, ties to even. *)
Lemma round_nearest (x : float) :
  finite x -> exists n : Z, round x = Ok n /\ nearest_even (B2R x) n.
Proof.
  unfold finite, round, B2R.
  destruct (Prim2SF x) as [s | s | | s m e]; try discriminate; intros _.
  - exists 0. split; [reflexivity |]. cbn [SF2R]. unfold nearest_even.
    replace (IZR 0 - 0)%R with 0%R by (simpl; ring). rewrite Rabs_R0.
    split; [lra | intros T; exfalso; lra].
  - assert (H : exists n : Z,
               match e with
               | 0 => Z.pos m
               | Z.pos _ => Z.shiftl (Z.pos m) e
               | Z.neg k => round_half_even (Z.pos m) k
               end = n /\ nearest_even (F2R (Z.pos m) e) n).
    { eexists. split; [reflexivity |]. destruct e as [| p | k].
      - unfold F2R, nearest_even. rewrite bpow_0, Rmult_1_r, Rminus_diag.
        rewrite Rabs_R0. split; [lra | intros T; exfalso; lra].
      - rewrite Z.shiftl_mul_pow2 by lia. unfold F2R, nearest_even.
        rewrite mult_IZR, bpow_Z by lia. rewrite Rminus_diag, Rabs_R0.
        split; [lra | intros T; exfalso; lra].
      - destruct (round_half_even_nearest (Z.pos m) k ltac:(lia)) as [A B].
        now apply nearest_even_F2R. }
    destruct H as (n & -> & Hn).
    exists (if s then - n else n). split; [reflexivity |].
    cbn [SF2R]. destruct s; cbn [cond_Zopp]; [| exact Hn].
    rewrite F2R_opp. now apply nearest_even_opp.
Qed.

Lemma round_monotone (x y : float) (n m : Z) :
  finite x -> finite y -> (x <=? y)%float = true ->
  round x = Ok n -> round y = Ok m -> n <= m.
Proof.
  intros Fx Fy Hxy Hx Hy.
  destruct (round_nearest x Fx) as (n' & En & Nn).
  destruct (round_nearest y Fy) as (m' & Em & Nm).
  assert (n' = n) by congruence. assert (m' = m) by congruence. subst n' m'.
  apply (leb_B2R x y Fx Fy) in Hxy.
  exact (nearest_even_mono _ _ _ _ Nn Nm Hxy).
Qed.

Lemma round_Ok_finite (x : float) (n : Z) : round x = Ok n -> finite x.
Proof.
  unfold round, finite.
  destruct (Prim2SF x) as [s | s | | s m e]; try discriminate; reflexivity.
Qed.

Lemma finite_scaled (v : float) : finite (v * 63) -> finite v.
Proof.
  unfold finite. rewrite mul_spec.
  destruct (Prim2SF v) as [s | s | | s m e]; try reflexivity;
    intros H; vm_compute in H; discriminate H.
Qed.

Lemma to_dac_Ok (v : float) (n : Z) :
  to_dac v = Ok n ->
  exists k : Z,
    round (v * 63) = Ok k /\ n = Z.max 0 (Z.min 63 k) /\ finite (v * 63).
Proof.
  unfold to_dac. intros H. apply bind_Ok in H as (k & Hk & H).
  injection H as <-. exists k. split; [exact Hk |]. split; [reflexivity |].
  exact (round_Ok_finite _ _ Hk).
Qed.

Lemma to_dac_mono (v1 v2 : float) (n1 n2 : Z) :
  (v1 <=? v2)%float = true -> to_dac v1 = Ok n1 -> to_dac v2 = Ok n2 ->
  n1 <= n2.
Proof.
  intros Hv H1 H2.
  apply to_dac_Ok in H1 as (k1 & R1 & -> & F1).
  apply to_dac_Ok in H2 as (k2 & R2 & -> & F2).
  pose proof (finite_scaled v1 F1) as Fv1. pose proof (finite_scaled v2 F2) as Fv2.
  assert (F63 : finite 63) by reflexivity.
  assert (P63 : (0 <= B2R 63)%R)
    by (apply (leb_B2R 0 63 finite_0 F63); reflexivity).
  apply (leb_B2R v1 v2 Fv1 Fv2) in Hv.
  assert (Hs : (v1 * 63 <=? v2 * 63)%float = true).
  { apply (rounds_leb_prim (B2R v1 * B2R 63) (B2R v2 * B2R 63));
      [apply mul_rounds; assumption | apply mul_rounds; assumption | nra]. }
  pose proof (round_monotone _ _ _ _ F1 F2 Hs R1 R2). lia.
Qed.

(** X11: what [to_dac] raises, and when it returns: a NaN gives
    [ValueError] and a value whose product with 63.0 is infinite (an
    infinity, or a finite value beyond the largest float over 63) gives
    [OverflowError], both from [round], before any clamping; every other
    value, however far outside [0, 1], gives an integer in [0, 63]. *)
Theorem X11_to_dac_errors (v : float) :
  (v = nan -> to_dac v = Raise ValueError)
  /\ (is_infinity (v * 63) = true -> to_dac v = Raise OverflowError)
  /\ (finite (v * 63) -> exists n : Z, to_dac v = Ok n /\ dac n).
Proof.
  split; [intros ->; reflexivity |]. split.
  - unfold is_infinity, to_dac, round. rewrite eqb_spec, abs_spec.
    destruct (Prim2SF (v * 63)) as [s | s | | s m e]; try discriminate.
    reflexivity.
  - intros F. destruct (finite_round _ F) as [k Hk].
    exists (Z.max 0 (Z.min 63 k)). unfold to_dac. rewrite Hk.
    split; [reflexivity | unfold dac; lia].
Qed.

(** X12: quantization is monotone: of two values that [to_dac] accepts, the
    one that is not above the other never gets the greater DAC level. *)
Theorem X12_to_dac_monotone (v1 v2 : float) (n1 n2 : Z) :
  (v1 <=? v2)%float = true -> to_dac v1 = Ok n1 -> to_dac v2 = Ok n2 ->
  n1 <= n2.
Proof. exact (to_dac_mono v1 v2 n1 n2). Qed.

Lemma X12_to_dac_monotone_witness :
  (0.3 <=? 0.7)%float = true /\ to_dac 0.3 = Ok 19 /\ to_dac 0.7 = Ok 44
  /\ 19 <= 44.
Proof.
  split; [reflexivity |]. split; [reflexivity |]. split; [reflexivity |].
  exact (X12_to_dac_monotone 0.3 0.7 19 44 eq_refl eq_refl eq_refl).
Defined.

(** X13: quantization saturates: for a value whose product with 63.0 is
    finite, so that [round] accepts it, a value at or below 0.0 gives level
    0 and a value at or above 1.0 gives level 63. *)
Theorem X13_to_dac_saturates (v : float) :
  finite (v * 63) ->
  ((v <=? 0)%float = true -> to_dac v = Ok 0)
  /\ ((1 <=? v)%float = true -> to_dac v = Ok 63).
Proof.
  intros F. destruct (finite_round _ F) as [k Hk].
  assert (H : to_dac v = Ok (Z.max 0 (Z.min 63 k)))
    by (unfold to_dac; rewrite Hk; reflexivity).
  pose proof (to_dac_range v _ H) as [L U]. rewrite H. split; intros Hv; f_equal.
  - pose proof (to_dac_mono v 0 _ 0 Hv H eq_refl). lia.
  - pose proof (to_dac_mono 1 v 63 _ Hv eq_refl H). lia.
Qed.

Lemma X13_to_dac_saturates_witness :
  finite (-3.5 * 63) /\ (-3.5 <=? 0)%float = true /\ to_dac (-3.5) = Ok 0
  /\ finite (1e300 * 63) /\ (1 <=? 1e300)%float = true /\ to_dac 1e300 = Ok 63.
Proof.
  split; [reflexivity |]. split; [reflexivity |]. split.
  { exact (proj1 (X13_to_dac_saturates (-3.5) eq_refl) eq_refl). }
  split; [reflexivity |]. split; [reflexivity |].
  exact (proj2 (X13_to_dac_saturates 1e300 eq_refl) eq_refl).
Defined.

Lemma nearest_even_half (k n : Z) :
  nearest_even (IZR k + 1 / 2) n -> n = if Z.even k then k else k + 1.
Proof.
  intros [Hn En]. pose proof (Rabs_le_bounds _ _ Hn) as B.
  assert (Hk : k <= n <= k + 1).
  { split.
    - apply le_IZR. lra.
    - apply le_IZR. rewrite plus_IZR. lra. }
  assert (Cases : n = k \/ n = k + 1) by lia.
  destruct Cases as [-> | ->].
  - assert (E : Z.even k = true).
    { apply En. replace (IZR k - (IZR k + 1 / 2))%R with (- (1 / 2))%R by ring.
      rewrite Rabs_Ropp. apply Rabs_pos_eq. lra. }
    rewrite E. reflexivity.
  - assert (E : Z.even (k + 1) = true).
    { apply En. rewrite plus_IZR.
      replace (IZR k + 1 - (IZR k + 1 / 2))%R with (1 / 2)%R by field.
      apply Rabs_pos_eq. lra. }
    rewrite Z.even_add in E. destruct (Z.even k); [discriminate E | reflexivity].
Qed.

(** X14: ties go to the even level: when [v * 63.0] is exactly halfway
    between the integers [k] and [k + 1], [to_dac] gives the even one of the
    two (clamped to [0, 63] like every other result). *)
Theorem X14_to_dac_ties_to_even (v : float) (k : Z) :
  finite (v * 63) -> B2R (v * 63) = (IZR k + 1 / 2)%R ->
  to_dac v = Ok (Z.max 0 (Z.min 63 (if Z.even k then k else k + 1))).
Proof.
  intros F Hk. destruct (round_nearest _ F) as (n & Hn & Nn).
  rewrite Hk in Nn. apply nearest_even_half in Nn. subst n.
  unfold to_dac. rewrite Hn. reflexivity.
Qed.

Lemma F2R_quotient (m : Z) (k : positive) :
  F2R m (Z.neg k) = (IZR m / IZR (2 ^ Z.pos k))%R.
Proof.
  assert (PP : 0 < 2 ^ Z.pos k) by (apply Z.pow_pos_nonneg; lia).
  assert (Pr : (0 < IZR (2 ^ Z.pos k))%R) by (apply IZR_lt; exact PP).
  assert (Eb : (bpow (Z.neg k) * IZR (2 ^ Z.pos k) = 1)%R).
  { rewrite <- bpow_Z by lia. rewrite <- bpow_add.
    replace (Z.neg k + Z.pos k) with 0 by lia. apply bpow_0. }
  unfold F2R. apply Rmult_eq_reg_r with (IZR (2 ^ Z.pos k)); [| lra].
  unfold Rdiv. rewrite !Rmult_assoc, Eb, Rinv_l by lra. reflexivity.
Qed.

Lemma X14_to_dac_ties_to_even_witness :
  finite (2.5 / 63 * 63) /\ B2R (2.5 / 63 * 63) = (IZR 2 + 1 / 2)%R
  /\ to_dac (2.5 / 63) = Ok 2
  /\ finite (1.5 / 63 * 63) /\ B2R (1.5 / 63 * 63) = (IZR 1 + 1 / 2)%R
  /\ to_dac (1.5 / 63) = Ok 2.
Proof.
  assert (H2 : B2R (2.5 / 63 * 63) = (IZR 2 + 1 / 2)%R).
  { unfold B2R.
    change (Prim2SF (2.5 / 63 * 63))
      with (S754_finite false 5629499534213120 (-51)).
    cbn [SF2R cond_Zopp]. rewrite F2R_quotient.
    change (2 ^ 51) with 2251799813685248. lra. }
  assert (H1 : B2R (1.5 / 63 * 63) = (IZR 1 + 1 / 2)%R).
  { unfold B2R.
    change (Prim2SF (1.5 / 63 * 63))
      with (S754_finite false 6755399441055744 (-52)).
    cbn [SF2R cond_Zopp]. rewrite F2R_quotient.
    change (2 ^ 52) with 4503599627370496. lra. }
  split; [reflexivity |]. split; [exact H2 |]. split.
  { exact (X14_to_dac_ties_to_even (2.5 / 63) 2 eq_refl H2). }
  split; [reflexivity |]. split; [exact H1 |].
  exact (X14_to_dac_ties_to_even (1.5 / 63) 1 eq_refl H1).
Defined.

(** X15: every DAC level is reached, and [n / 63] is a value that reaches
    level [n]: [to_dac] undoes the division by 63 on each of 0, ..., 63. *)
Theorem X15_to_dac_levels (n : Z) :
  dac n -> exists v : float, int_truediv n 63 = Ok v /\ to_dac v = Ok n.
Proof.
  intros [H0 H63].
  assert (H : forallb (fun k => match int_truediv k 63 with
                                | Ok v => match to_dac v with
                                          | Ok n' => n' =? k
                                          | Raise _ => false
                                          end
                                | Raise _ => false
                                end) (range 64) = true)
    by (vm_compute; reflexivity).
  rewrite forallb_forall in H. specialize (H n).
  assert (Hin : In n (range 64)).
  { unfold range. apply in_map_iff.
    exists (Z.to_nat n). split; [lia | apply in_seq; lia]. }
  specialize (H Hin).
  destruct (int_truediv n 63) as [v | e]; [| discriminate H].
  exists v. split; [reflexivity |].
  destruct (to_dac v) as [n' | e]; [| discriminate H].
  apply Z.eqb_eq in H. now subst n'.
Qed.

Lemma X15_to_dac_levels_witness :
  dac 17 /\ exists v : float, int_truediv 17 63 = Ok v /\ to_dac v = Ok 17.
Proof.
  assert (H : dac 17) by (unfold dac; lia).
  split; [exact H |]. exact (X15_to_dac_levels 17 H).
Defined.

(** *** The raw and the hex writers on any palette *)

(** An entry whose components are in [range(256)]. *)
Definition byte_entry (e : entry) : Prop :=
  let '(r, g, b) := e in 0 <= r < 256 /\ 0 <= g < 256 /\ 0 <= b < 256.

Lemma In_range_256 (n : Z) : 0 <= n < 256 -> In n (range 256).
Proof.
  intros H. unfold range. apply in_map_iff.
  exists (Z.to_nat n). split; [lia | apply in_seq; lia].
Qed.

Lemma byte_of_int_range (n : Z) :
  0 <= n < 256 -> exists b, byte_of_int n = Ok b /\ Z.of_N (Byte.to_N b) = n.
Proof.
  intros Hn.
  assert (H : forallb (fun k => match byte_of_int k with
                                | Ok b => Z.of_N (Byte.to_N b) =? k
                                | Raise _ => false
                                end) (range 256) = true)
    by (vm_compute; reflexivity).
  rewrite forallb_forall in H. specialize (H n (In_range_256 n Hn)).
  destruct (byte_of_int n) as [b | e]; [| discriminate H].
  exists b. split; [reflexivity | now apply Z.eqb_eq].
Qed.

Lemma byte_of_int_raises (n : Z) (e : exn) :
  byte_of_int n = Raise e -> e = ValueError /\ ~ 0 <= n < 256.
Proof.
  intros H. split.
  - revert H. unfold byte_of_int.
    destruct ((0 <=? n) && (n <? 256))%bool; [| congruence].
    destruct (Byte.of_N (Z.to_N n)); congruence.
  - intros R. destruct (byte_of_int_range n R) as (b & Hb & _). congruence.
Qed.

Lemma write_raw_bytes (pal : list entry) :
  Forall byte_entry pal ->
  exists bs, write_raw pal = Ok bs
             /\ map (fun b => Z.of_N (Byte.to_N b)) bs = flat pal
             /\ List.length bs = (3 * List.length pal)%nat
             /\ read_triplets bs = pal.
Proof.
  induction 1 as [| [[r g] b] pal (Hr & Hg & Hb) Hpal IH].
  - exists []. repeat split.
  - destruct IH as (bs & Hbs & Hflat & Hlen & Hread).
    destruct (byte_of_int_range r Hr) as (br & Ebr & Vr).
    destruct (byte_of_int_range g Hg) as (bg & Ebg & Vg).
    destruct (byte_of_int_range b Hb) as (bb & Ebb & Vb).
    exists (br :: bg :: bb :: bs).
    rewrite write_raw_cons, Ebr, Ebg, Ebb, Hbs.
    cbn [bind map read_triplets List.length].
    rewrite Vr, Vg, Vb, Hflat, Hlen, Hread.
    repeat split. lia.
Qed.

Lemma write_raw_raises (pal : list entry) (e : exn) :
  write_raw pal = Raise e -> e = ValueError.
Proof.
  induction pal as [| [[r g] b] pal IH]; [discriminate |].
  rewrite write_raw_cons.
  destruct (byte_of_int r) as [br | er] eqn:Er; cbn [bind];
    [| intros [= <-]; exact (proj1 (byte_of_int_raises r er Er))].
  destruct (byte_of_int g) as [bg | eg] eqn:Eg; cbn [bind];
    [| intros [= <-]; exact (proj1 (byte_of_int_raises g eg Eg))].
  destruct (byte_of_int b) as [bb | eb] eqn:Eb; cbn [bind];
    [| intros [= <-]; exact (proj1 (byte_of_int_raises b eb Eb))].
  destruct (write_raw pal) as [bs | e']; cbn [bind]; [discriminate |].
  intros [= <-]. now apply IH.
Qed.

Lemma byte_of_int_outside (n : Z) :
  ~ 0 <= n < 256 -> byte_of_int n = Raise ValueError.
Proof.
  intros H. unfold byte_of_int.
  destruct ((0 <=? n) && (n <? 256))%bool eqn:E; [| reflexivity].
  apply andb_true_iff in E as [E1 E2].
  apply Z.leb_le in E1. apply Z.ltb_lt in E2. lia.
Qed.

Lemma byte_entry_dec (e : entry) : {byte_entry e} + {~ byte_entry e}.
Proof.
  destruct e as [[r g] b]. unfold byte_entry.
  destruct (Z_le_dec 0 r), (Z_lt_dec r 256), (Z_le_dec 0 g), (Z_lt_dec g 256),
    (Z_le_dec 0 b), (Z_lt_dec b 256); (left; lia) || (right; lia).
Qed.

Lemma write_raw_outside (pal : list entry) :
  ~ Forall byte_entry pal -> write_raw pal = Raise ValueError.
Proof.
  induction pal as [| [[r g] b] pal IH]; intros H.
  - elim H. constructor.
  - rewrite write_raw_cons.
    destruct (byte_entry_dec (r, g, b)) as [(Hr & Hg & Hb) | Hn].
    + destruct (byte_of_int_range r Hr) as (br & -> & _).
      destruct (byte_of_int_range g Hg) as (bg & -> & _).
      destruct (byte_of_int_range b Hb) as (bb & -> & _).
      cbn [bind]. rewrite IH; [reflexivity |].
      intros F. apply H. constructor; [repeat split; lia | exact F].
    + unfold byte_entry in Hn.
      destruct (Z_le_dec 0 r) as [r0 |]; [destruct (Z_lt_dec r 256) as [r1 |] |];
        try (rewrite (byte_of_int_outside r) by lia; reflexivity).
      destruct (byte_of_int_range r (conj r0 r1)) as (br & -> & _). cbn [bind].
      destruct (Z_le_dec 0 g) as [g0 |]; [destruct (Z_lt_dec g 256) as [g1 |] |];
        try (rewrite (byte_of_int_outside g) by lia; reflexivity).
      destruct (byte_of_int_range g (conj g0 g1)) as (bg & -> & _). cbn [bind].
      rewrite (byte_of_int_outside b) by lia. reflexivity.
Qed.

(** X16: the raw writer on any palette, not only one of the builder: when
    every component is in [range(256)] it returns three bytes per entry, in
    order, that read back as the palette; when some component is outside
    that range it raises [ValueError], the one of [bytearray.extend]; and it
    raises nothing else. *)
Theorem X16_write_raw_any_palette (pal : list entry) :
  (Forall byte_entry pal ->
   exists bs : list byte,
     write_raw pal = Ok bs
     /\ map (fun b => Z.of_N (Byte.to_N b)) bs = flat pal
     /\ List.length bs = (3 * List.length pal)%nat
     /\ read_triplets bs = pal)
  /\ (~ Forall byte_entry pal -> write_raw pal = Raise ValueError)
  /\ (forall e : exn,
        write_raw pal = Raise e -> e = ValueError /\ ~ Forall byte_entry pal).
Proof.
  split; [apply write_raw_bytes |]. split; [apply write_raw_outside |].
  intros e H. split; [exact (write_raw_raises pal e H) |].
  intros F. destruct (write_raw_bytes pal F) as (bs & Hbs & _). congruence.
Qed.

Lemma X16_write_raw_any_palette_witness :
  (exists bs : list byte,
     write_raw [(0, 255, 7)] = Ok bs /\ read_triplets bs = [(0, 255, 7)])
  /\ write_raw [(0, 255, 7); (0, 256, 7)] = Raise ValueError
  /\ write_raw [(-1, 0, 0)] = Raise ValueError.
Proof.
  split; [| split].
  - destruct (proj1 (X16_write_raw_any_palette [(0, 255, 7)]))
      as (bs & H & _ & _ & Hr).
    + constructor; [unfold byte_entry; lia | constructor].
    + exists bs. auto.
  - apply (proj1 (proj2 (X16_write_raw_any_palette [(0, 255, 7); (0, 256, 7)]))).
    intros F. apply Forall_inv_tail, Forall_inv in F.
    unfold byte_entry in F. lia.
  - apply (proj1 (proj2 (X16_write_raw_any_palette [(-1, 0, 0)]))).
    intros F. apply Forall_inv in F. unfold byte_entry in F. lia.
Defined.

Lemma string_length_append (a b : string) :
  String.length (a ++ b) = (String.length a + String.length b)%nat.
Proof. induction a as [| c a IH]; cbn; [reflexivity | now rewrite IH]. Qed.

Lemma string_append_nil_r (a : string) : (a ++ "")%string = a.
Proof. induction a as [| c a IH]; cbn; [reflexivity | now rewrite IH]. Qed.

Lemma string_concat_cons (x : string) (xs : list string) :
  String.concat "" (x :: xs) = (x ++ String.concat "" xs)%string.
Proof.
  destruct xs as [| y ys]; cbn [String.concat];
    [now rewrite string_append_nil_r | reflexivity].
Qed.

Lemma format_02X_length (n : Z) :
  0 <= n < 256 -> String.length (format_02X n) = 2%nat.
Proof.
  intros Hn.
  assert (H : forallb (fun k => Nat.eqb (String.length (format_02X k)) 2)
                (range 256) = true)
    by (vm_compute; reflexivity).
  rewrite forallb_forall in H. apply Nat.eqb_eq, H, In_range_256, Hn.
Qed.

(** X17: hex output is fixed-width: for a palette whose components are in
    [range(256)], each entry takes exactly 15 characters, the newline
    included, so the text has [15 * len(pal)] characters and entry [i]
    starts at offset [15 * i]. *)
Theorem X17_write_hex_width (pal : list entry) :
  Forall byte_entry pal ->
  String.length (write_hex pal) = (15 * List.length pal)%nat.
Proof.
  unfold write_hex.
  induction 1 as [| [[r g] b] pal (Hr & Hg & Hb) Hpal IH]; [reflexivity |].
  cbn [map]. rewrite string_concat_cons, string_length_append, IH.
  unfold print, hex_line, nl.
  repeat rewrite string_length_append.
  rewrite !format_02X_length by assumption. cbn [String.length List.length]. lia.
Qed.

Lemma X17_write_hex_width_witness :
  Forall byte_entry [(255, 0, 16); (1, 2, 3)]
  /\ String.length (write_hex [(255, 0, 16); (1, 2, 3)]) = 30%nat.
Proof.
  assert (H : Forall byte_entry [(255, 0, 16); (1, 2, 3)])
    by (repeat constructor; lia).
  split; [exact H |]. exact (X17_write_hex_width _ H).
Defined.

(** *** The assembly writer *)


















(** *** [lerp] *)

(** X22: [lerp] is monotone in its parameter over the unit interval, as
    computed, rounding included: for finite [a] and a finite difference
    [b - a], it does not decrease when [b - a] is at or above zero and does
    not increase when [b - a] is at or below zero. *)
Theorem X22_lerp_monotone (a b t1 t2 : float) :
  finite a -> finite (b - a) -> unit t1 -> unit t2 ->
  (t1 <=? t2)%float = true ->
  ((0 <=? b - a)%float = true -> (lerp a b t1 <=? lerp a b t2)%float = true)
  /\ ((b - a <=? 0)%float = true -> (lerp a b t2 <=? lerp a b t1)%float = true).
Proof.
  intros Fa Fd H1 H2 H12. unfold lerp. set (d := (b - a)%float) in *.
  pose proof (unit_finite t1 H1) as F1. pose proof (unit_finite t2 H2) as F2.
  pose proof (unit_B2R t1 H1) as B1. pose proof (unit_B2R t2 H2) as B2.
  apply (leb_B2R t1 t2 F1 F2) in H12.
  pose proof (mul_rounds d t1 Fd F1) as R1.
  pose proof (mul_rounds d t2 Fd F2) as R2.
  split; intros Hd.
  - apply (leb_B2R 0 d finite_0 Fd) in Hd. rewrite B2R_0 in Hd.
    assert (Fp : forall t : float,
               finite t -> (0 <= B2R t <= 1)%R -> finite (d * t)).
    { intros t Ft Bt. pose proof (mul_rounds d t Fd Ft) as Rt.
      apply (finite_between 0 d); [exact finite_0 | exact Fd | |].
      - apply (rounds_nonneg _ _ Rt). nra.
      - apply (rounds_le _ _ _ Rt Fd). nra. }
    assert (Hp : (d * t1 <=? d * t2)%float = true)
      by (apply (rounds_leb_prim _ _ _ _ R1 R2); nra).
    apply (leb_B2R _ _ (Fp t1 F1 B1) (Fp t2 F2 B2)) in Hp.
    apply (rounds_leb_prim (B2R a + B2R (d * t1)) (B2R a + B2R (d * t2)));
      [apply add_rounds; auto | apply add_rounds; auto | lra].
  - apply (leb_B2R d 0 Fd finite_0) in Hd. rewrite B2R_0 in Hd.
    assert (Fp : forall t : float,
               finite t -> (0 <= B2R t <= 1)%R -> finite (d * t)).
    { intros t Ft Bt. pose proof (mul_rounds d t Fd Ft) as Rt.
      apply (finite_between d 0); [exact Fd | exact finite_0 | |].
      - apply (rounds_ge _ _ _ Rt Fd). nra.
      - apply (rounds_le _ _ _ Rt finite_0). rewrite B2R_0. nra. }
    assert (Hp : (d * t2 <=? d * t1)%float = true)
      by (apply (rounds_leb_prim _ _ _ _ R2 R1); nra).
    apply (leb_B2R _ _ (Fp t2 F2 B2) (Fp t1 F1 B1)) in Hp.
    apply (rounds_leb_prim (B2R a + B2R (d * t2)) (B2R a + B2R (d * t1)));
      [apply add_rounds; auto | apply add_rounds; auto | lra].
Qed.

Lemma X22_lerp_monotone_witness :
  finite 0.2 /\ finite (0.8 - 0.2) /\ unit 0.25 /\ unit 0.75
  /\ (0.25 <=? 0.75)%float = true /\ (0 <=? 0.8 - 0.2)%float = true
  /\ (lerp 0.2 0.8 0.25 <=? lerp 0.2 0.8 0.75)%float = true.
Proof.
  assert (U1 : unit 0.25) by (split; reflexivity).
  assert (U2 : unit 0.75) by (split; reflexivity).
  split; [reflexivity |]. split; [reflexivity |]. split; [exact U1 |].
  split; [exact U2 |]. split; [reflexivity |]. split; [reflexivity |].
  exact (proj1 (X22_lerp_monotone 0.2 0.8 0.25 0.75
                  eq_refl eq_refl U1 U2 eq_refl) eq_refl).
Defined.

(** *** [interpolate_stops] on the stops of the builder, for any parameter *)

Section AnyParameter.

Variable libm_pow : float -> float -> float.

(** X23: on the stop list of the builder, with a valid gamma mode,
    [interpolate_stops] returns for every parameter that is a number, not
    only for those in [0, 1]: a parameter at or below 0, minus infinity
    included, gets what 0.0 gets, and one at or above 1, plus infinity
    included, gets what 1.0 gets; and the colour returned quantizes. *)
Theorem X23_interpolate_any_parameter (t : float) (gamma_mode : value) :
  pow_in_unit libm_pow -> valid_gamma_mode gamma_mode -> not_nan t ->
  (exists e : entry,
     bind (interpolate_stops libm_pow stops t gamma_mode) quantize = Ok e)
  /\ ((t <=? 0)%float = true ->
      interpolate_stops libm_pow stops t gamma_mode
      = interpolate_stops libm_pow stops 0 gamma_mode)
  /\ ((1 <=? t)%float = true ->
      interpolate_stops libm_pow stops t gamma_mode
      = interpolate_stops libm_pow stops 1 gamma_mode).
Proof.
  intros Hpow Hv Nt.
  assert (L : (t <=? 0)%float = true ->
              interpolate_stops libm_pow stops t gamma_mode
              = interpolate_stops libm_pow stops 0 gamma_mode).
  { intros H. rewrite !interpolate_stops_fixed, H. reflexivity. }
  assert (U : (1 <=? t)%float = true ->
              interpolate_stops libm_pow stops t gamma_mode
              = interpolate_stops libm_pow stops 1 gamma_mode).
  { intros H. rewrite !interpolate_stops_fixed, H.
    assert (P : (0 <? t)%float = true).
    { apply (leb_positive 1 t finite_1); [rewrite B2R_1; lra | exact H]. }
    rewrite (ltb_leb_false 0 t P). reflexivity. }
  split; [| split; [exact L | exact U]].
  assert (N0 : not_nan 0) by (unfold not_nan; discriminate).
  assert (N1 : not_nan 1) by (unfold not_nan; discriminate).
  destruct (t <=? 0)%float eqn:T0.
  - rewrite (L eq_refl).
    exact (interpolate_total libm_pow Hpow 0 gamma_mode unit_0 Hv).
  - destruct (1 <=? t)%float eqn:T1.
    + rewrite (U eq_refl).
      exact (interpolate_total libm_pow Hpow 1 gamma_mode unit_1 Hv).
    + apply (interpolate_total libm_pow Hpow t gamma_mode); [| exact Hv].
      split; apply ltb_leb, leb_false_ltb; try apply comparable; assumption.
Qed.

End AnyParameter.

Lemma X23_interpolate_any_parameter_witness :
  pow_in_unit Libm.pow /\ valid_gamma_mode (Str "srgb") /\ not_nan infinity
  /\ (exists e : entry,
        bind (interpolate_stops Libm.pow stops infinity (Str "srgb")) quantize
        = Ok e)
  /\ interpolate_stops Libm.pow stops infinity (Str "srgb")
     = interpolate_stops Libm.pow stops 1 (Str "srgb").
Proof.
  assert (Hv : valid_gamma_mode (Str "srgb")) by (left; reflexivity).
  assert (Nt : not_nan infinity) by (unfold not_nan; discriminate).
  pose proof (X23_interpolate_any_parameter Libm.pow infinity (Str "srgb")
                Libm_pow_in_unit Hv Nt) as (H1 & _ & H3).
  split; [exact Libm_pow_in_unit |]. split; [exact Hv |]. split; [exact Nt |].
  split; [exact H1 | exact (H3 eq_refl)].
Defined.

(** *** The parameters the builder samples *)

Lemma int_truediv_rounds (i n : Z) :
  0 <= i <= n -> 0 < n ->
  exists t : float,
    int_truediv i n = Ok t /\ rounds (IZR i / IZR n) (Prim2SF t).
Proof.
  intros Hi Hn. unfold int_truediv. destruct (n =? 0) eqn:E; [lia |].
  pose proof (quotient_rounds i n Hn) as Hq.
  remember (SFdiv prec emax (SF_of_Z i) (SF_of_Z n)) as q eqn:Eq. clear Eq.
  assert (Hz : (0 <= IZR i / IZR n <= 1)%R).
  { assert (Pn : (0 < IZR n)%R) by (apply IZR_lt; exact Hn).
    assert (Pi : (0 <= IZR i)%R) by (apply IZR_le; lia).
    assert (Li : (IZR i <= IZR n)%R) by (apply IZR_le; lia).
    pose proof (Rinv_0_lt_compat _ Pn) as Px.
    assert (Ex : (IZR n * / IZR n = 1)%R) by (apply Rinv_r; lra).
    unfold Rdiv. split; nra. }
  pose proof (rounds_valid _ _ Hq) as Vq.
  pose proof (rounds_leb 0 _ _ _ (rounds_zero false) Hq (proj1 Hz)) as L0.
  pose proof (rounds_leb _ 1 _ _ Hq rounds_1 (proj2 Hz)) as L1.
  exists (SF2Prim q). split.
  - destruct q as [s | [|] | | s m e]; try reflexivity;
      [vm_compute in L0 | vm_compute in L1]; discriminate.
  - rewrite Prim2SF_SF2Prim by exact Vq. exact Hq.
Qed.

(** X24: the parameters [t = i / (size - 1)] of the builder's loop, for a
    size above 1: each is in the unit interval, they do not decrease with
    the index, the first is 0.0 and the last is 1.0 exactly, whatever the
    size is. *)
Theorem X24_sample_parameters (size i j : Z) :
  1 < size -> 0 <= i -> i <= j -> j <= size - 1 ->
  (exists ti tj : float,
     int_truediv i (size - 1) = Ok ti /\ int_truediv j (size - 1) = Ok tj
     /\ unit ti /\ unit tj /\ (ti <=? tj)%float = true)
  /\ int_truediv 0 (size - 1) = Ok 0%float
  /\ int_truediv (size - 1) (size - 1) = Ok 1%float.
Proof.
  intros Hs Hi Hij Hj.
  split; [| split; [apply int_truediv_0; lia | apply int_truediv_same; lia]].
  destruct (int_truediv_rounds i (size - 1)) as (ti & Ei & Ri); [lia | lia |].
  destruct (int_truediv_rounds j (size - 1)) as (tj & Ej & Rj); [lia | lia |].
  destruct (int_truediv_unit i (size - 1)) as (ti' & Ei' & Ui); [lia | lia |].
  destruct (int_truediv_unit j (size - 1)) as (tj' & Ej' & Uj); [lia | lia |].
  assert (ti' = ti) by congruence. assert (tj' = tj) by congruence.
  subst ti' tj'. exists ti, tj. repeat split; try assumption;
    try (apply Ui); try (apply Uj).
  apply (rounds_leb_prim _ _ _ _ Ri Rj).
  assert (Pn : (0 < IZR (size - 1))%R) by (apply IZR_lt; lia).
  assert (Lij : (IZR i <= IZR j)%R) by (apply IZR_le; lia).
  pose proof (Rinv_0_lt_compat _ Pn) as Px. unfold Rdiv. nra.
Qed.

Lemma X24_sample_parameters_witness :
  1 < 37 /\ 0 <= 11 /\ 11 <= 12 /\ 12 <= 37 - 1
  /\ (exists ti tj : float,
        int_truediv 11 (37 - 1) = Ok ti /\ int_truediv 12 (37 - 1) = Ok tj
        /\ unit ti /\ unit tj /\ (ti <=? tj)%float = true)
  /\ int_truediv 0 (37 - 1) = Ok 0%float
  /\ int_truediv (37 - 1) (37 - 1) = Ok 1%float.
Proof.
  split; [lia |]. split; [lia |]. split; [lia |]. split; [lia |].
  apply (X24_sample_parameters 37 11 12); lia.
Defined.

(** *** [apply_gamma] on the unit cube *)

(** X25: for a positive finite gamma, a float or a string that reads as
    one, [apply_gamma] returns on every colour of the unit cube, and its
    result is in the unit cube: the exponent [1.0 / gpow] is positive, never
    zero through underflow, and may be infinite through overflow. *)
Theorem X25_apply_gamma_unit_cube
  (libm_pow : float -> float -> float) (gamma_mode : value) (gpow : float)
  (r g b : float) :
  pow_in_unit libm_pow ->
  eq_str gamma_mode "srgb" = false -> float_of gamma_mode = Ok gpow ->
  (0 <? gpow)%float = true -> (gpow <? infinity)%float = true ->
  unit r -> unit g -> unit b ->
  exists r' g' b' : float,
    apply_gamma libm_pow (r, g, b) gamma_mode = Ok (r', g', b')
    /\ unit r' /\ unit g' /\ unit b'.
Proof.
  intros Hpow Hm Hg G0 Ginf Hr Hgr Hb.
  rewrite (apply_gamma_numeric libm_pow (r, g, b) gamma_mode gpow Hm Hg G0).
  destruct (reciprocal_positive gpow G0 Ginf) as [_ He].
  unfold power_adjust. apply (tuple_map_total _ unit);
    apply float_pow_unit; assumption.
Qed.

Lemma X25_apply_gamma_unit_cube_witness :
  pow_in_unit Libm.pow
  /\ eq_str (Float 0x1p-1074) "srgb" = false
  /\ float_of (Float 0x1p-1074) = Ok 0x1p-1074%float
  /\ (0 <? 0x1p-1074)%float = true /\ (0x1p-1074 <? infinity)%float = true
  /\ unit 0.2 /\ unit 0 /\ unit 1
  /\ exists r' g' b' : float,
       apply_gamma Libm.pow (0.2, 0, 1)%float (Float 0x1p-1074)
       = Ok (r', g', b')
       /\ unit r' /\ unit g' /\ unit b'.
Proof.
  assert (U2 : unit 0.2) by (split; reflexivity).
  split; [exact Libm_pow_in_unit |]. split; [reflexivity |].
  split; [reflexivity |]. split; [reflexivity |]. split; [reflexivity |].
  split; [exact U2 |]. split; [exact unit_0 |]. split; [exact unit_1 |].
  exact (X25_apply_gamma_unit_cube Libm.pow (Float 0x1p-1074) 0x1p-1074
           0.2 0 1 Libm_pow_in_unit eq_refl eq_refl eq_refl eq_refl
           U2 unit_0 unit_1).
Defined.

(** *** Parameters that are exactly a stop position, in the sRGB mode *)

(** One channel of the sRGB blend at the local fraction [u]: both ends
    through [srgb_to_linear], [lerp], then [linear_to_srgb]. *)
Definition srgb_channel
  (pow : float -> float -> float) (a b u : float) : result float :=
  bind (srgb_to_linear pow a)
    (fun l0 => bind (srgb_to_linear pow b)
                 (fun l1 => linear_to_srgb pow (lerp l0 l1 u))).

(** The sRGB blend returns a colour exactly when its three channels
    return, and the colour is made of what they return. *)
Lemma blend_srgb_channels
  (pow : float -> float -> float) (r0 g0 b0 r1 g1 b1 u r g b : float) :
  blend pow (r0, g0, b0) (r1, g1, b1) u (Str "srgb") = Ok (r, g, b)
  <-> srgb_channel pow r0 r1 u = Ok r
      /\ srgb_channel pow g0 g1 u = Ok g
      /\ srgb_channel pow b0 b1 u = Ok b.
Proof.
  unfold blend, srgb_channel, tuple_map.
  cbn [eq_str String.eqb Ascii.eqb Bool.eqb].
  destruct (srgb_to_linear pow r0) as [lr0 |], (srgb_to_linear pow g0) as [lg0 |],
    (srgb_to_linear pow b0) as [lb0 |], (srgb_to_linear pow r1) as [lr1 |],
    (srgb_to_linear pow g1) as [lg1 |], (srgb_to_linear pow b1) as [lb1 |];
    cbn [bind];
    try (split; [intros H; discriminate H
                | intros (H1 & H2 & H3); discriminate]).
  destruct (linear_to_srgb pow (lerp lr0 lr1 u)) as [x |],
    (linear_to_srgb pow (lerp lg0 lg1 u)) as [y |],
    (linear_to_srgb pow (lerp lb0 lb1 u)) as [z |];
    cbn [bind];
    try (split; [intros H; discriminate H
                | intros (H1 & H2 & H3); discriminate]).
  split.
  - intros H. injection H as -> -> ->. auto.
  - intros (H1 & H2 & H3). congruence.
Qed.

(** What [interpolate_stops] returns in the sRGB mode at the position of
    the stop that ends a segment: channel by channel, the sRGB blend at
    [u = 1] of the channel's values at the two stops of the segment. *)
Definition exact_stop_srgb
  (pow : float -> float -> float) (seg : stop * stop) : Prop :=
  let '((_, (r0, g0, b0)), (p, (r1, g1, b1))) := seg in
  forall r g b : float,
    interpolate_stops pow stops p (Str "srgb") = Ok (r, g, b)
    <-> srgb_channel pow r0 r1 1 = Ok r
        /\ srgb_channel pow g0 g1 1 = Ok g
        /\ srgb_channel pow b0 b1 1 = Ok b.

Lemma exact_stop_srgb_holds (pow : float -> float -> float) :
  Forall (exact_stop_srgb pow) segments_to_interior_stops.
Proof.
  pose proof (exact_stop_rule_holds pow (Float 1) eq_refl) as H.
  apply (Forall_impl _ (P := exact_stop_rule pow (Float 1))); [| exact H].
  intros [[p0 [[r0 g0] b0]] [p [[r1 g1] b1]]] (_ & _ & _ & E).
  cbn [fst snd] in E. unfold exact_stop_srgb. intros r g b.
  rewrite E. apply blend_srgb_channels.
Qed.

Lemma srgb_channel_zero (pow : float -> float -> float) :
  srgb_channel pow 0 0 1 = Ok 0%float.
Proof. reflexivity. Qed.

Lemma srgb_channel_one (pow : float -> float -> float) :
  srgb_channel pow 1 1 1 = Ok (1.055 * 1 - 0.055)%float.
Proof. reflexivity. Qed.

(** The red channel at [t = 0.75], whatever [pow] is. *)
Lemma red_at_three_quarters
  (pow : float -> float -> float) (r g b : float) :
  interpolate_stops pow stops 0.75 (Str "srgb") = Ok (r, g, b) ->
  r = (1.055 * 1 - 0.055)%float.
Proof.
  intros H. pose proof (exact_stop_srgb_holds pow) as F.
  unfold segments_to_interior_stops in F. cbn [stops tl combine removelast] in F.
  inversion_clear F as [| ? ? _ F1]. inversion_clear F1 as [| ? ? _ F2].
  inversion_clear F2 as [| ? ? _ F3]. inversion_clear F3 as [| ? ? F4 _].
  unfold exact_stop_srgb in F4. apply F4 in H as (Hr & _ & _).
  rewrite srgb_channel_one in Hr. congruence.
Qed.

Lemma srgb_returns (pow : float -> float -> float) :
  pow_in_unit pow ->
  forall t : float,
    unit t ->
    exists c : color, interpolate_stops pow stops t (Str "srgb") = Ok c.
Proof.
  intros Hpow t Ht.
  destruct (interpolate_total pow Hpow t (Str "srgb") Ht) as [e T];
    [left; reflexivity |].
  destruct (interpolate_stops pow stops t (Str "srgb")) as [c | x];
    [exists c; reflexivity | discriminate T].
Qed.

Lemma interior_stops_return (pow : float -> float -> float) :
  pow_in_unit pow ->
  Forall (fun seg : stop * stop =>
            exists c : color,
              interpolate_stops pow stops (fst (snd seg)) (Str "srgb") = Ok c)
         segments_to_interior_stops.
Proof.
  intros Hpow. unfold segments_to_interior_stops.
  cbn [stops tl combine removelast].
  repeat (apply Forall_cons; [| try apply Forall_nil]); cbn [fst snd].
  all: apply (srgb_returns pow Hpow); split; reflexivity.
Qed.

(** C5, as stated, fails in the sRGB mode, whatever the platform's [pow]
    is: 0.75 is the position of the stop of colour (1, 0.75, 0.1), strictly
    between the first and the last, and whenever [interpolate_stops] returns
    a colour there its red channel is [1.055 * 1 - 0.055], which is not 1;
    with the reference [pow] it does return one. *)
Lemma C5_exact_stop_counterexample :
  In (0.75, (1, 0.75, 0.1))%float stops
  /\ (0 <? 0.75)%float = true /\ (0.75 <? 1)%float = true
  /\ ~ (exists pow : float -> float -> float,
          interpolate_stops pow stops 0.75 (Str "srgb")
          = Ok (1, 0.75, 0.1)%float)
  /\ (forall (pow : float -> float -> float) (r g b : float),
        interpolate_stops pow stops 0.75 (Str "srgb") = Ok (r, g, b) ->
        r = (1.055 * 1 - 0.055)%float)
  /\ (1.055 * 1 - 0.055 =? 1)%float = false
  /\ exists g b : float,
       interpolate_stops Libm.pow stops 0.75 (Str "srgb")
       = Ok (1.055 * 1 - 0.055, g, b)%float.
Proof.
  split; [do 4 right; left; reflexivity |].
  split; [reflexivity |]. split; [reflexivity |]. split.
  { intros [pow H]. apply red_at_three_quarters in H.
    assert (F : (1 =? 1)%float = (1.055 * 1 - 0.055 =? 1)%float)
      by (rewrite <- H; reflexivity).
    vm_compute in F. discriminate F. }
  split; [exact red_at_three_quarters |]. split; [reflexivity |].
  do 2 eexists. vm_compute. reflexivity.
Qed.

(** C5, amended.  For a parameter equal to the position of an interior stop
    the scan takes the segment that ends at this stop, with the local
    fraction [u = 1].  In a numeric mode the component-wise blend at [u = 1]
    is the stop colour exactly and [interpolate_stops] returns
    [apply_gamma] of it, the stop colour after the power adjustment.  In
    the sRGB mode the colour returned is, channel by channel,
    [linear_to_srgb (lerp l0 l1 1)] for the values [l0], [l1] of
    [srgb_to_linear] on the channel at the two stops of the segment; it is
    returned when [pow] keeps the unit interval; whatever [pow] is, a
    channel that is 0 at both stops comes back as 0, and a channel that is 1
    at both stops comes back as [1.055 * 1 - 0.055], which is below 1. *)
Theorem C5_exact_stop_parameters
  (libm_pow : float -> float -> float) (gamma_mode : value) :
  eq_str gamma_mode "srgb" = false ->
  Forall (exact_stop_rule libm_pow gamma_mode) segments_to_interior_stops
  /\ Forall (exact_stop_srgb libm_pow) segments_to_interior_stops
  /\ (pow_in_unit libm_pow ->
      Forall (fun seg : stop * stop =>
                exists c : color,
                  interpolate_stops libm_pow stops (fst (snd seg)) (Str "srgb")
                  = Ok c)
             segments_to_interior_stops)
  /\ srgb_channel libm_pow 0 0 1 = Ok 0%float
  /\ srgb_channel libm_pow 1 1 1 = Ok (1.055 * 1 - 0.055)%float
  /\ (1.055 * 1 - 0.055 <? 1)%float = true.
Proof.
  intros Hmode.
  split; [exact (exact_stop_rule_holds libm_pow gamma_mode Hmode) |].
  split; [exact (exact_stop_srgb_holds libm_pow) |].
  split; [exact (interior_stops_return libm_pow) |].
  split; [reflexivity |]. split; reflexivity.
Qed.

Lemma C5_exact_stop_parameters_witness :
  eq_str (Str "2.2") "srgb" = false
  /\ Forall (exact_stop_rule Libm.pow (Str "2.2")) segments_to_interior_stops
  /\ Forall (exact_stop_srgb Libm.pow) segments_to_interior_stops
  /\ (pow_in_unit Libm.pow ->
      Forall (fun seg : stop * stop =>
                exists c : color,
                  interpolate_stops Libm.pow stops (fst (snd seg)) (Str "srgb")
                  = Ok c)
             segments_to_interior_stops)
  /\ srgb_channel Libm.pow 0 0 1 = Ok 0%float
  /\ srgb_channel Libm.pow 1 1 1 = Ok (1.055 * 1 - 0.055)%float
  /\ (1.055 * 1 - 0.055 <? 1)%float = true.
Proof.
  split; [reflexivity |].
  exact (C5_exact_stop_parameters Libm.pow (Str "2.2") eq_refl).
Defined.

(** *** The checks of the command line *)

Local Open Scope string_scope.

(** The claim's words: a size that is a usable positive integer, a gamma
    that is the token [srgb] or a string that parses to a positive float. *)
Definition valid_size (s : string) : Prop :=
  exists n : Z, int_of_string s = Ok n /\ (1 <= n)%Z.

Definition valid_gamma (s : string) : Prop :=
  s = "srgb"
  \/ exists g : float, float_of_string s = Ok g /\ (0 <? g)%float = true.

(** The last value the command line gives to an option. *)
Fixpoint last_value (name : string) (ps : list (string * string))
  : option string :=
  match ps with
  | [] => None
  | (n, v) :: rest =>
      match last_value name rest with
      | Some w => Some w
      | None => if String.eqb n name then Some v else None
      end
  end.

(** The size and the gamma of a command line: the last [--size] through
    [int], 37 without one; the last [--gamma], ["srgb"] without one. *)
Definition given_size (ps : list (string * string)) : result Z :=
  match last_value "--size" ps with
  | Some v => int_of_string v
  | None => Ok 37%Z
  end.

Definition given_gamma (ps : list (string * string)) : string :=
  match last_value "--gamma" ps with
  | Some v => v
  | None => "srgb"
  end.

(** An option with an argument that [argparse] refuses: a [--size] that
    [int] does not read, a [--format] outside the choices. *)
Definition refused (p : string * string) : Prop :=
  (fst p = "--size" /\ exists e : exn, int_of_string (snd p) = Raise e)
  \/ (fst p = "--format" /\ ~ In (snd p) formats).

(** The gammas that make the builder raise [e] at its first sample: a
    string [float] does not read, or one it reads as NaN, as a zero or as
    a negative finite number. *)
Definition gamma_fault (gamma : string) (e : exn) : Prop :=
  (float_of_string gamma = Raise ValueError /\ e = ValueError)
  \/ exists g : float,
       float_of_string gamma = Ok g
       /\ ((g = nan /\ e = ValueError)
           \/ ((g =? 0)%float = true /\ e = ZeroDivisionError)
           \/ ((g <? 0)%float = true /\ finite g
               /\ e = if is_infinity (1 / g)
                      then OverflowError else ZeroDivisionError)).

(** [float] raises nothing but [ValueError]. *)
Lemma float_of_string_error (s : string) (e : exn) :
  float_of_string s = Raise e -> e = ValueError.
Proof.
  unfold float_of_string.
  destruct (sign_of (strip (list_ascii_of_string s))) as [neg body].
  destruct (String.eqb _ "inf" || String.eqb _ "infinity")%bool;
    [discriminate |].
  destruct (String.eqb _ "nan"); [discriminate |].
  destruct (number body) as [[[m nfrac] rest] |]; [| congruence].
  destruct (exponent rest) as [[x [| c r]] |]; congruence.
Qed.

Lemma in_formats (v : string) :
  existsb (String.eqb v) formats = true <-> In v formats.
Proof.
  rewrite existsb_exists. split.
  - intros (x & Hx & E). apply String.eqb_eq in E. now subst.
  - intros H. exists v. split; [exact H | apply String.eqb_refl].
Qed.

Lemma store_refused (ns : namespace) (name value : string) :
  store ns name value = None <-> refused (name, value).
Proof.
  unfold store, refused. cbn [fst snd].
  destruct (String.eqb_spec name "--size") as [-> | N1].
  { destruct (int_of_string value) as [n | e]; split.
    - discriminate.
    - intros [[_ [e He]] | [H _]]; discriminate.
    - intros _. left. eauto.
    - reflexivity. }
  destruct (String.eqb_spec name "--gamma") as [-> | N2].
  { split; [discriminate | intros [[H _] | [H _]]; discriminate]. }
  destruct (String.eqb_spec name "--format") as [-> | N3].
  { destruct (existsb (String.eqb value) formats) eqn:E; split.
    - discriminate.
    - intros [[H _] | [_ H]]; [discriminate |].
      apply in_formats in E. contradiction.
    - intros _. right. split; [reflexivity |].
      intros H. apply in_formats in H. congruence.
    - reflexivity. }
  destruct (String.eqb name "--label");
    (split; [discriminate | intros [[H _] | [H _]]; contradiction]).
Qed.

Lemma parse_refused (ps : list (string * string)) (ns : namespace) :
  parse_pairs ps ns = None <-> Exists refused ps.
Proof.
  revert ns. induction ps as [| [name value] rest IH]; intros ns.
  - cbn [parse_pairs]. split; [discriminate | intros H; inversion H].
  - cbn [parse_pairs].
    destruct (store ns name value) as [ns' |] eqn:E.
    + rewrite IH. split; [intros H; now apply Exists_cons_tl |].
      intros H. inversion H as [? ? R | ? ? R]; subst; [| exact R].
      apply (store_refused ns) in R. congruence.
    + split; [| reflexivity]. intros _. apply Exists_cons_hd.
      now apply (store_refused ns).
Qed.

(** What one option changes of the size and of the gamma. *)
Lemma store_size_gamma (ns ns' : namespace) (name value : string) :
  store ns name value = Some ns' ->
  Ok (ns_size ns')
  = (if String.eqb name "--size" then int_of_string value else Ok (ns_size ns))
  /\ ns_gamma ns'
     = (if String.eqb name "--gamma" then value else ns_gamma ns).
Proof.
  unfold store.
  destruct (String.eqb_spec name "--size") as [-> | N1].
  { destruct (int_of_string value) as [n | e]; [| discriminate].
    intros H. injection H as <-. split; reflexivity. }
  destruct (String.eqb_spec name "--gamma") as [-> | N2].
  { intros H. injection H as <-. split; reflexivity. }
  destruct (String.eqb name "--format").
  { destruct (existsb (String.eqb value) formats); [| discriminate].
    intros H. injection H as <-. split; reflexivity. }
  destruct (String.eqb name "--label");
    intros H; injection H as <-; split; reflexivity.
Qed.

(** The namespace holds the last size and the last gamma given. *)
Lemma parse_size_gamma (ps : list (string * string)) (ns a : namespace) :
  parse_pairs ps ns = Some a ->
  Ok (ns_size a)
  = match last_value "--size" ps with
    | Some v => int_of_string v
    | None => Ok (ns_size ns)
    end
  /\ ns_gamma a
     = match last_value "--gamma" ps with
       | Some v => v
       | None => ns_gamma ns
       end.
Proof.
  revert ns. induction ps as [| [name value] rest IH]; intros ns.
  - cbn [parse_pairs last_value]. intros H. injection H as <-. auto.
  - cbn [parse_pairs last_value].
    destruct (store ns name value) as [ns' |] eqn:E; [| discriminate].
    intros H. destruct (IH ns' H) as [Hs Hg].
    destruct (store_size_gamma ns ns' name value E) as [Es Eg].
    split.
    + destruct (last_value "--size" rest); [exact Hs |].
      rewrite Hs, Es. destruct (String.eqb name "--size"); reflexivity.
    + destruct (last_value "--gamma" rest); [exact Hg |].
      rewrite Hg, Eg. destruct (String.eqb name "--gamma"); reflexivity.
Qed.

(** A float is a NaN, a zero, negative and finite, positive and finite, or
    infinite. *)
Lemma float_classes (g : float) :
  g = nan
  \/ (g =? 0)%float = true
  \/ ((g <? 0)%float = true /\ finite g)
  \/ ((0 <? g)%float = true /\ (g <? infinity)%float = true)
  \/ is_infinity g = true.
Proof.
  unfold is_infinity, finite.
  rewrite !eqb_spec, !ltb_spec, abs_spec.
  destruct (Prim2SF g) as [s | s | | s m e] eqn:E.
  - right. left. destruct s; reflexivity.
  - do 4 right. destruct s; reflexivity.
  - left. rewrite <- (SF2Prim_Prim2SF g), E. reflexivity.
  - destruct s.
    + right. right. left. split; reflexivity.
    + do 3 right. left. split; reflexivity.
Qed.

(** With an infinite gamma every sample is white. *)
Lemma build_gamma_infinite
  (pow : float -> float -> float) (size : Z) (gamma_mode : value) (g : float) :
  eq_str gamma_mode "srgb" = false -> float_of gamma_mode = Ok g ->
  is_infinity g = true ->
  build_fire_palette pow size gamma_mode
  = Ok (repeat (63, 63, 63)%Z (Z.to_nat size)).
Proof.
  intros Hm Hg Hi. unfold build_fire_palette.
  rewrite <- (range_length size). apply mapM_constant.
  intros i Hin. apply In_range in Hin. rewrite sample_quantize.
  assert (Ht : exists t : float,
             (if (1 <? size)%Z then int_truediv i (size - 1) else Ok 0%float)
             = Ok t
             /\ unit t).
  { destruct (1 <? size)%Z eqn:E.
    - apply Z.ltb_lt in E. apply int_truediv_unit; lia.
    - exists 0%float. split; [reflexivity | exact unit_0]. }
  destruct Ht as (t & -> & Ht). cbn [bind].
  destruct (numeric_colour pow t gamma_mode Hm Ht) as [c ->].
  rewrite (apply_gamma_infinite pow c gamma_mode g Hm Hg Hi).
  reflexivity.
Qed.

(** A gamma with a fault makes the builder raise at its first sample. *)
Lemma build_gamma_fault
  (pow : float -> float -> float) (size : Z) (gamma : string) (e : exn) :
  (1 <= size)%Z -> gamma <> "srgb" -> gamma_fault gamma e ->
  build_fire_palette pow size (Str gamma) = Raise e.
Proof.
  intros Hs Hn F.
  assert (Hm : eq_str (Str gamma) "srgb" = false)
    by (apply String.eqb_neq; exact Hn).
  destruct F as [[F ->] | (g & Hg & [[-> ->] | [[H0 ->] | (H0 & Fg & ->)]])].
  - now apply build_bad_gamma.
  - apply build_first_raises; [exact Hs |].
    rewrite (sample_first_numeric pow size _ Hm).
    unfold apply_gamma. rewrite Hm. cbn [float_of]. rewrite Hg. reflexivity.
  - apply build_first_raises; [exact Hs |].
    rewrite (sample_first_numeric pow size _ Hm).
    unfold apply_gamma, float_truediv. rewrite Hm. cbn [float_of].
    rewrite Hg. cbn [bind]. rewrite H0. reflexivity.
  - destruct (reciprocal_negative g H0 Fg) as [Ed He].
    apply build_first_raises; [exact Hs |].
    rewrite (sample_first_numeric pow size _ Hm).
    unfold apply_gamma. rewrite Hm. cbn [float_of]. rewrite Hg.
    cbn [bind]. rewrite Ed. cbn [bind].
    destruct (is_infinity (1 / g)) eqn:Ei.
    + rewrite (negative_infinite _ Ei He). reflexivity.
    + unfold float_pow at 1. rewrite (ltb_neg_eqb _ He).
      rewrite (is_nan_false _ (ltb_not_nan_l _ _ He)), Ei, He. reflexivity.
Qed.

(** With a [pow] that keeps the unit interval the builder raises for no
    other reason. *)
Lemma build_raises_fault
  (pow : float -> float -> float) (size : Z) (gamma : string) (e : exn) :
  pow_in_unit pow ->
  build_fire_palette pow size (Str gamma) = Raise e ->
  (1 <= size)%Z /\ gamma <> "srgb" /\ gamma_fault gamma e.
Proof.
  intros Hpow Hb.
  assert (Hs : (1 <= size)%Z).
  { destruct (Z.le_gt_cases 1 size) as [H | H]; [exact H |].
    rewrite build_nonpositive in Hb by lia. discriminate Hb. }
  assert (Hn : gamma <> "srgb").
  { intros ->.
    destruct (build_total pow Hpow size (Str "srgb")) as [pal Hp];
      [left; reflexivity | congruence]. }
  split; [exact Hs |]. split; [exact Hn |].
  assert (Hm : eq_str (Str gamma) "srgb" = false)
    by (apply String.eqb_neq; exact Hn).
  destruct (float_of_string gamma) as [g | e'] eqn:Hg.
  - destruct (float_classes g) as [N | [Z0 | [[N0 Fg] | [[P0 Pf] | Hi]]]].
    + assert (F : gamma_fault gamma ValueError)
        by (right; exists g; split; [exact Hg | left; auto]).
      rewrite (build_gamma_fault pow size gamma _ Hs Hn F) in Hb.
      injection Hb as <-. exact F.
    + assert (F : gamma_fault gamma ZeroDivisionError)
        by (right; exists g; split; [exact Hg | right; left; auto]).
      rewrite (build_gamma_fault pow size gamma _ Hs Hn F) in Hb.
      injection Hb as <-. exact F.
    + assert (F : gamma_fault gamma
                    (if is_infinity (1 / g)
                     then OverflowError else ZeroDivisionError))
        by (right; exists g; split; [exact Hg | right; right; auto]).
      rewrite (build_gamma_fault pow size gamma _ Hs Hn F) in Hb.
      injection Hb as <-. exact F.
    + destruct (build_total pow Hpow size (Str gamma)) as [pal Hp];
        [| congruence].
      right. split; [exact Hm |]. exists g. auto.
    + rewrite (build_gamma_infinite pow size (Str gamma) g Hm Hg Hi) in Hb.
      discriminate Hb.
  - pose proof (float_of_string_error gamma e' Hg) as ->.
    assert (F : gamma_fault gamma ValueError) by (left; auto).
    rewrite (build_gamma_fault pow size gamma _ Hs Hn F) in Hb.
    injection Hb as <-. exact F.
Qed.

(** A run on a namespace ends in a traceback exactly when the builder
    raises, with the builder's exception: no writer raises on a palette
    of the builder. *)
Lemma run_cases (pow : float -> float -> float) (a : namespace) :
  (exists e : exn,
     build_fire_palette pow (ns_size a) (Str (ns_gamma a)) = Raise e
     /\ run pow a = Traceback e)
  \/ (exists (pal : list entry) (c : content),
        build_fire_palette pow (ns_size a) (Str (ns_gamma a)) = Ok pal
        /\ run pow a
           = Written (if String.eqb (ns_outfile a) ""
                      then None else Some (ns_outfile a)) c
        /\ c = if String.eqb (ns_format a) "fasm"
               then Text (write_fasm pal (ns_label a))
               else if String.eqb (ns_format a) "hex"
                    then Text (write_hex pal)
                    else match write_raw pal with
                         | Ok bs => Bytes bs
                         | Raise _ => Bytes []
                         end).
Proof.
  unfold run.
  destruct (build_fire_palette pow (ns_size a) (Str (ns_gamma a)))
    as [pal | e] eqn:Hb; [right | left; eauto].
  destruct (build_shape pow _ _ pal Hb) as [_ Hdac].
  destruct (write_raw_dac pal Hdac) as (bs & Hw & _).
  exists pal. cbv zeta. rewrite Hw.
  destruct (String.eqb (ns_format a) "fasm"); [eauto |].
  destruct (String.eqb (ns_format a) "hex"); eauto.
Qed.

Lemma main_covered
  (pow : float -> float -> float) (argv : list string)
  (ps : list (string * string)) :
  pairs_of argv = Some ps ->
  main pow argv
  = Some match parse_pairs ps defaults with
         | None => Usage
         | Some a => run pow a
         end.
Proof. intros H. unfold main. rewrite H. reflexivity. Qed.

Lemma main_usage
  (pow : float -> float -> float) (argv : list string)
  (ps : list (string * string)) :
  pairs_of argv = Some ps ->
  (main pow argv = Some Usage <-> Exists refused ps).
Proof.
  intros H. rewrite (main_covered pow argv ps H).
  rewrite <- (parse_refused ps defaults).
  destruct (parse_pairs ps defaults) as [a |]; [| tauto].
  split; [| discriminate].
  destruct (run_cases pow a) as [(e & _ & ->) | (pal & c & _ & -> & _)];
    discriminate.
Qed.

(** C4, as stated, fails on sizes and gammas that are invalid in its
    words: ["0"] is no positive integer and ["abc"] is neither the token nor
    a string that parses, yet [--size 0] and [--size 0 --gamma abc] run to
    the end and write the label alone, with status 0, and with
    [--size 2 --gamma abc] the bad gamma is passed to the builder, which
    raises: a traceback with status 1 and no usage error. *)
Lemma C4_validation_counterexample :
  ~ valid_size "0" /\ ~ valid_gamma "abc"
  /\ forall pow : float -> float -> float,
       main pow ["--size"; "0"]
       = Some (Written None (Text ("FirePalette:" ++ nl)))
       /\ exit_status (Written None (Text ("FirePalette:" ++ nl))) = 0%Z
       /\ main pow ["--size"; "0"; "--gamma"; "abc"]
          = Some (Written None (Text ("FirePalette:" ++ nl)))
       /\ build_fire_palette pow 2 (Str "abc") = Raise ValueError
       /\ main pow ["--size"; "2"; "--gamma"; "abc"]
          = Some (Traceback ValueError)
       /\ exit_status (Traceback ValueError) = 1%Z.
Proof.
  split.
  { intros (n & H & Hn). vm_compute in H. injection H as <-. lia. }
  split.
  { intros [H | (g & H & _)]; [discriminate H |].
    vm_compute in H. discriminate H. }
  intros pow. repeat split; vm_compute; reflexivity.
Qed.

(** C4, amended.  On a command line of [--option value] pairs (the five
    options by their full names, each value an ASCII string that does not
    start with ["-"]) the run ends with a usage error exactly when some
    [--size] is not read by [int] or some [--format] is not one of the
    three choices.  Otherwise the last size, as an integer, and the last
    gamma, as a string, go to the builder as they are.  A size of 0 or
    below runs to the end, whatever the gamma is.  With a size of 1 or above
    and a gamma other than ["srgb"] that [float] does not read, or reads as
    NaN, as a zero or as a negative finite number, the builder raises at its
    first sample and the run ends with a traceback; with a [pow] that keeps
    the unit interval no other run ends with a traceback. *)
Theorem C4_command_line_checks
  (libm_pow : float -> float -> float) (argv : list string)
  (ps : list (string * string)) :
  pairs_of argv = Some ps ->
  (main libm_pow argv = Some Usage <-> Exists refused ps)
  /\ (~ Exists refused ps ->
      exists (size : Z) (a : namespace),
        given_size ps = Ok size
        /\ parse_pairs ps defaults = Some a
        /\ ns_size a = size /\ ns_gamma a = given_gamma ps
        /\ main libm_pow argv = Some (run libm_pow a)
        /\ ((size <= 0)%Z ->
            build_fire_palette libm_pow size (Str (given_gamma ps)) = Ok []
            /\ exists (dest : option string) (c : content),
                 main libm_pow argv = Some (Written dest c)
                 /\ exit_status (Written dest c) = 0%Z)
        /\ (forall e : exn,
              (1 <= size)%Z -> given_gamma ps <> "srgb" ->
              gamma_fault (given_gamma ps) e ->
              build_fire_palette libm_pow size (Str (given_gamma ps)) = Raise e
              /\ main libm_pow argv = Some (Traceback e)
              /\ exit_status (Traceback e) = 1%Z)
        /\ (pow_in_unit libm_pow ->
            forall e : exn,
              main libm_pow argv = Some (Traceback e) ->
              (1 <= size)%Z /\ given_gamma ps <> "srgb"
              /\ gamma_fault (given_gamma ps) e)).
Proof.
  intros Hp. split; [exact (main_usage libm_pow argv ps Hp) |].
  intros Hr. rewrite <- (parse_refused ps defaults) in Hr.
  pose proof (main_covered libm_pow argv ps Hp) as Hmain.
  destruct (parse_pairs ps defaults) as [a |] eqn:Ea; [| contradiction].
  destruct (parse_size_gamma ps defaults a Ea) as [Hs Hg].
  exists (ns_size a), a. change (Ok (ns_size a) = given_size ps) in Hs.
  change (ns_gamma a = given_gamma ps) in Hg.
  split; [symmetry; exact Hs |]. split; [reflexivity |].
  split; [reflexivity |]. split; [exact Hg |]. split; [exact Hmain |].
  rewrite Hmain, <- Hg.
  destruct (run_cases libm_pow a) as [(e' & Hb & ->) | (pal & c & Hb & -> & _)].
  - split; [| split].
    + intros H0. rewrite build_nonpositive in Hb by exact H0. discriminate Hb.
    + intros e Hsz Hn F.
      rewrite (build_gamma_fault libm_pow _ _ e Hsz Hn F) in Hb.
      injection Hb as <-.
      split; [now apply build_gamma_fault |]. split; reflexivity.
    + intros Hpow e H. injection H as <-.
      exact (build_raises_fault libm_pow _ _ e' Hpow Hb).
  - split; [| split].
    + intros H0. split; [now apply build_nonpositive |].
      eexists _, c. split; reflexivity.
    + intros e Hsz Hn F.
      rewrite (build_gamma_fault libm_pow _ _ e Hsz Hn F) in Hb.
      discriminate Hb.
    + intros _ e H. discriminate H.
Qed.

Lemma C4_command_line_checks_witness :
  pairs_of ["--size"; "3x"; "--gamma"; "0.0"]
  = Some [("--size", "3x"); ("--gamma", "0.0")]
  /\ main Libm.pow ["--size"; "3x"; "--gamma"; "0.0"] = Some Usage
  /\ pairs_of ["--size"; "2"; "--gamma"; "0.0"]
     = Some [("--size", "2"); ("--gamma", "0.0")]
  /\ main Libm.pow ["--size"; "2"; "--gamma"; "0.0"]
     = Some (Traceback ZeroDivisionError).
Proof.
  split; [reflexivity |]. split.
  - apply (C4_command_line_checks Libm.pow
             ["--size"; "3x"; "--gamma"; "0.0"]
             [("--size", "3x"); ("--gamma", "0.0")] eq_refl).
    apply Exists_cons_hd. left. split; [reflexivity |].
    exists ValueError. reflexivity.
  - split; [reflexivity |].
    destruct (C4_command_line_checks Libm.pow
                ["--size"; "2"; "--gamma"; "0.0"]
                [("--size", "2"); ("--gamma", "0.0")] eq_refl)
      as [_ H].
    destruct H as (size & a & Hs & _ & _ & _ & _ & _ & H & _).
    + intros E. inversion E as [? ? R | ? ? E1]; subst.
      * destruct R as [[_ [e R]] | [R _]]; discriminate R.
      * inversion E1 as [? ? R | ? ? E2]; subst; [| inversion E2].
        destruct R as [[R _] | [R _]]; discriminate R.
    + vm_compute in Hs. injection Hs as <-.
      apply (H ZeroDivisionError); [lia | discriminate |].
      right. exists 0%float. split; [reflexivity |]. right. left.
      split; reflexivity.
Defined.

(** *** How a run ends *)

(** The value of an option on a command line: the last one given, or the
    default of the option. *)
Definition given_option
  (name default : string) (ps : list (string * string)) : string :=
  match last_value name ps with
  | Some v => v
  | None => default
  end.

Lemma pairs_of_names (argv : list string) :
  forall ps : list (string * string),
    pairs_of argv = Some ps ->
    Forall (fun p => In (fst p) option_names) ps.
Proof.
  induction argv as [argv IH] using (induction_ltof1 _ (@List.length string)).
  unfold ltof in IH. intros ps.
  destruct argv as [| name [| value rest]]; cbn [pairs_of].
  - intros H. injection H as <-. constructor.
  - discriminate.
  - destruct (existsb (String.eqb name) option_names) eqn:En;
      [| discriminate].
    destruct (plain_value value); [| discriminate]. cbn [andb].
    destruct (pairs_of rest) as [ps' |] eqn:Er; [| discriminate].
    intros H. injection H as <-. constructor.
    + cbn [fst]. apply existsb_exists in En as (x & Hx & E).
      apply String.eqb_eq in E. now subst.
    + apply (IH rest); [cbn [List.length]; lia | exact Er].
Qed.

Lemma last_value_in (name v : string) (ps : list (string * string)) :
  last_value name ps = Some v -> In (name, v) ps.
Proof.
  induction ps as [| [n w] rest IH]; cbn [last_value]; [discriminate |].
  destruct (last_value name rest) as [u |].
  - intros H. right. apply IH. exact H.
  - destruct (String.eqb_spec n name) as [-> | _]; [| discriminate].
    intros H. injection H as ->. left. reflexivity.
Qed.

(** What one option changes of the format, the label and the file. *)
Lemma store_rest (ns ns' : namespace) (name value : string) :
  In name option_names -> store ns name value = Some ns' ->
  ns_format ns'
  = (if String.eqb name "--format" then value else ns_format ns)
  /\ ns_label ns'
     = (if String.eqb name "--label" then value else ns_label ns)
  /\ ns_outfile ns'
     = (if String.eqb name "--outfile" then value else ns_outfile ns).
Proof.
  intros [<- | [<- | [<- | [<- | [<- | []]]]]]; unfold store;
    cbn [String.eqb Ascii.eqb Bool.eqb];
    try (destruct (int_of_string value); [| discriminate]);
    try (destruct (existsb (String.eqb value) formats); [| discriminate]);
    intros H; injection H as <-; repeat split; reflexivity.
Qed.

Lemma parse_rest (ps : list (string * string)) (ns a : namespace) :
  Forall (fun p => In (fst p) option_names) ps ->
  parse_pairs ps ns = Some a ->
  ns_format a = given_option "--format" (ns_format ns) ps
  /\ ns_label a = given_option "--label" (ns_label ns) ps
  /\ ns_outfile a = given_option "--outfile" (ns_outfile ns) ps.
Proof.
  unfold given_option. intros Hn. revert ns.
  induction Hn as [| [name value] rest Hname _ IH]; intros ns.
  - cbn [parse_pairs last_value]. intros H. injection H as <-. auto.
  - cbn [parse_pairs last_value]. cbn [fst] in Hname.
    destruct (store ns name value) as [ns' |] eqn:E; [| discriminate].
    intros H. destruct (IH ns' H) as (Hf & Hl & Ho).
    destruct (store_rest ns ns' name value Hname E) as (Ef & El & Eo).
    split; [| split].
    + destruct (last_value "--format" rest); [exact Hf |].
      rewrite Hf, Ef. destruct (String.eqb name "--format"); reflexivity.
    + destruct (last_value "--label" rest); [exact Hl |].
      rewrite Hl, El. destruct (String.eqb name "--label"); reflexivity.
    + destruct (last_value "--outfile" rest); [exact Ho |].
      rewrite Ho, Eo. destruct (String.eqb name "--outfile"); reflexivity.
Qed.

(** The format of a command line that is not refused is one of the three
    choices. *)
Lemma given_format (ps : list (string * string)) :
  ~ Exists refused ps -> In (given_option "--format" "fasm" ps) formats.
Proof.
  intros Hr. unfold given_option.
  destruct (last_value "--format" ps) as [v |] eqn:E; [| left; reflexivity].
  apply last_value_in in E.
  destruct (existsb (String.eqb v) formats) eqn:Ev;
    [now apply in_formats |].
  exfalso. apply Hr. apply Exists_exists. exists ("--format", v).
  split; [exact E |]. right. split; [reflexivity |].
  cbn [snd]. intros H. apply in_formats in H. congruence.
Qed.

(** X19: on a command line of [--option value] pairs the run ends with
    the exit status 2, a usage error of [argparse], exactly when some
    [--size] is not read by [int] or some [--format] is not among the
    choices; a command line that gives only gammas, labels and files, or
    nothing, never ends so. *)
Theorem X19_main_usage_errors
  (libm_pow : float -> float -> float) (argv : list string)
  (ps : list (string * string)) :
  pairs_of argv = Some ps ->
  exists o : outcome,
    main libm_pow argv = Some o
    /\ (exit_status o = 2%Z <-> Exists refused ps)
    /\ (Forall (fun p => In (fst p) ["--gamma"; "--label"; "--outfile"]) ps ->
        exit_status o <> 2%Z).
Proof.
  intros Hp. pose proof (main_usage libm_pow argv ps Hp) as Hu.
  rewrite (main_covered libm_pow argv ps Hp) in *.
  eexists. split; [reflexivity |].
  assert (Hiff : exit_status
                   match parse_pairs ps defaults with
                   | Some a => run libm_pow a
                   | None => Usage
                   end = 2%Z <-> Exists refused ps).
  { rewrite <- Hu.
    destruct (parse_pairs ps defaults) as [a |]; [| tauto].
    destruct (run_cases libm_pow a) as [(e & _ & ->) | (pal & c & _ & -> & _)];
      split; discriminate. }
  split; [exact Hiff |].
  intros Hn H. apply Hiff in H. apply Exists_exists in H as (p & Hin & R).
  rewrite Forall_forall in Hn. specialize (Hn p Hin).
  destruct R as [[R _] | [R _]]; rewrite R in Hn;
    destruct Hn as [Hn | [Hn | [Hn | []]]]; discriminate Hn.
Qed.

Lemma X19_main_usage_errors_witness :
  pairs_of ["--gamma"; "2.2"; "--format"; "png"]
  = Some [("--gamma", "2.2"); ("--format", "png")]
  /\ exists o : outcome,
       main Libm.pow ["--gamma"; "2.2"; "--format"; "png"] = Some o
       /\ (exit_status o = 2%Z
           <-> Exists refused [("--gamma", "2.2"); ("--format", "png")])
       /\ (Forall (fun p => In (fst p) ["--gamma"; "--label"; "--outfile"])
                  [("--gamma", "2.2"); ("--format", "png")] ->
           exit_status o <> 2%Z).
Proof.
  split; [reflexivity |].
  exact (X19_main_usage_errors Libm.pow
           ["--gamma"; "2.2"; "--format"; "png"]
           [("--gamma", "2.2"); ("--format", "png")] eq_refl).
Defined.

(** X20: on a command line of [--option value] pairs the run ends with
    the exit status 1, a traceback, exactly when the command line is not
    refused and the builder raises on its size and gamma; the exception
    shown is the builder's.  When the builder returns, the run ends with
    status 0: the raw writer returns on the palette, whose components are
    bytes. *)
Theorem X20_main_tracebacks
  (libm_pow : float -> float -> float) (argv : list string)
  (ps : list (string * string)) :
  pairs_of argv = Some ps ->
  exists o : outcome,
    main libm_pow argv = Some o
    /\ (exit_status o = 1%Z
        <-> ~ Exists refused ps
            /\ exists (size : Z) (e : exn),
                 given_size ps = Ok size
                 /\ build_fire_palette libm_pow size (Str (given_gamma ps))
                    = Raise e)
    /\ (forall (size : Z) (e : exn),
          ~ Exists refused ps -> given_size ps = Ok size ->
          build_fire_palette libm_pow size (Str (given_gamma ps)) = Raise e ->
          o = Traceback e)
    /\ (forall (size : Z) (pal : list entry),
          ~ Exists refused ps -> given_size ps = Ok size ->
          build_fire_palette libm_pow size (Str (given_gamma ps)) = Ok pal ->
          exit_status o = 0%Z
          /\ exists bs : list byte, write_raw pal = Ok bs).
Proof.
  intros Hp. rewrite (main_covered libm_pow argv ps Hp).
  eexists. split; [reflexivity |].
  pose proof (parse_refused ps defaults) as Hr.
  destruct (parse_pairs ps defaults) as [a |] eqn:Ea.
  - assert (Hn : ~ Exists refused ps) by (intros H; apply Hr in H; discriminate).
    destruct (parse_size_gamma ps defaults a Ea) as [Hs Hg].
    change (Ok (ns_size a) = given_size ps) in Hs. change (ns_gamma a = given_gamma ps) in Hg.
    rewrite <- Hg, <- Hs.
    destruct (run_cases libm_pow a)
      as [(e' & Hb & ->) | (pal' & c & Hb & -> & _)].
    + split; [| split].
      * split; [intros _; split; [exact Hn | eauto] | reflexivity].
      * intros size e _ E. injection E as <-. congruence.
      * intros size pal _ E. injection E as <-. congruence.
    + split; [| split].
      * split; [discriminate |].
        intros (_ & size & e & E & Hb'). injection E as <-. congruence.
      * intros size e _ E. injection E as <-. congruence.
      * intros size pal _ E Hb'. injection E as <-.
        split; [reflexivity |].
        destruct (build_shape libm_pow _ _ pal Hb') as [_ Hdac].
        destruct (write_raw_dac pal Hdac) as (bs & Hw & _). eauto.
  - assert (He : Exists refused ps) by (apply Hr; reflexivity).
    split; [| split].
    + split; [discriminate | intros [Hn _]; contradiction].
    + intros size e Hn. contradiction.
    + intros size pal Hn. contradiction.
Qed.

Lemma X20_main_tracebacks_witness :
  pairs_of ["--gamma"; "nan"; "--size"; "+1_6"]
  = Some [("--gamma", "nan"); ("--size", "+1_6")]
  /\ exists o : outcome,
       main Libm.pow ["--gamma"; "nan"; "--size"; "+1_6"] = Some o
       /\ o = Traceback ValueError.
Proof.
  split; [reflexivity |].
  destruct (X20_main_tracebacks Libm.pow
              ["--gamma"; "nan"; "--size"; "+1_6"]
              [("--gamma", "nan"); ("--size", "+1_6")] eq_refl)
    as (o & Hm & _ & H & _).
  exists o. split; [exact Hm |].
  apply (H 16%Z); [| reflexivity | vm_compute; reflexivity].
  intros E. inversion E as [? ? R | ? ? E1]; subst.
  - destruct R as [[R _] | [R _]]; discriminate R.
  - inversion E1 as [? ? R | ? ? E2]; subst; [| inversion E2].
    destruct R as [[_ [e R]] | [R _]]; discriminate R.
Defined.

(** X21: on a command line of [--option value] pairs that is not refused,
    with a gamma that is ["srgb"] or reads as a positive finite number, and
    with a [pow] that keeps the unit interval, the run ends with status 0:
    the builder returns a palette of [size] entries, and what is written, to
    the file of [--outfile] or to the standard output without one, is the
    palette in the format given: the text of [write_fasm] under the label,
    the text of [write_hex], or the bytes of [write_raw], three for each
    entry, which read back as the palette.  Of an option given more than
    once the last value counts. *)
Theorem X21_main_succeeds
  (libm_pow : float -> float -> float) (argv : list string)
  (ps : list (string * string)) (size : Z) :
  pow_in_unit libm_pow -> pairs_of argv = Some ps ->
  ~ Exists refused ps -> given_size ps = Ok size ->
  valid_gamma_mode (Str (given_gamma ps)) ->
  let format := given_option "--format" "fasm" ps in
  let label := given_option "--label" "FirePalette" ps in
  let outfile := given_option "--outfile" "" ps in
  exists (pal : list entry) (c : content),
    build_fire_palette libm_pow size (Str (given_gamma ps)) = Ok pal
    /\ List.length pal = Z.to_nat size
    /\ main libm_pow argv
       = Some (Written (if String.eqb outfile "" then None else Some outfile) c)
    /\ exit_status
         (Written (if String.eqb outfile "" then None else Some outfile) c)
       = 0%Z
    /\ ((format = "fasm" /\ c = Text (write_fasm pal label))
        \/ (format = "hex" /\ c = Text (write_hex pal))
        \/ (format = "raw"
            /\ exists bs : list byte,
                 c = Bytes bs /\ write_raw pal = Ok bs
                 /\ read_triplets bs = pal
                 /\ List.length bs = (3 * Z.to_nat size)%nat)).
Proof.
  intros Hpow Hp Hn Hsize Hv format label outfile.
  pose proof (given_format ps Hn) as Hfmt. fold format in Hfmt.
  rewrite (main_covered libm_pow argv ps Hp).
  rewrite <- (parse_refused ps defaults) in Hn.
  destruct (parse_pairs ps defaults) as [a |] eqn:Ea; [| contradiction].
  destruct (parse_size_gamma ps defaults a Ea) as [Hs Hg].
  change (Ok (ns_size a) = given_size ps) in Hs. change (ns_gamma a = given_gamma ps) in Hg.
  destruct (parse_rest ps defaults a (pairs_of_names argv ps Hp) Ea)
    as (Hf & Hl & Ho).
  cbn [defaults ns_format ns_label ns_outfile] in Hf, Hl, Ho.
  fold format in Hf. fold label in Hl. fold outfile in Ho.
  rewrite Hsize in Hs. injection Hs as Hs.
  destruct (build_total libm_pow Hpow size (Str (given_gamma ps)) Hv)
    as [pal Hb].
  destruct (build_shape libm_pow _ _ pal Hb) as [Hlen Hdac].
  destruct (write_raw_dac pal Hdac) as (bs & Hw & _ & Hl3 & Hrt).
  unfold run. rewrite Hs, Hg, Hb, Hf, Hl, Ho. cbv zeta. rewrite Hw.
  exists pal.
  destruct Hfmt as [<- | [<- | [<- | []]]];
    cbn [String.eqb Ascii.eqb Bool.eqb];
    eexists; (split; [reflexivity |]); (split; [exact Hlen |]);
    (split; [reflexivity |]); (split; [reflexivity |]).
  - left. auto.
  - right. left. auto.
  - right. right. split; [reflexivity |]. exists bs. rewrite <- Hlen. auto.
Qed.

Lemma X21_main_succeeds_witness :
  pow_in_unit Libm.pow
  /\ pairs_of ["--size"; "2"; "--format"; "hex"; "--format"; "raw";
               "--outfile"; "out/pal.bin"]
     = Some [("--size", "2"); ("--format", "hex"); ("--format", "raw");
             ("--outfile", "out/pal.bin")]
  /\ exists (pal : list entry) (c : content),
       build_fire_palette Libm.pow 2 (Str "srgb") = Ok pal
       /\ main Libm.pow ["--size"; "2"; "--format"; "hex"; "--format"; "raw";
                         "--outfile"; "out/pal.bin"]
          = Some (Written (Some "out/pal.bin") c)
       /\ exists bs : list byte,
            c = Bytes bs /\ read_triplets bs = pal
            /\ List.length bs = 6%nat.
Proof.
  split; [exact Libm_pow_in_unit |]. split; [reflexivity |].
  destruct (X21_main_succeeds Libm.pow
              ["--size"; "2"; "--format"; "hex"; "--format"; "raw";
               "--outfile"; "out/pal.bin"]
              [("--size", "2"); ("--format", "hex"); ("--format", "raw");
               ("--outfile", "out/pal.bin")] 2%Z
              Libm_pow_in_unit eq_refl)
    as (pal & c & Hb & _ & Hm & _ & Hc).
  - intros E. repeat (inversion E as [? ? R | ? ? E']; subst;
      [destruct R as [[R R'] | [R R']];
       [try discriminate R; destruct R' as [e R']; discriminate R'
       | try discriminate R; apply R'; cbn; auto] |];
      clear E; rename E' into E). inversion E.
  - reflexivity.
  - left. reflexivity.
  - exists pal, c. split; [exact Hb |]. split; [exact Hm |].
    destruct Hc as [[F _] | [[F _] | [_ (bs & -> & _ & Hr & Hl)]]];
      [discriminate F | discriminate F |].
    exists bs. auto.
Defined.

Local Close Scope string_scope.
